(** * Quantum-Crypto-Attack: the 3-round Feistel distinguisher

    A shallow embedding of [include/feistel.hpp], [include/matrix.hpp],
    [include/toffoli.hpp], [include/simon.hpp] and [src/main.cpp], followed by
    the properties proved about them.

    Conventions.
    - [size_t] is a 64-bit unsigned integer: a [Z] in [0, 2^64), every
      operation that can leave that range is wrapped with [wrap].
    - [int] is a 32-bit signed integer.  The two shifts that matrix.hpp
      makes on an [int] are [int_shl]: exact up to 30 places, [INT_MIN] at
      31, undefined from 32 on.
    - [std::array<bool, Width>] and [std::vector<...>] are lists, read with
      [!!!] and written with [<[i := x]>].  The source reads and writes
      inside its arrays only; the lemmas that need it say how long a list is.
    - A C++ exception is the [Throw] constructor of [res]; a function that
      mutates the solver returns the new solver next to its result.
    - libquantum is not part of the sources: a quantum register is the list
      of the gate calls made on it, and what [quantum_measure] and
      [std::rand] return are arguments of the functions that call them. *)

From Stdlib Require Import ZArith Bool Lia.
From stdpp Require Import base list strings.

(* ================================================================= *)
(** * Part I: the program *)
(* ================================================================= *)

(** ** Machine integers and loops *)

Definition wrap (x : Z) : Z := (x mod 2 ^ 64)%Z.

(** [v << k] on the type [int], converted to [size_t], for a [v] that is 0
    or 1 (the literal [1], a promoted [bool]).  [int] has 32 bits.  For
    [k <= 30] the shift is exact.  [1 << 31] does not fit an [int]: the
    result is [INT_MIN], which the conversion to [size_t] sign-extends to
    [0xFFFFFFFF80000000].  A shift by 32 or more is undefined: [None]
    stands for that. *)
Definition int_shl (v : Z) (k : nat) : option Z :=
  if k <? 32
  then let r := Z.shiftl v (Z.of_nat k) in
       Some (wrap (if (r <? 2 ^ 31)%Z then r else (r - 2 ^ 32)%Z))
  else None.

(** [for (i = lo; i < hi; ++i) st = body i st] *)
Definition for_range {St : Type} (lo hi : nat) (body : nat → St → St) (init : St) : St :=
  fold_left (fun st i => body i st) (seq lo (hi - lo)) init.

(** [for (j = hi; j > lo; --j) st = body j st] *)
Definition for_down {St : Type} (hi lo : nat) (body : nat → St → St) (init : St) : St :=
  fold_left (fun st j => body j st) (rev (seq (S lo) (hi - lo))) init.

(** The first index in [lo, hi) at which [p] holds: a search loop left by [break]. *)
Definition find_first (lo hi : nat) (p : nat → bool) : option nat :=
  find p (seq lo (hi - lo)).

(** [std::swap(m[i], m[j])] *)
Definition swap_at {A : Type} `{Inhabited A} (m : list A) (i j : nat) : list A :=
  <[j := m !!! i]> (<[i := m !!! j]> m).

Inductive res (A : Type) : Type :=
| Ok (a : A)
| Throw (what : string).
Arguments Ok {A} a.
Arguments Throw {A} what.

(** ** feistel.hpp *)

Section FeistelCode.
Variable Bits : nat.
Variable round_function : Z → Z → Z.

Local Open Scope Z_scope.

Definition r_mask : Z := wrap (wrap (Z.shiftl 1 (Z.of_nat Bits)) - 1).
Definition l_mask : Z := wrap (Z.shiftl r_mask (Z.of_nat Bits)).

(** One pass of the encryption loop body on the pair [(l, r)]. *)
Definition encrypt_round (st : Z * Z) (key : Z) : Z * Z :=
  let '(l, r) := st in
  let next_l := r in
  let next_r := Z.lxor l (wrap (round_function r key)) in
  (next_l, next_r).

Definition run_feistel_encrypt (input : Z) (keys : list Z) : Z :=
  let r := Z.land input r_mask in
  let l := Z.shiftr (Z.land input l_mask) (Z.of_nat Bits) in
  let '(l, r) := fold_left encrypt_round keys (l, r) in
  Z.lor r (wrap (Z.shiftl l (Z.of_nat Bits))).

(** One pass of the decryption loop body; the loop reads
    [keys[keys.size() - 1 - i]], so it is folded over [rev keys]. *)
Definition decrypt_round (st : Z * Z) (key : Z) : Z * Z :=
  let '(l, r) := st in
  let prev_r := l in
  let prev_l := Z.lxor r (wrap (round_function l key)) in
  (prev_l, prev_r).

Definition run_feistel_decrypt (input : Z) (keys : list Z) : Z :=
  let r := Z.land input r_mask in
  let l := Z.shiftr (Z.land input l_mask) (Z.of_nat Bits) in
  let '(l, r) := fold_left decrypt_round (rev keys) (l, r) in
  Z.lor r (wrap (Z.shiftl l (Z.of_nat Bits))).

(** [make_feistel_encrypt]: the keys and the round function bound. *)
Definition make_feistel_encrypt (keys : list Z) : Z → Z :=
  fun input => run_feistel_encrypt input keys.
End FeistelCode.

Section ProbeCode.
Variable Bits : nat.
Local Open Scope Z_scope.

(** The lambda [w] of [run_f]: the upper half of the oracle's answer. *)
Definition run_f_w (callback : Z → Z) (input : Z) : Z :=
  let bitmask := wrap (wrap (Z.shiftl 1 (Z.of_nat Bits)) - 1) in
  let result := Z.shiftr (wrap (callback input)) (Z.of_nat Bits) in
  Z.land result bitmask.

Definition run_f (input : Z) (callback : Z → Z) (alpha beta : Z) : Z :=
  let a := Z.shiftr input 1 in
  let b := Z.land input 1 in
  let mask := if b =? 0 then alpha else beta in
  Z.lxor (run_f_w callback (Z.lor (wrap (Z.shiftl a (Z.of_nat Bits))) mask)) mask.
End ProbeCode.

(** ** matrix.hpp *)

(** [std::array<bool, Width>] *)
Abbreviation bvec := (list bool).

(** [m[i][j]] *)
Definition cell (m : list bvec) (i j : nat) : bool := (m !!! i) !!! j.

Section MatrixCode.
Variable Width : nat.

(** [dest[i] ^= src[i]] for every [i < Width] *)
Definition xor_vectors (dest src : bvec) : bvec :=
  for_range 0 Width (fun i dest => <[i := xorb (dest !!! i) (src !!! i)]> dest) dest.

(** No entry of [src] is set. *)
Definition zero_vector (src : bvec) : bool :=
  forallb (fun i => negb (src !!! i)) (seq 0 Width).

(** Only the last entry of [src] is set.  The source calls it at width
    [Width + 1] only, so that [Width - 1] does not wrap. *)
Definition one_vector (src : bvec) : bool :=
  forallb (fun i => negb (src !!! i)) (seq 0 (Width - 1)) && (src !!! (Width - 1)).
End MatrixCode.

Record MatrixSolver : Type := mkSolver {
  independent_rows : nat;
  contents : list bvec;
  targets : list bool
}.

(** The constructor [MatrixSolver() : independent_rows(0) {}]. *)
Definition new_solver : MatrixSolver := mkSolver 0 [] [].

(** [getIndependent()], the [rank()] of the specification. *)
Definition getIndependent (s : MatrixSolver) : nat := independent_rows s.

Section SolverCode.
Variable Width : nat.

(** Row [i] of the solver with its target bit as the last column. *)
Definition copy_row (s : MatrixSolver) (i : nat) : bvec :=
  map (fun j => cell (contents s) i j) (seq 0 Width) ++ [targets s !!! i].

(** The local matrix [content_copy] of [independent]: the independent rows,
    then the row under test. *)
Definition content_copy (s : MatrixSolver) (row : nat) : list bvec :=
  map (copy_row s) (seq 0 (independent_rows s)) ++ [copy_row s row].

(** One pass of the outer loop of [independent], for column [j], on the
    state [(content_copy, row_offset)]; [rows] is [independent_rows + 1].
    The second loop reads [content_copy[row_offset-1]] only behind
    [content_copy[k][j] &&], which is false for every [k] when
    [row_offset] is still 0 (lemma [no_pivot_below]). *)
Definition eliminate_column (rows : nat) (j : nat) (st : list bvec * nat) : list bvec * nat :=
  let '(cc, row_offset) := st in
  let '(cc, row_offset) :=
    match find_first row_offset rows (fun k => cell cc k j) with
    | Some k => (swap_at cc k row_offset, S row_offset)
    | None => (cc, row_offset)
    end in
  (for_range row_offset rows
     (fun k cc =>
        if cell cc k j && cell cc (row_offset - 1) j
        then <[k := xor_vectors (Width + 1) (cc !!! k) (cc !!! (row_offset - 1))]> cc
        else cc)
     cc,
   row_offset).

(** The elimination of [independent]: the columns 0 to [Width], the target
    column included. *)
Definition eliminate_copy (rows : nat) (cc : list bvec) : list bvec * nat :=
  for_range 0 (Width + 1) (eliminate_column rows) (cc, 0).

(** [independent(row)]: [Throw] when the last row of the eliminated copy is
    [0 ... 0 1], else whether that row is not zero. *)
Definition independent (s : MatrixSolver) (row : nat) : res bool :=
  let '(cc, _) := eliminate_copy (independent_rows s + 1) (content_copy s row) in
  if one_vector (Width + 1) (cc !!! independent_rows s)
  then Throw "Invalid equation"
  else Ok (negb (zero_vector (Width + 1) (cc !!! independent_rows s))).

(** One pass of the outer loop of [gaussianEliminate], for column [i]. *)
Definition gauss_column (n : nat) (i : nat) (st : list bvec * list bool) : list bvec * list bool :=
  let '(c, t) := st in
  let '(c, t) :=
    match find_first i n (fun j => cell c j i) with
    | Some j => (swap_at c j i, swap_at t j i)
    | None => (c, t)
    end in
  for_range (i + 1) n
    (fun j (st : list bvec * list bool) =>
       let '(c, t) := st in
       if cell c j i
       then (<[j := xor_vectors Width (c !!! j) (c !!! i)]> c,
             <[j := xorb (t !!! i) (t !!! j)]> t)
       else (c, t))
    (c, t).

(** [gaussianEliminate()] works on the vectors of the solver themselves. *)
Definition gaussianEliminate (s : MatrixSolver) : MatrixSolver :=
  let '(c, t) := for_range 0 Width (gauss_column (independent_rows s)) (contents s, targets s) in
  mkSolver (independent_rows s) c t.

(** [std::array<bool, Width> result;] is not initialised: [junk] is what the
    array holds before the loop writes it. *)
Definition backwardSubstitute (junk : nat → bool) (s : MatrixSolver) : bvec :=
  for_down (independent_rows s) 0
    (fun j result =>
       let index := j - 1 in
       let sub_result :=
         for_range (index + 1) (independent_rows s)
           (fun i sub_result => xorb sub_result ((result !!! i) && cell (contents s) index i))
           false in
       <[index := xorb sub_result (targets s !!! index)]> result)
    (map junk (seq 0 Width)).

(** [addRow(new_row, solution)]: the row is pushed before it is tested, so
    it stays in the vectors when [independent] throws. *)
Definition addRow (s : MatrixSolver) (new_row : bvec) (solution : bool) : res unit * MatrixSolver :=
  let s1 := mkSolver (independent_rows s) (contents s ++ [new_row]) (targets s ++ [solution]) in
  let last := length (contents s1) - 1 in
  match independent s1 last with
  | Throw what => (Throw what, s1)
  | Ok true =>
      (Ok (), mkSolver (S (independent_rows s1))
                (swap_at (contents s1) (independent_rows s1) last)
                (swap_at (targets s1) (independent_rows s1) last))
  | Ok false => (Ok (), s1)
  end.

(** [addRow(size_t encoded)] for [Width <= 30]: bit 0 is the target, bit
    [i+1] is factor [i].  The mask [1 << (i+1)] is an [int]; for
    [Width <= 30] it is the power of two written here
    ([addRow_encoded_int_exact]), and [addRow_encoded_int] below is the call
    at every width. *)
Definition addRow_encoded (s : MatrixSolver) (encoded : Z) : res unit * MatrixSolver :=
  let new_row :=
    map (fun i => negb (Z.land encoded (Z.shiftl 1 (Z.of_nat (i + 1))) =? 0)%Z) (seq 0 Width) in
  addRow s new_row (negb (Z.land encoded 1 =? 0)%Z).

(** [addRow(size_t encoded)] with the masks as the source computes them:
    [size_t mask = (1 << (i+1))] is an [int] shift.  The call is undefined
    when one of the shifts is. *)
Definition addRow_encoded_int (s : MatrixSolver) (encoded : Z)
    : option (res unit * MatrixSolver) :=
  match mapM (fun i => match int_shl 1 (i + 1) with
                       | Some mask => Some (negb (Z.land encoded mask =? 0)%Z)
                       | None => None
                       end) (seq 0 Width) with
  | Some new_row => Some (addRow s new_row (negb (Z.land encoded 1 =? 0)%Z))
  | None => None
  end.

(** [solve()]: the solver it returns is the one [gaussianEliminate] left. *)
Definition solve (junk : nat → bool) (s : MatrixSolver) : res bvec * MatrixSolver :=
  if independent_rows s =? Width
  then let s' := gaussianEliminate s in (Ok (backwardSubstitute junk s'), s')
  else (Throw "Could not solve, invalid number of rows", s).

(** [solveEncoded()] for [Width <= 30], where the [int] shift
    [solution[i] << (i+1)] is exact ([solveEncoded_int_exact]);
    [solveEncoded_int] below is the call at every width. *)
Definition solveEncoded (junk : nat → bool) (s : MatrixSolver) : res Z * MatrixSolver :=
  match solve junk s with
  | (Ok solution, s') =>
      (Ok (for_range 0 (length solution)
             (fun i result => Z.lor result (wrap (Z.shiftl (Z.b2z (solution !!! i)) (Z.of_nat (i + 1)))))
             1%Z),
       s')
  | (Throw what, s') => (Throw what, s')
  end.

(** [solveEncoded()] with the shifts as the source computes them:
    [result |= solution[i] << (i+1)] shifts a [bool] promoted to [int] and
    converts the [int] to [size_t].  The call is undefined when one of the
    shifts is. *)
Definition solveEncoded_int (junk : nat → bool) (s : MatrixSolver)
    : option (res Z * MatrixSolver) :=
  match solve junk s with
  | (Ok solution, s') =>
      match for_range 0 (length solution)
              (fun i (result : option Z) =>
                 match result, int_shl (Z.b2z (solution !!! i)) (i + 1) with
                 | Some result, Some bit => Some (Z.lor result bit)
                 | _, _ => None
                 end)
              (Some 1%Z) with
      | Some result => Some (Ok result, s')
      | None => None
      end
  | (Throw what, s') => Some (Throw what, s')
  end.
End SolverCode.

(** ** main.cpp: run_feistel_detect *)

Inductive verdict : Type :=
| FeistelSolved       (* "3-round Feistel (solved equation)" *)
| RandomPermutation   (* "Random permutation" *)
| FeistelBudget.      (* "3-round Feistel (more than 2n equations attempted)" *)

Section DetectCode.
Variable Bits : nat.
Variable internal_callback : Z → Z.
(** The three results of [std::rand()] and the uninitialised solution array. *)
Variables rand_alpha rand_beta rand_u : Z.
Variable junk : nat → bool.

Local Open Scope Z_scope.

Definition ALPHA : Z := wrap rand_alpha mod wrap (Z.shiftl 1 (Z.of_nat Bits)).
Definition BETA : Z := wrap rand_beta mod wrap (Z.shiftl 1 (Z.of_nat Bits)).

Definition probe (input : Z) : Z := run_f Bits input internal_callback ALPHA BETA.

(** The loop of [run_feistel_detect] from counter [i] on. Every pass draws
    one result of [run_simon]; [samples] lists the results still to come
    and [None] says that they were all drawn with the loop still running.
    The [catch] block's [--i] and the loop's [++i] are both applied. *)
Fixpoint detect_loop (samples : list Z) (i : Z) (solver : MatrixSolver) : option verdict :=
  if i <? wrap (2 * Z.of_nat Bits) then
    match samples with
    | [] => None
    | j :: samples' =>
        match addRow_encoded Bits solver j with
        | (Throw _, solver') => detect_loop samples' (wrap (wrap (i - 1) + 1)) solver'
        | (Ok _, solver') =>
            if (getIndependent solver' =? Bits)%nat then
              match solveEncoded Bits junk solver' with
              | (Ok s, _) =>
                  let u := wrap rand_u mod wrap (Z.shiftl 1 (Z.of_nat (Bits + 1))) in
                  let f_u := probe u in
                  let f_u_s := probe (Z.lxor u s) in
                  Some (if f_u =? f_u_s then FeistelSolved else RandomPermutation)
              | (Throw _, solver'') => detect_loop samples' (wrap (wrap (i - 1) + 1)) solver''
              end
            else detect_loop samples' (wrap (i + 1)) solver'
        end
    end
  else Some FeistelBudget.

(** A run that may call the sampler [fuel] times; [sampler k] is the
    first register measured by the [k]-th call of [run_simon]. *)
Definition run_feistel_detect (fuel : nat) (sampler : nat → Z) : option verdict :=
  detect_loop (map sampler (seq 0 fuel)) 0 new_solver.
End DetectCode.

(** ** The quantum register *)

(** libquantum is not part of the sources.  A register is the sequence of
    the gate calls made on it, the first call first; each call is named
    after the library function and carries its arguments. *)
Inductive gate : Type :=
| quantum_hadamard (target : Z)
| quantum_sigma_x (target : Z)
| quantum_unbounded_toffoli (controlling : nat) (controls : list Z) (target : Z).

Abbreviation quantum_reg := (list gate).

(** ** toffoli.hpp *)

Section ToffoliCode.
Variable N : nat.
Local Open Scope Z_scope.

(** [create_nbit_toffoli<N>]: the array expanded into the argument list. *)
Definition create_nbit_toffoli (target_register : quantum_reg) (target_bit : Z) (args : list Z)
    : quantum_reg :=
  target_register ++
    [quantum_unbounded_toffoli N (map (fun k => args !!! k) (seq 0 N)) target_bit].

Definition num_bits_set (mask : Z) : nat :=
  for_range 0 N
    (fun i set_bits =>
       if Z.land mask (wrap (Z.shiftl 1 (Z.of_nat i))) =? 0 then set_bits else S set_bits)
    0%nat.
End ToffoliCode.

Section MaskedToffoliCode.
Variable N : nat.
Local Open Scope Z_scope.

(** [create_masked_toffoli_internal<N, Set, Mask>]; [Set] is [Set_] here.
    The source instantiates it with [Set = num_bits_set<N>(Mask)] only, and
    then [content[set_bits++]] is written inside the array
    ([content_loop] below). *)
Definition create_masked_toffoli_internal (Set_ : nat) (Mask : Z)
    (target_register : quantum_reg) (target_bit offset : Z) : quantum_reg :=
  let '(content, _) :=
    for_range 0 N
      (fun j (st : list Z * nat) =>
         let '(content, set_bits) := st in
         if Z.land Mask (wrap (Z.shiftl 1 (Z.of_nat j))) =? 0 then (content, set_bits)
         else (<[set_bits := wrap (Z.of_nat j + offset)]> content, S set_bits))
      (replicate Set_ 0, 0%nat) in
  create_nbit_toffoli Set_ target_register target_bit content.

Definition create_masked_toffoli_base (Mask : Z)
    (target_register : quantum_reg) (target_bit offset : Z) : quantum_reg :=
  create_masked_toffoli_internal (num_bits_set N Mask) Mask target_register target_bit offset.

Definition create_masked_toffoli (Mask : Z)
    (target_register : quantum_reg) (target_bit offset : Z) : quantum_reg :=
  if Mask =? 0 then target_register
  else create_masked_toffoli_base Mask target_register target_bit offset.

(** [ToffoliSequenceGenerator<N, 0, ..., (1 << N) - 1>::callbacks] *)
Definition toffoli_callbacks : list (quantum_reg → Z → Z → quantum_reg) :=
  map (fun Mask => create_masked_toffoli (Z.of_nat Mask))
      (seq 0 (Z.to_nat (wrap (Z.shiftl 1 (Z.of_nat N))))).

(** [create_masked_toffoli_runtime<N>]: [callbacks[mask]]; the table has no
    entry for a mask of more than [N] bits, and [None] stands for that read. *)
Definition create_masked_toffoli_runtime (mask : Z)
    (target_register : quantum_reg) (target_bit offset : Z) : option quantum_reg :=
  match toffoli_callbacks !! Z.to_nat mask with
  | Some callback => Some (callback target_register target_bit offset)
  | None => None
  end.
End MaskedToffoliCode.

(** ** main.cpp: the oracle *)

Section OracleCode.
Variables N M : nat.
Local Open Scope Z_scope.

(** The two loops of [create_toggle_if_match] that flip the bits which are
    0 in [value]. *)
Definition flip_zero_bits (value : Z) (x : quantum_reg) (offset : Z) : quantum_reg :=
  for_range 0 N
    (fun i x =>
       if Z.land value (wrap (Z.shiftl 1 (Z.of_nat i))) =? 0
       then x ++ [quantum_sigma_x (wrap (offset + Z.of_nat i))] else x)
    x.

Definition create_toggle_if_match (value : Z) (x : quantum_reg) (target offset : Z)
    : option quantum_reg :=
  let x := flip_zero_bits value x offset in
  match create_masked_toffoli_runtime N (wrap (wrap (Z.shiftl 1 (Z.of_nat N)) - 1)) x target offset with
  | Some x => Some (flip_zero_bits value x offset)
  | None => None
  end.

Definition bitflip_oracle (x_y : quantum_reg) (function : Z → Z) : option quantum_reg :=
  let num_posibilities := wrap (Z.shiftl 1 (Z.of_nat N)) in
  for_range 0 (Z.to_nat num_posibilities)
    (fun i x_y =>
       let result := wrap (function (Z.of_nat i)) in
       for_range 0 M
         (fun j x_y =>
            if Z.land result (wrap (Z.shiftl 1 (Z.of_nat j))) =? 0 then x_y
            else match x_y with
                 | Some x_y =>
                     create_toggle_if_match (Z.of_nat i) x_y (wrap (Z.of_nat j + Z.of_nat N)) 0
                 | None => None
                 end)
         x_y)
    (Some x_y).

Definition bind_to_bitflip_oracle (callback : Z → Z) : quantum_reg → option quantum_reg :=
  fun x_y => bitflip_oracle x_y callback.
End OracleCode.

(** ** simon.hpp *)

(** [run_simon<N, M>].  The register starts with no gate
    ([quantum_new_qureg]); [measured] is what [quantum_measure] returns.
    The result is the register as [quantum_delete_qureg] receives it and the
    pair of the two measured registers. *)
Definition run_simon (N M : nat) (uf_callback : quantum_reg → option quantum_reg) (measured : Z)
    : option (quantum_reg * (Z * Z)) :=
  let reg : quantum_reg := [] in
  let reg := for_range 0 N (fun i reg => reg ++ [quantum_hadamard (Z.of_nat i)]) reg in
  match uf_callback reg with
  | Some reg =>
      let reg := for_range 0 N (fun i reg => reg ++ [quantum_hadamard (Z.of_nat i)]) reg in
      let result := wrap measured in
      let result_x := Z.land result (wrap (wrap (Z.shiftl 1 (Z.of_nat N)) - 1)) in
      let result_y := Z.shiftr result (Z.of_nat N) in
      Some (reg, (result_x, result_y))
  | None => None
  end.

(** ** main.cpp: test_simon *)

(** The function of [test_simon]. *)
Definition test_simon_function (input : Z) : Z :=
  (if input =? 0 then 5 else if input =? 1 then 2 else if input =? 2 then 0
   else if input =? 3 then 6 else if input =? 4 then 0 else if input =? 5 then 6
   else if input =? 6 then 5 else if input =? 7 then 2 else 0)%Z.

(** The check that [test_simon] makes on a measurement: [s * x (mod 2)] for
    the secret string [s = 6], over 3 bits. *)
Definition test_simon_check (measure_x : Z) : bool :=
  let s := 6%Z in
  let merge := Z.land measure_x s in
  for_range 0 3
    (fun i result =>
       if (Z.land merge (wrap (Z.shiftl 1 (Z.of_nat i))) =? 0)%Z then result else negb result)
    false.

(** ** main.cpp: the tables of run_feistel_tests *)

(** [generate_permuation_map(max, permutations)].  [junk] is what
    [new size_t[max]] holds before the first loop writes it, [rand k] is the
    result of the [k]-th call of [std::rand()].  [std::rand() % max] divides
    by zero when [max] is 0: [None] stands for that. *)
Definition generate_permuation_map (junk : nat → Z) (rand : nat → Z) (max permutations : nat)
    : option (list Z) :=
  let permutation_map :=
    for_range 0 max (fun i m => <[i := Z.of_nat i]> m) (map junk (seq 0 max)) in
  if (max =? 0) && negb (permutations =? 0) then None
  else Some (for_range 0 permutations
               (fun i m =>
                  let x := Z.to_nat (wrap (rand (2 * i)%nat) mod Z.of_nat max)%Z in
                  let y := Z.to_nat (wrap (rand (2 * i + 1)%nat) mod Z.of_nat max)%Z in
                  swap_at m x y)
               permutation_map).

(** The round function of [run_feistel_tests]:
    [feistel_permutation_map[(input ^ key)]]. *)
Definition pearson_round (feistel_permutation_map : list Z) (input key : Z) : Z :=
  feistel_permutation_map !!! Z.to_nat (Z.lxor input key).

(* ================================================================= *)
(** * Part II: the vocabulary of the specification *)
(* ================================================================= *)

(** ** Feistel blocks *)

(** A value that fits in one half of the block. *)
Definition fits (Bits : nat) (x : Z) : Prop := (0 ≤ x < 2 ^ Z.of_nat Bits)%Z.

Definition fits_pair (Bits : nat) (st : Z * Z) : Prop :=
  fits Bits (fst st) ∧ fits Bits (snd st).

(** The mask [run_f] selects with the low bit of its input. *)
Definition selected (u alpha beta : Z) : Z := if Z.testbit u 0 then beta else alpha.

(** The hidden string of the probe of a 3-round Feistel network: the
    selector bit set, above it the difference of the first-round values of
    the two masks. *)
Definition hidden_string (f : Z → Z → Z) (k0 alpha beta : Z) : Z :=
  Z.lor (Z.shiftl (Z.lxor (f alpha k0) (f beta k0)) 1) 1.

(** A round function that returns more than one bit to a network of
    1-bit halves. *)
Definition wide_round (r k : Z) : Z :=
  (if k =? 0 then (if r =? 1 then 2 else 0)
   else if k =? 1 then (if r =? 1 then 1 else 0)
   else 0)%Z.

(** The round function of [run_feistel_classic_test] in main.cpp. *)
Definition test_round_function (input key : Z) : Z :=
  let left_part := Z.land input 3 in
  let right_part := Z.shiftr (Z.land input 3) 2 in
  let right_part := Z.lxor right_part key in
  Z.lor (Z.shiftl left_part 2) right_part.

(** ** Linear algebra over GF(2) *)

(** [f 0 xor ... xor f (n-1)] *)
Fixpoint xsum (n : nat) (f : nat → bool) : bool :=
  match n with
  | 0 => false
  | S m => xorb (xsum m f) (f m)
  end.

(** Column [col] of the combination of the first [n] rows of [m] selected by [c]. *)
Definition lincomb (n : nat) (c : nat → bool) (m : list bvec) (col : nat) : bool :=
  xsum n (fun i => c i && cell m i col).

Definition zero_on (n : nat) (c : nat → bool) : Prop := ∀ i, i < n → c i = false.

(** The first [n] rows of [m], read on their first [W] columns, are linearly
    independent: only the empty selection combines them to zero. *)
Definition lin_indep (W n : nat) (m : list bvec) : Prop :=
  ∀ c, (∀ col, col < W → lincomb n c m col = false) → zero_on n c.

(** The GF(2) dot product of two vectors of width [W]. *)
Definition dot (W : nat) (a x : bvec) : bool := xsum W (fun j => (a !!! j) && (x !!! j)).

(** The selection [c] of the first [n] rows of [m] adds up to the vector [r]. *)
Definition combines (W n : nat) (c : nat → bool) (m : list bvec) (r : bvec) : Prop :=
  ∀ col, col < W → lincomb n c m col = r !!! col.

(** The target bit that the selection [c] of the first [n] equations implies. *)
Definition implied_target (n : nat) (c : nat → bool) (t : list bool) : bool :=
  xsum n (fun i => c i && (t !!! i)).

(** The vector [x] solves the first [n] equations. *)
Definition sat (W n : nat) (c : list bvec) (t : list bool) (x : bvec) : Prop :=
  ∀ r, r < n → dot W (c !!! r) x = t !!! r.

(** Every combination of the rows of [m'] is one of the rows of [m], and a
    non-empty selection stays non-empty. *)
Definition refines (Wd n : nat) (m m' : list bvec) : Prop :=
  ∀ c, ∃ c', (∀ col, col < Wd → lincomb n c' m col = lincomb n c m' col) ∧
             (zero_on n c' → zero_on n c).

Definition row_equiv (Wd n : nat) (m m' : list bvec) : Prop :=
  refines Wd n m m' ∧ refines Wd n m' m.

(** The transposition of [i] and [j]. *)
Definition transp (i j r : nat) : nat :=
  if decide (r = i) then j else if decide (r = j) then i else r.

(** Row [k] replaced by its sum with row [p]. *)
Definition add_row (Wd : nat) (m : list bvec) (k p : nat) : list bvec :=
  <[k := xor_vectors Wd (m !!! k) (m !!! p)]> m.

(** ** The loops of the solver *)

(** A matrix of [n] rows of width [Wd]. *)
Definition mat_wf (Wd n : nat) (m : list bvec) : Prop :=
  length m = n ∧ ∀ r, r < n → length (m !!! r) = Wd.

(** The state of the outer loop of [independent] before column [j]: the
    rows above [ro] are pivot rows, each with its pivot column, and the rows
    from [ro] on are zero in the columns already treated. *)
Record echelon (Wd n j : nat) (cc : list bvec) (ro : nat) : Prop := {
  ech_wf : mat_wf Wd n cc;
  ech_ro : ro ≤ j ∧ ro ≤ n;
  ech_zero : ∀ k col, ro ≤ k < n → col < j → cell cc k col = false;
  ech_pivot : ∀ p, p < ro →
    ∃ pc, p ≤ pc < j ∧ cell cc p pc = true ∧
          (∀ col, col < pc → cell cc p col = false) ∧
          (∀ q col, p < q < n → col ≤ pc → cell cc q col = false)
}.

(** What the two vectors of a solver satisfy whatever was added to it. *)
Record solver_wf (s : MatrixSolver) : Prop := {
  wf_targets : length (targets s) = length (contents s);
  wf_rank : independent_rows s ≤ length (contents s)
}.

(** The invariant of the solver. *)
Record solver_inv (W : nat) (s : MatrixSolver) : Prop := {
  inv_wf : solver_wf s;
  inv_rank : independent_rows s ≤ W;
  inv_indep : lin_indep W (independent_rows s) (contents s)
}.

(** The solver after a sequence of calls of [addRow], each exception caught. *)
Definition addRows (W : nat) (s : MatrixSolver) (eqs : list (bvec * bool)) : MatrixSolver :=
  fold_left (fun s e => snd (addRow W s (fst e) (snd e))) eqs s.

(** The part of the solver's vectors that [solve] works on: [n] rows of
    width [W] and their targets. *)
Definition gauss_wf (W n : nat) (c : list bvec) (t : list bool) : Prop :=
  n ≤ length c ∧ n ≤ length t ∧ ∀ r, r < n → length (c !!! r) = W.

(** Zeros below the diagonal in the columns left of [i]. *)
Definition lower_zero (n i : nat) (c : list bvec) : Prop :=
  ∀ col r, col < i → col < r < n → cell c r col = false.

(** The body of the second inner loop of [gaussianEliminate]. *)
Definition gauss_below (W i : nat) (j : nat) (st : list bvec * list bool) : list bvec * list bool :=
  let '(c, t) := st in
  if cell c j i
  then (<[j := xor_vectors W (c !!! j) (c !!! i)]> c, <[j := xorb (t !!! i) (t !!! j)]> t)
  else (c, t).

(** The state of the outer loop of [gaussianEliminate] before column [i],
    against the vectors [c0], [t0] it started from. *)
Record gauss_inv (W n i : nat) (c0 : list bvec) (t0 : list bool)
                 (c : list bvec) (t : list bool) : Prop := {
  gi_wf : gauss_wf W n c t;
  gi_equiv : row_equiv W n c0 c;
  gi_lower : lower_zero n i c;
  gi_sat : ∀ x, sat W n c t x → sat W n c0 t0 x
}.

(** One pass of the loop of [backwardSubstitute]. *)
Definition substitute_step (s : MatrixSolver) (j : nat) (result : bvec) : bvec :=
  let index := j - 1 in
  let sub_result :=
    for_range (index + 1) (independent_rows s)
      (fun i sub_result => xorb sub_result ((result !!! i) && cell (contents s) index i))
      false in
  <[index := xorb sub_result (targets s !!! index)]> result.

(** Entry [idx] of [x] is what the loop of [backwardSubstitute] computes for
    it from the entries behind it. *)
Definition substituted (n : nat) (c : list bvec) (t : list bool) (x : bvec) (idx : nat) : Prop :=
  x !!! idx =
    xorb (xsum n (fun i => if decide (idx < i) then (x !!! i) && cell c idx i else false))
         (t !!! idx).

(** The masked encoding of a solution vector, as the loop of [solveEncoded]
    builds it. *)
Definition encode_solution (solution : bvec) : Z :=
  for_range 0 (length solution)
    (fun i result => Z.lor result (wrap (Z.shiftl (Z.b2z (solution !!! i)) (Z.of_nat (i + 1)))))
    1%Z.

(** The three equations of the scenario with [Bits = 3], decoded from
    [0b0110], [0b0101] and [0b1001]. *)
Definition scenario_equations : list (bvec * bool) :=
  [([true; true; false], false); ([false; true; false], true); ([false; false; true], true)].

(** ** Runs of the controller *)

(** The first [fuel] results of the sampler. *)
Definition draws (sampler : nat → Z) (fuel : nat) : list Z := map sampler (seq 0 fuel).

(** The solver after the samples were added, each exception caught. *)
Definition feed_solver (W : nat) (s : MatrixSolver) (samples : list Z) : MatrixSolver :=
  fold_left (fun s j => snd (addRow_encoded W s j)) samples s.

(** How many of the samples [addRow] accepts without the
    inconsistent-equation error. *)
Fixpoint accepted (W : nat) (s : MatrixSolver) (samples : list Z) : nat :=
  match samples with
  | [] => 0
  | j :: rest =>
      match addRow_encoded W s j with
      | (Ok _, s') => S (accepted W s' rest)
      | (Throw _, s') => accepted W s' rest
      end
  end.

(** ** Halves of a block *)

(** The block with its two halves exchanged. *)
Definition swap_halves (Bits : nat) (x : Z) : Z :=
  (x mod 2 ^ Z.of_nat Bits * 2 ^ Z.of_nat Bits + x / 2 ^ Z.of_nat Bits)%Z.

(** The block [r | l << Bits] of two halves. *)
Definition join_halves (Bits : nat) (st : Z * Z) : Z :=
  (snd st + fst st * 2 ^ Z.of_nat Bits)%Z.

(** The round function cut down to half-blocks: 0 elsewhere. *)
Definition on_half_blocks (Bits : nat) (f : Z → Z → Z) (r k : Z) : Z :=
  if ((0 <=? r) && (r <? 2 ^ Z.of_nat Bits))%Z then f r k else 0%Z.

(** The block that [run_f] sends to the oracle. *)
Definition run_f_query (Bits : nat) (u alpha beta : Z) : Z :=
  (selected u alpha beta + Z.shiftr u 1 * 2 ^ Z.of_nat Bits)%Z.

(** ** Outcomes of addRow *)

(** Every stored row has [W] entries. *)
Definition rows_width (W : nat) (s : MatrixSolver) : Prop :=
  Forall (fun r : bvec => length r = W) (contents s).

(** The outcome of the [k]-th call of [addRow] in the sequence [eqs], from a
    new solver. *)
Definition outcome (W : nat) (eqs : list (bvec * bool)) (k : nat) : res unit :=
  match eqs !! k with
  | Some e => fst (addRow W (addRows W new_solver (take k eqs)) (fst e) (snd e))
  | None => Ok ()
  end.

Definition is_ok {A : Type} (r : res A) : bool :=
  match r with Ok _ => true | Throw _ => false end.

(** ** The masked encoding *)

(** The equation that [addRow(size_t)] reads from the masked encoding. *)
Definition decode_row (W : nat) (encoded : Z) : bvec :=
  map (fun i => negb (Z.land encoded (Z.shiftl 1 (Z.of_nat (i + 1))) =? 0)%Z) (seq 0 W).

Definition decode_target (encoded : Z) : bool := negb (Z.land encoded 1 =? 0)%Z.

Definition decode_equation (W : nat) (encoded : Z) : bvec * bool :=
  (decode_row W encoded, decode_target encoded).

(** The GF(2) dot product of the low [n] bits of two strings. *)
Definition bits_dot (n : nat) (y s : Z) : bool :=
  xsum n (fun i => Z.testbit y (Z.of_nat i) && Z.testbit s (Z.of_nat i)).

(** What the solver of a run satisfies when every sample so far had an even
    number of bits in common with the odd string [s]. *)
Record detect_inv (W : nat) (s : Z) (solver : MatrixSolver) : Prop := {
  di_inv : solver_inv W solver;
  di_width : rows_width W solver;
  di_sat : sat W (independent_rows solver) (contents solver) (targets solver) (decode_row W s)
}.

(** ** Basis states *)

(** What a gate does to a basis state of the register, the state written as
    the integer whose bit [i] is qubit [i]: [quantum_sigma_x] negates a
    qubit, [quantum_unbounded_toffoli] negates the target when all the
    controls are 1.  (A Hadamard gate sends no basis state to a basis state.) *)
Definition gate_on_basis (g : gate) (st : Z) : option Z :=
  match g with
  | quantum_hadamard _ => None
  | quantum_sigma_x target => Some (Z.lxor st (2 ^ target))
  | quantum_unbounded_toffoli controlling controls target =>
      Some (if forallb (Z.testbit st) (take controlling controls)
            then Z.lxor st (2 ^ target) else st)
  end.

Fixpoint run_on_basis (gates : list gate) (st : Z) : option Z :=
  match gates with
  | [] => Some st
  | g :: gates =>
      match gate_on_basis g st with
      | Some st => run_on_basis gates st
      | None => None
      end
  end.

(** The bits [offset, offset + n) of [st] are the low [n] bits of [value]. *)
Definition matches (n : nat) (st value offset : Z) : bool :=
  forallb (fun i => Bool.eqb (Z.testbit st (offset + Z.of_nat i)) (Z.testbit value (Z.of_nat i)))
          (seq 0 n).

(** The positions of the bits of [mask] that are set, among the low [n]. *)
Definition set_bits_of (n : nat) (mask : Z) : list nat :=
  filter (fun j => Z.testbit mask (Z.of_nat j) = true) (seq 0 n).

(** Whether the first loop of [create_toggle_if_match] negates qubit [p]. *)
Definition flipped (n : nat) (value offset p : Z) : bool :=
  (offset <=? p)%Z && (p <? offset + Z.of_nat n)%Z && negb (Z.testbit value (p - offset)).

(** The gates of [create_toggle_if_match<N>(value, x, target, offset)]. *)
Definition toggle_gates (N : nat) (value target offset : Z) : list gate :=
  flip_zero_bits N value [] offset
    ++ [quantum_unbounded_toffoli N (map (fun j => wrap (Z.of_nat j + offset)) (seq 0 N)) target]
    ++ flip_zero_bits N value [] offset.

(** ** Tables *)

(** A table in which every number below [max] stands once. *)
Definition permutation_table (max : nat) (m : list Z) : Prop :=
  m ≡ₚ map Z.of_nat (seq 0 max).

(** ** The [int] shifts of matrix.hpp *)


(** The loop of [solveEncoded] with its [int] shifts. *)
Definition encode_solution_int (solution : bvec) : option Z :=
  for_range 0 (length solution)
    (fun i (result : option Z) =>
       match result, int_shl (Z.b2z (solution !!! i)) (i + 1) with
       | Some result, Some bit => Some (Z.lor result bit)
       | _, _ => None
       end)
    (Some 1%Z).


(* ================================================================= *)
(** * Part III: proofs *)
(* ================================================================= *)

(** ** Loops *)

Lemma for_range_ge {St} lo hi (body : nat → St → St) init :
  hi ≤ lo → for_range lo hi body init = init.
Proof. intros H. unfold for_range. replace (hi - lo) with 0 by lia. reflexivity. Qed.

Lemma for_range_S {St} lo hi (body : nat → St → St) init :
  lo ≤ hi → for_range lo (S hi) body init = body hi (for_range lo hi body init).
Proof.
  intros H. unfold for_range. replace (S hi - lo) with (S (hi - lo)) by lia.
  rewrite seq_S, fold_left_app. simpl. repeat f_equal. lia.
Qed.

(** The invariant rule of a counting loop. *)
Lemma for_range_inv {St} (P : nat → St → Prop) lo hi (body : nat → St → St) init :
  lo ≤ hi → P lo init →
  (∀ i st, lo ≤ i < hi → P i st → P (S i) (body i st)) →
  P hi (for_range lo hi body init).
Proof.
  intros Hle H0 Hstep. induction hi as [|hi IH].
  - assert (lo = 0) by lia. subst. exact H0.
  - destruct (decide (lo = S hi)) as [->|Hne].
    + rewrite for_range_ge by lia. exact H0.
    + rewrite for_range_S by lia. apply Hstep; [lia|].
      apply IH; [lia|]. intros i st Hi. apply Hstep. lia.
Qed.

Lemma for_down_0 {St} lo (body : nat → St → St) init :
  for_down lo lo body init = init.
Proof. unfold for_down. rewrite Nat.sub_diag. reflexivity. Qed.

Lemma for_down_S {St} hi lo (body : nat → St → St) init :
  lo ≤ hi → for_down (S hi) lo body init = for_down hi lo body (body (S hi) init).
Proof.
  intros H. unfold for_down. replace (S hi - lo) with (S (hi - lo)) by lia.
  rewrite seq_S, rev_app_distr. simpl. repeat f_equal. lia.
Qed.

Lemma find_seq_Some p lo n k :
  find p (seq lo n) = Some k →
  lo ≤ k < lo + n ∧ p k = true ∧ ∀ k', lo ≤ k' < k → p k' = false.
Proof.
  revert lo. induction n as [|n IH]; intros lo; simpl; [discriminate|].
  destruct (p lo) eqn:E.
  - intros [= <-]. repeat split; try lia; auto.
  - intros Hf. destruct (IH _ Hf) as (H1 & H2 & H3).
    split; [lia|]. split; [assumption|]. intros k' Hk'.
    destruct (decide (k' = lo)) as [->|]; [assumption|]. apply H3. lia.
Qed.

Lemma find_seq_None p lo n :
  find p (seq lo n) = None → ∀ k, lo ≤ k < lo + n → p k = false.
Proof.
  revert lo. induction n as [|n IH]; intros lo; simpl; [intros; lia|].
  destruct (p lo) eqn:E; [discriminate|].
  intros Hf k Hk. destruct (decide (k = lo)) as [->|]; [assumption|].
  apply (IH _ Hf). lia.
Qed.

Lemma find_first_Some lo hi p k :
  find_first lo hi p = Some k →
  lo ≤ k < hi ∧ p k = true ∧ ∀ k', lo ≤ k' < k → p k' = false.
Proof.
  intros Hf. apply find_seq_Some in Hf. destruct Hf as (H1 & H2 & H3).
  repeat split; auto; lia.
Qed.

Lemma find_first_None lo hi p :
  find_first lo hi p = None → ∀ k, lo ≤ k < hi → p k = false.
Proof. intros Hf k Hk. apply (find_seq_None _ _ _ Hf). lia. Qed.

(** ** Arrays *)

Lemma swap_at_length {A} `{Inhabited A} (m : list A) i j :
  length (swap_at m i j) = length m.
Proof. unfold swap_at. rewrite !length_insert. reflexivity. Qed.

Lemma swap_at_lookup {A} `{Inhabited A} (m : list A) i j k :
  i < length m → j < length m →
  swap_at m i j !!! k =
    if decide (k = j) then m !!! i else if decide (k = i) then m !!! j else m !!! k.
Proof.
  intros Hi Hj. unfold swap_at.
  destruct (decide (k = j)) as [->|Hkj].
  - rewrite list_lookup_total_insert_eq by (rewrite length_insert; lia). reflexivity.
  - rewrite list_lookup_total_insert_ne by auto.
    destruct (decide (k = i)) as [->|Hki].
    + rewrite list_lookup_total_insert_eq by lia. reflexivity.
    + rewrite list_lookup_total_insert_ne by auto. reflexivity.
Qed.

Lemma xor_vectors_length W dest src : length (xor_vectors W dest src) = length dest.
Proof.
  unfold xor_vectors.
  apply (for_range_inv (fun _ d => length d = length dest)); [lia|reflexivity|].
  intros i st _ Hst. rewrite length_insert. exact Hst.
Qed.

Lemma xor_vectors_lookup W dest src i :
  length dest = W →
  xor_vectors W dest src !!! i =
    if decide (i < W) then xorb (dest !!! i) (src !!! i) else dest !!! i.
Proof.
  intros Hlen. unfold xor_vectors.
  pose (P := fun (n : nat) (d : list bool) =>
          length d = W ∧
          ∀ i, d !!! i = if decide (i < n) then xorb (dest !!! i) (src !!! i) else dest !!! i).
  assert (HP : P W (for_range 0 W (fun i d => <[i := xorb (d !!! i) (src !!! i)]> d) dest)).
  { apply (for_range_inv P); [lia| |].
    - split; [assumption|]. intros k. destruct (decide (k < 0)); [lia|reflexivity].
    - intros n d Hn [Hd Hk]. split; [rewrite length_insert; assumption|].
      intros k. destruct (decide (k = n)) as [->|Hne].
      + rewrite list_lookup_total_insert_eq by lia. rewrite Hk.
        destruct (decide (n < n)); [lia|]. destruct (decide (n < S n)); [reflexivity|lia].
      + rewrite list_lookup_total_insert_ne by auto. rewrite Hk.
        destruct (decide (k < n)), (decide (k < S n)); try lia; reflexivity. }
  apply HP.
Qed.

Lemma zero_vector_true W src : zero_vector W src = true ↔ ∀ i, i < W → src !!! i = false.
Proof.
  unfold zero_vector. rewrite forallb_forall. split.
  - intros H i Hi. specialize (H i). rewrite in_seq in H.
    apply negb_true_iff, H. lia.
  - intros H i Hi. apply in_seq in Hi. apply negb_true_iff, H. lia.
Qed.

Lemma one_vector_true W src :
  one_vector W src = true ↔ (∀ i, i < W - 1 → src !!! i = false) ∧ src !!! (W - 1) = true.
Proof.
  unfold one_vector. rewrite andb_true_iff, forallb_forall. split.
  - intros [H Hl]. split; [|exact Hl]. intros i Hi. specialize (H i). rewrite in_seq in H.
    apply negb_true_iff, H. lia.
  - intros [H Hl]. split; [|exact Hl]. intros i Hi. apply in_seq in Hi.
    apply negb_true_iff, H. lia.
Qed.

(** ** feistel.hpp *)

Section FeistelFacts.
Variable Bits : nat.
Local Open Scope Z_scope.

Lemma pow2_half_pos : 0 < 2 ^ Z.of_nat Bits.
Proof. apply Z.pow_pos_nonneg; lia. Qed.

Lemma pow2_half_le : (2 * Bits ≤ 64)%nat → 2 ^ Z.of_nat Bits * 2 ^ Z.of_nat Bits ≤ 2 ^ 64.
Proof.
  intros H. rewrite <- Z.pow_add_r by lia.
  apply Z.pow_le_mono_r; lia.
Qed.

Lemma wrap_small x : 0 ≤ x < 2 ^ 64 → wrap x = x.
Proof. intros H. unfold wrap. apply Z.mod_small. exact H. Qed.

Lemma wrap_range x : 0 ≤ wrap x < 2 ^ 64.
Proof. unfold wrap. apply Z.mod_pos_bound. reflexivity. Qed.

Lemma r_mask_ones : (2 * Bits ≤ 64)%nat → r_mask Bits = Z.ones (Z.of_nat Bits).
Proof.
  intros H. unfold r_mask. rewrite Z.shiftl_1_l, Z.ones_equiv.
  pose proof pow2_half_pos. pose proof (pow2_half_le H).
  rewrite (wrap_small (2 ^ _)) by nia.
  rewrite wrap_small by nia. lia.
Qed.

Lemma l_mask_ones :
  (2 * Bits ≤ 64)%nat → l_mask Bits = Z.shiftl (Z.ones (Z.of_nat Bits)) (Z.of_nat Bits).
Proof.
  intros H. unfold l_mask. rewrite (r_mask_ones H).
  apply wrap_small. rewrite Z.shiftl_mul_pow2, Z.ones_equiv by lia.
  pose proof pow2_half_pos. pose proof (pow2_half_le H). nia.
Qed.

Lemma fits_testbit_high r n : fits Bits r → Z.of_nat Bits ≤ n → Z.testbit r n = false.
Proof.
  intros Hr Hn. rewrite <- (Z.mod_small r (2 ^ Z.of_nat Bits)) by exact Hr.
  apply Z.mod_pow2_bits_high. lia.
Qed.

Lemma fits_lxor a b : fits Bits a → fits Bits b → fits Bits (Z.lxor a b).
Proof.
  intros Ha Hb. unfold fits.
  assert (E : Z.lxor a b mod 2 ^ Z.of_nat Bits = Z.lxor a b).
  { apply Z.bits_inj'. intros n Hn.
    destruct (Z.lt_ge_cases n (Z.of_nat Bits)).
    - apply Z.mod_pow2_bits_low. lia.
    - rewrite Z.mod_pow2_bits_high by lia.
      rewrite Z.lxor_spec, !fits_testbit_high by auto. reflexivity. }
  rewrite <- E. apply Z.mod_pos_bound, pow2_half_pos.
Qed.

Lemma halves_disjoint l r : fits Bits r → Z.land r (Z.shiftl l (Z.of_nat Bits)) = 0.
Proof.
  intros Hr. apply Z.bits_inj'. intros n Hn.
  rewrite Z.land_spec, Z.bits_0.
  destruct (Z.lt_ge_cases n (Z.of_nat Bits)).
  - rewrite Z.shiftl_spec_low by lia. apply andb_false_r.
  - rewrite (fits_testbit_high r n) by auto. reflexivity.
Qed.

(** [r | (l << Bits)] is the concatenation of the halves. *)
Lemma join_add l r :
  (2 * Bits ≤ 64)%nat → fits Bits l → fits Bits r →
  Z.lor r (wrap (Z.shiftl l (Z.of_nat Bits))) = r + l * 2 ^ Z.of_nat Bits.
Proof.
  intros H Hl Hr. pose proof (pow2_half_le H). unfold fits in *.
  rewrite wrap_small by (rewrite Z.shiftl_mul_pow2 by lia; nia).
  rewrite <- Z.lxor_lor by (apply halves_disjoint; auto).
  rewrite <- Z.add_nocarry_lxor by (apply halves_disjoint; auto).
  rewrite Z.shiftl_mul_pow2 by lia. reflexivity.
Qed.

Lemma split_r l r :
  (2 * Bits ≤ 64)%nat → fits Bits l → fits Bits r →
  Z.land (r + l * 2 ^ Z.of_nat Bits) (r_mask Bits) = r.
Proof.
  intros H Hl Hr. rewrite (r_mask_ones H), Z.land_ones by lia.
  rewrite Z.mod_add by (pose proof pow2_half_pos; lia).
  apply Z.mod_small, Hr.
Qed.

Lemma split_l l r :
  (2 * Bits ≤ 64)%nat → fits Bits l → fits Bits r →
  Z.shiftr (Z.land (r + l * 2 ^ Z.of_nat Bits) (l_mask Bits)) (Z.of_nat Bits) = l.
Proof.
  intros H Hl Hr. rewrite (l_mask_ones H), Z.shiftr_land.
  rewrite Z.shiftr_shiftl_l, Z.sub_diag, Z.shiftl_0_r by lia.
  rewrite Z.land_ones, Z.shiftr_div_pow2 by lia.
  rewrite Z.div_add by (pose proof pow2_half_pos; lia).
  rewrite (Z.div_small r) by exact Hr.
  apply Z.mod_small, Hl.
Qed.
End FeistelFacts.

Local Open Scope Z_scope.

Lemma decrypt_encrypt_round f st key :
  decrypt_round f (encrypt_round f st key) key = st.
Proof.
  destruct st as [l r]. unfold encrypt_round, decrypt_round.
  rewrite Z.lxor_assoc, Z.lxor_nilpotent, Z.lxor_0_r. reflexivity.
Qed.

(** The decryption loop undoes the encryption loop on the pair of halves,
    whatever the round function returns. *)
Lemma decrypt_encrypt_rounds f keys st :
  fold_left (decrypt_round f) (rev keys) (fold_left (encrypt_round f) keys st) = st.
Proof.
  revert st. induction keys as [|k keys IH]; intros st; simpl.
  - reflexivity.
  - rewrite fold_left_app. simpl. rewrite IH. apply decrypt_encrypt_round.
Qed.

Lemma wrap_fits Bits x : (2 * Bits ≤ 64)%nat → fits Bits x → wrap x = x.
Proof.
  intros H Hx. apply wrap_small. pose proof (pow2_half_le Bits H).
  pose proof (pow2_half_pos Bits). unfold fits in Hx. nia.
Qed.

Lemma encrypt_rounds_fit Bits f keys st :
  (2 * Bits ≤ 64)%nat →
  (∀ r k, In k keys → fits Bits (f r k)) → fits_pair Bits st →
  fits_pair Bits (fold_left (encrypt_round f) keys st).
Proof.
  intros HB. revert st. induction keys as [|k keys IH]; intros [l r] Hf [Hl Hr]; simpl in *.
  - split; assumption.
  - apply IH; [intros; apply Hf; auto|]. split; simpl; [assumption|].
    apply fits_lxor; [assumption|].
    rewrite (wrap_fits Bits) by auto. apply Hf. auto.
Qed.

Lemma block_halves Bits x :
  0 ≤ x < 2 ^ (2 * Z.of_nat Bits) →
  fits Bits (x / 2 ^ Z.of_nat Bits) ∧ fits Bits (x mod 2 ^ Z.of_nat Bits) ∧
  x = x mod 2 ^ Z.of_nat Bits + x / 2 ^ Z.of_nat Bits * 2 ^ Z.of_nat Bits.
Proof.
  intros Hx. pose proof (pow2_half_pos Bits) as Hp.
  replace (2 * Z.of_nat Bits) with (Z.of_nat Bits + Z.of_nat Bits) in Hx by lia.
  rewrite Z.pow_add_r in Hx by lia.
  split; [|split].
  - split; [apply Z.div_pos; lia|]. apply Z.div_lt_upper_bound; lia.
  - apply Z.mod_pos_bound. lia.
  - rewrite Z.add_comm, Z.mul_comm. apply Z.div_mod. lia.
Qed.

(** The pair of halves the routines start from, for a block of [2 * Bits] bits. *)
Lemma feistel_split Bits l r :
  (2 * Bits ≤ 64)%nat → fits Bits l → fits Bits r →
  let x := Z.lor r (wrap (Z.shiftl l (Z.of_nat Bits))) in
  Z.shiftr (Z.land x (l_mask Bits)) (Z.of_nat Bits) = l ∧ Z.land x (r_mask Bits) = r.
Proof.
  intros HB Hl Hr x. subst x. rewrite join_add by auto.
  split; [apply split_l | apply split_r]; auto.
Qed.

(** C2, as amended. [run_feistel_decrypt] undoes [run_feistel_encrypt] for
    every key sequence, on every block of [2 * Bits] bits that fits a
    [size_t], when the round function returns values of [Bits] bits for the
    keys in use.  Nothing else is asked of the round function. *)
Theorem feistel_decrypt_encrypt_block (Bits : nat) (f : Z → Z → Z) (keys : list Z) (x : Z) :
  (2 * Bits ≤ 64)%nat →
  (∀ r k, In k keys → 0 ≤ f r k < 2 ^ Z.of_nat Bits) →
  0 ≤ x < 2 ^ (2 * Z.of_nat Bits) →
  run_feistel_decrypt Bits f (run_feistel_encrypt Bits f x keys) keys = x.
Proof.
  intros HB Hf Hx.
  destruct (block_halves Bits x Hx) as (Hl & Hr & Ex).
  unfold run_feistel_encrypt.
  rewrite Ex at 1 2. rewrite split_l, split_r by auto.
  pose proof (encrypt_rounds_fit Bits f keys (_, _) HB Hf (conj Hl Hr)) as Hfit.
  pose proof (decrypt_encrypt_rounds f keys (x / 2 ^ Z.of_nat Bits, x mod 2 ^ Z.of_nat Bits)) as Hinv.
  destruct (fold_left (encrypt_round f) keys _) as [l' r'] eqn:E.
  destruct Hfit as [Hl' Hr']; simpl in Hl', Hr'.
  unfold run_feistel_decrypt.
  destruct (feistel_split Bits l' r' HB Hl' Hr') as [-> ->].
  rewrite Hinv. rewrite join_add by auto. lia.
Qed.

(** The round function of [run_feistel_classic_test] returns 4 bits for the
    keys 1, 2 and 3 that the test uses. *)
Lemma test_round_function_fits r k :
  In k [1; 2; 3] → 0 ≤ test_round_function r k < 2 ^ Z.of_nat 4.
Proof.
  intros Hk. unfold test_round_function.
  assert (Hr : 0 ≤ Z.land r 3 < 4).
  { change 3 with (Z.ones 2). rewrite Z.land_ones by lia. apply Z.mod_pos_bound. lia. }
  assert (Er : Z.land r 3 = 0 ∨ Z.land r 3 = 1 ∨ Z.land r 3 = 2 ∨ Z.land r 3 = 3) by lia.
  simpl in Hk.
  destruct Er as [-> | [-> | [-> | ->]]];
    destruct Hk as [<- | [<- | [<- | []]]]; vm_compute; split; congruence.
Qed.

(** The run of [run_feistel_classic_test] on the input 201. *)
Lemma feistel_decrypt_encrypt_block_witness :
  run_feistel_decrypt 4 test_round_function
    (run_feistel_encrypt 4 test_round_function 201 [1; 2; 3]) [1; 2; 3] = 201.
Proof.
  apply (feistel_decrypt_encrypt_block 4 test_round_function [1; 2; 3] 201).
  - lia.
  - apply test_round_function_fits.
  - vm_compute. split; congruence.
Defined.

(** The test of main.cpp passes on each of its 256 inputs. *)
Example run_feistel_classic_test_passes :
  forallb (fun input =>
             run_feistel_decrypt 4 test_round_function
               (run_feistel_encrypt 4 test_round_function input [1; 2; 3]) [1; 2; 3] =? input)
          (map Z.of_nat (seq 0 256)) = true.
Proof. vm_compute. reflexivity. Qed.

(** C2, the counterexample. With 4-bit halves, a round function that
    returns 16 sends the block 0 to 16, which decrypts to 257; the block
    256, outside the 8 bits of the network, is encrypted as 0 is; and with
    40-bit halves, which do not fit a [size_t] together, the round function
    0 and one key send the block [2^39] to 0 and back to 0. *)
Lemma feistel_wide_round_function_not_inverted :
  run_feistel_decrypt 4 (fun _ _ => 16) (run_feistel_encrypt 4 (fun _ _ => 16) 0 [1]) [1] ≠ 0
  ∧ run_feistel_decrypt 4 (fun _ _ => 0) (run_feistel_encrypt 4 (fun _ _ => 0) 256 []) [] ≠ 256
  ∧ run_feistel_decrypt 40 (fun _ _ => 0) (run_feistel_encrypt 40 (fun _ _ => 0) (2 ^ 39) [0]) [0]
    ≠ 2 ^ 39.
Proof. repeat split; vm_compute; discriminate. Qed.

Lemma land_1_testbit x : (Z.land x 1 =? 0) = negb (Z.testbit x 0).
Proof.
  change 1 with (Z.ones 1). rewrite Z.land_ones by lia.
  change (2 ^ 1) with 2. rewrite <- Z.bit0_mod.
  destruct (Z.testbit x 0); reflexivity.
Qed.

Lemma probe_halves Bits u :
  0 ≤ u < 2 ^ Z.of_nat (Bits + 1) → fits Bits (Z.shiftr u 1).
Proof.
  intros Hu. rewrite Z.shiftr_div_pow2 by lia. change (2 ^ 1) with 2.
  rewrite Nat2Z.inj_add, Z.pow_add_r in Hu by lia. change (2 ^ Z.of_nat 1) with 2 in Hu.
  split; [apply Z.div_pos; lia|]. apply Z.div_lt_upper_bound; lia.
Qed.

(** On a 3-round Feistel oracle whose round function returns half-blocks,
    [run_f] is the second round function applied to [a xor F(mask, k0)]. *)
Lemma run_f_feistel3 Bits f k0 k1 k2 alpha beta u :
  (2 * Bits ≤ 64)%nat → (∀ r k, In k [k0; k1; k2] → fits Bits (f r k)) →
  fits Bits alpha → fits Bits beta → 0 ≤ u < 2 ^ Z.of_nat (Bits + 1) →
  run_f Bits u (make_feistel_encrypt Bits f [k0; k1; k2]) alpha beta =
  f (Z.lxor (Z.shiftr u 1) (f (selected u alpha beta) k0)) k1.
Proof.
  intros HB Hf Ha Hb Hu.
  assert (Hf0 : ∀ r, fits Bits (f r k0)) by (intros; apply Hf; simpl; auto).
  assert (Hf1 : ∀ r, fits Bits (f r k1)) by (intros; apply Hf; simpl; auto).
  assert (Hf2 : ∀ r, fits Bits (f r k2)) by (intros; apply Hf; simpl; auto).
  pose proof (probe_halves Bits u Hu) as Hhi.
  unfold run_f. rewrite land_1_testbit.
  replace (if negb (Z.testbit u 0) then alpha else beta) with (selected u alpha beta)
    by (unfold selected; destruct (Z.testbit u 0); reflexivity).
  assert (Hm : fits Bits (selected u alpha beta))
    by (unfold selected; destruct (Z.testbit u 0); assumption).
  set (mask := selected u alpha beta) in *. set (a := Z.shiftr u 1) in *.
  unfold run_f_w, make_feistel_encrypt, run_feistel_encrypt.
  rewrite (Z.lor_comm (wrap _) mask).
  destruct (feistel_split Bits a mask HB Hhi Hm) as [-> ->].
  simpl. rewrite !(wrap_fits Bits (f _ _)) by auto.
  set (r1 := Z.lxor a (f mask k0)).
  set (r2 := Z.lxor mask (f r1 k1)).
  set (r3 := Z.lxor r1 (f r2 k2)).
  assert (H1 : fits Bits r1) by (apply fits_lxor; auto).
  assert (H2 : fits Bits r2) by (apply fits_lxor; auto).
  assert (H3 : fits Bits r3) by (apply fits_lxor; auto).
  fold (r_mask Bits).
  rewrite join_add by auto.
  pose proof (pow2_half_le Bits HB). pose proof (pow2_half_pos Bits).
  rewrite wrap_small by (unfold fits in *; nia).
  rewrite (r_mask_ones Bits HB), Z.land_ones, Z.shiftr_div_pow2 by lia.
  rewrite Z.div_add, (Z.div_small r3), Z.add_0_l by (try apply H3; lia).
  rewrite Z.mod_small by apply H2.
  unfold r2. rewrite Z.lxor_comm, <- Z.lxor_assoc, Z.lxor_nilpotent. apply Z.lxor_0_l.
Qed.

Lemma hidden_string_add f k0 alpha beta :
  0 ≤ Z.lxor (f alpha k0) (f beta k0) →
  hidden_string f k0 alpha beta = 2 * Z.lxor (f alpha k0) (f beta k0) + 1.
Proof.
  intros Hz. unfold hidden_string.
  destruct (Z.lxor (f alpha k0) (f beta k0)) as [|p|p]; try reflexivity; lia.
Qed.

Lemma hidden_string_shiftr f k0 alpha beta :
  Z.shiftr (hidden_string f k0 alpha beta) 1 = Z.lxor (f alpha k0) (f beta k0).
Proof.
  unfold hidden_string. rewrite Z.shiftr_lor, Z.shiftr_shiftl_l by lia.
  change (Z.shiftr 1 1) with 0. rewrite Z.lor_0_r. reflexivity.
Qed.

Lemma hidden_string_bit0 f k0 alpha beta :
  Z.testbit (hidden_string f k0 alpha beta) 0 = true.
Proof.
  unfold hidden_string. rewrite Z.lor_spec, Z.shiftl_spec_low by lia. reflexivity.
Qed.

(** The two routines read the low [2 * Bits] bits of their input only. *)
Lemma feistel_masks_input Bits x x' :
  (2 * Bits ≤ 64)%nat →
  (∀ n, 0 ≤ n < 2 * Z.of_nat Bits → Z.testbit x n = Z.testbit x' n) →
  Z.land x (r_mask Bits) = Z.land x' (r_mask Bits) ∧
  Z.land x (l_mask Bits) = Z.land x' (l_mask Bits).
Proof.
  intros HB Hlow. rewrite (r_mask_ones Bits HB), (l_mask_ones Bits HB).
  split; apply Z.bits_inj'; intros n Hn; rewrite !Z.land_spec;
    (destruct (Z.lt_ge_cases n (2 * Z.of_nat Bits)); [rewrite Hlow by lia; reflexivity|]).
  - rewrite Z.ones_spec_high by lia. rewrite !andb_false_r. reflexivity.
  - rewrite Z.shiftl_spec, Z.ones_spec_high by lia. rewrite !andb_false_r. reflexivity.
Qed.




(** Among the strings of [Bits + 1] bits there may be no period when the
    round function returns more than a half-block.  With 1-bit halves and
    the round function [wide_round], which returns 2 under key 0, the probe
    takes the values 0, 0, 1, 0 on the inputs 0, 1, 2, 3: none of the
    strings 1, 2, 3 is a period of it. *)
Lemma run_f_wide_round_no_hidden_xor :
  ¬ ∃ s, 0 < s < 2 ^ Z.of_nat (1 + 1) ∧
         ∀ u, 0 ≤ u < 2 ^ Z.of_nat (1 + 1) →
              run_f 1 u (make_feistel_encrypt 1 wide_round [0; 1; 2]) 0 1 =
              run_f 1 (Z.lxor u s) (make_feistel_encrypt 1 wide_round [0; 1; 2]) 0 1.
Proof.
  intros (s & Hs & H). change (2 ^ Z.of_nat (1 + 1)) with 4 in *.
  assert (Es : s = 1 ∨ s = 2 ∨ s = 3) by lia.
  destruct Es as [-> | [-> | ->]].
  - specialize (H 2 ltac:(lia)). vm_compute in H. discriminate.
  - specialize (H 0 ltac:(lia)). vm_compute in H. discriminate.
  - specialize (H 1 ltac:(lia)). vm_compute in H. discriminate.
Qed.

Local Close Scope Z_scope.

(** ** Linear algebra over GF(2) *)

Lemma xsum_ext n f g : (∀ i, i < n → f i = g i) → xsum n f = xsum n g.
Proof.
  induction n as [|n IH]; intros H; simpl; [reflexivity|].
  rewrite IH, H by (intros; auto with lia). reflexivity.
Qed.

Lemma xsum_false n f : (∀ i, i < n → f i = false) → xsum n f = false.
Proof.
  induction n as [|n IH]; intros H; simpl; [reflexivity|].
  rewrite IH, H by (intros; auto with lia). reflexivity.
Qed.

Lemma xsum_xorb n f g : xsum n (fun i => xorb (f i) (g i)) = xorb (xsum n f) (xsum n g).
Proof.
  induction n as [|n IH]; simpl; [reflexivity|]. rewrite IH.
  destruct (xsum n f), (xsum n g), (f n), (g n); reflexivity.
Qed.

Lemma xsum_delta n k b :
  xsum n (fun i => if decide (i = k) then b else false) = if decide (k < n) then b else false.
Proof.
  induction n as [|n IH]; simpl.
  - destruct (decide (k < 0)); [lia|reflexivity].
  - rewrite IH. destruct (decide (n = k)) as [->|Hne].
    + destruct (decide (k < k)); [lia|]. destruct (decide (k < S k)); [|lia].
      destruct b; reflexivity.
    + destruct (decide (k < n)), (decide (k < S n)); try lia; destruct b; reflexivity.
Qed.

(** Taking one term out of the sum. *)
Lemma xsum_split n f k :
  k < n → xsum n f = xorb (f k) (xsum n (fun i => if decide (i = k) then false else f i)).
Proof.
  intros Hk.
  rewrite (xsum_ext n f (fun i => xorb (if decide (i = k) then f k else false)
                                      (if decide (i = k) then false else f i))).
  - rewrite xsum_xorb, xsum_delta. destruct (decide (k < n)); [reflexivity|lia].
  - intros i _. destruct (decide (i = k)) as [->|]; [apply eq_sym, xorb_false_r|reflexivity].
Qed.

(** Goals about a transposition of row indices, by cases on the index. *)
Ltac transp_cases := unfold transp; repeat case_decide; subst; try lia; try congruence.

Lemma transp_invol i j r : transp i j (transp i j r) = r.
Proof. transp_cases. Qed.

Lemma transp_lt i j r n : i < n → j < n → r < n → transp i j r < n.
Proof. transp_cases. Qed.

Lemma xsum_transp n f i j :
  i < n → j < n → xsum n (fun r => f (transp i j r)) = xsum n f.
Proof.
  intros Hi Hj. destruct (decide (i = j)) as [->|Hne].
  { apply xsum_ext. intros r _. f_equal. transp_cases. }
  rewrite (xsum_split n _ i Hi), (xsum_split n f j Hj).
  rewrite (xsum_split n (fun r => if decide (r = i) then false else f (transp i j r)) j Hj).
  rewrite (xsum_split n (fun r => if decide (r = j) then false else f r) i Hi).
  replace (transp i j i) with j by transp_cases.
  destruct (decide (j = i)); [congruence|]. destruct (decide (i = j)); [congruence|].
  replace (transp i j j) with i by transp_cases.
  f_equal. f_equal. apply xsum_ext. intros r _.
  transp_cases.
Qed.

Lemma zero_on_lincomb n c m col : zero_on n c → lincomb n c m col = false.
Proof. intros H. apply xsum_false. intros i Hi. rewrite (H i Hi). reflexivity. Qed.

Lemma refines_refl Wd n m : refines Wd n m m.
Proof. intros c. exists c. split; auto. Qed.

Lemma refines_trans Wd n m1 m2 m3 :
  refines Wd n m1 m2 → refines Wd n m2 m3 → refines Wd n m1 m3.
Proof.
  intros H12 H23 c. destruct (H23 c) as (c2 & E2 & Z2). destruct (H12 c2) as (c1 & E1 & Z1).
  exists c1. split; [|auto]. intros col Hcol. rewrite E1, E2 by assumption. reflexivity.
Qed.

Lemma row_equiv_refl Wd n m : row_equiv Wd n m m.
Proof. split; apply refines_refl. Qed.

Lemma row_equiv_trans Wd n m1 m2 m3 :
  row_equiv Wd n m1 m2 → row_equiv Wd n m2 m3 → row_equiv Wd n m1 m3.
Proof. intros [A B] [C D]. split; eapply refines_trans; eassumption. Qed.

Lemma row_equiv_sym Wd n m1 m2 : row_equiv Wd n m1 m2 → row_equiv Wd n m2 m1.
Proof. intros [A B]. split; assumption. Qed.

Lemma refines_narrow Wd Wd' n m m' : Wd' ≤ Wd → refines Wd n m m' → refines Wd' n m m'.
Proof.
  intros Hle H c. destruct (H c) as (c' & E & Z). exists c'. split; [|assumption].
  intros col Hcol. apply E. lia.
Qed.

Lemma lin_indep_refines W Wd n m m' :
  W ≤ Wd → refines Wd n m m' → lin_indep W n m → lin_indep W n m'.
Proof.
  intros Hle Href Hind c Hc. destruct (Href c) as (c' & E & Z). apply Z, Hind.
  intros col Hcol. rewrite E by lia. apply Hc, Hcol.
Qed.

(** *** The two row operations *)

Lemma cell_swap_at m i j r col :
  i < length m → j < length m → cell (swap_at m i j) r col = cell m (transp i j r) col.
Proof.
  intros Hi Hj. unfold cell. rewrite swap_at_lookup by assumption.
  unfold transp. destruct (decide (r = i)) as [->|]; destruct (decide (i = j)) as [->|];
    repeat case_decide; try congruence; reflexivity.
Qed.

Lemma lincomb_swap_at n c m i j col :
  i < n → j < n → n ≤ length m →
  lincomb n c (swap_at m i j) col = lincomb n (fun r => c (transp i j r)) m col.
Proof.
  intros Hi Hj Hn. unfold lincomb.
  rewrite <- (xsum_transp n (fun r => c (transp i j r) && cell m r col) i j Hi Hj).
  apply xsum_ext. intros r Hr. rewrite transp_invol, cell_swap_at by lia. reflexivity.
Qed.

Lemma refines_swap_at Wd n m i j :
  i < n → j < n → n ≤ length m → row_equiv Wd n m (swap_at m i j).
Proof.
  intros Hi Hj Hn. split; intros c; exists (fun r => c (transp i j r)).
  - split.
    + intros col _. rewrite lincomb_swap_at by assumption. reflexivity.
    + intros Hz r Hr. rewrite <- (transp_invol i j r). apply Hz, transp_lt; assumption.
  - split.
    + intros col _. rewrite lincomb_swap_at by assumption.
      apply xsum_ext. intros r _. rewrite transp_invol. reflexivity.
    + intros Hz r Hr. rewrite <- (transp_invol i j r). apply Hz, transp_lt; assumption.
Qed.

Lemma cell_add_row Wd m k p r col :
  k < length m → length (m !!! k) = Wd → col < Wd →
  cell (add_row Wd m k p) r col =
    if decide (r = k) then xorb (cell m k col) (cell m p col) else cell m r col.
Proof.
  intros Hk Hlen Hcol. unfold cell, add_row.
  destruct (decide (r = k)) as [->|Hne].
  - rewrite list_lookup_total_insert_eq by assumption.
    rewrite xor_vectors_lookup by assumption. destruct (decide (col < Wd)); [reflexivity|lia].
  - rewrite list_lookup_total_insert_ne by auto. reflexivity.
Qed.

Lemma lincomb_add_row Wd n c m k p col :
  k < n → p < n → n ≤ length m → length (m !!! k) = Wd → col < Wd →
  lincomb n c (add_row Wd m k p) col =
  lincomb n (fun r => if decide (r = p) then xorb (c p) (c k) else c r) m col.
Proof.
  intros Hk Hp Hn Hlen Hcol. unfold lincomb.
  transitivity (xorb (xsum n (fun r => c r && cell m r col)) (c k && cell m p col)).
  - rewrite (xsum_ext n _ (fun r => xorb (c r && cell m r col)
                                       (if decide (r = k) then c k && cell m p col else false))).
    + rewrite xsum_xorb, xsum_delta. destruct (decide (k < n)); [reflexivity|lia].
    + intros r _. rewrite cell_add_row by (assumption || lia).
      destruct (decide (r = k)) as [->|]; [|rewrite xorb_false_r; reflexivity].
      destruct (c k), (cell m k col), (cell m p col); reflexivity.
  - rewrite (xsum_ext n (fun r => (if decide (r = p) then xorb (c p) (c k) else c r) && cell m r col)
               (fun r => xorb (c r && cell m r col)
                              (if decide (r = p) then c k && cell m p col else false))).
    + rewrite xsum_xorb, xsum_delta. destruct (decide (p < n)); [reflexivity|lia].
    + intros r _. destruct (decide (r = p)) as [->|]; [|rewrite xorb_false_r; reflexivity].
      destruct (c k), (c p), (cell m p col); reflexivity.
Qed.

Lemma refines_add_row Wd n m k p :
  k < n → p < n → k ≠ p → n ≤ length m → length (m !!! k) = Wd →
  row_equiv Wd n m (add_row Wd m k p).
Proof.
  intros Hk Hp Hkp Hn Hlen.
  split; intros c; exists (fun r => if decide (r = p) then xorb (c p) (c k) else c r).
  - split.
    + intros col Hcol. rewrite (lincomb_add_row Wd) by assumption. reflexivity.
    + intros Hz r Hr. pose proof (Hz k Hk) as Zk. pose proof (Hz r Hr) as Zr.
      pose proof (Hz p Hp) as Zp. simpl in *.
      destruct (decide (k = p)); [congruence|]. destruct (decide (p = p)); [|congruence].
      destruct (decide (r = p)) as [->|]; [|assumption].
      rewrite Zk in Zp. destruct (c p); [discriminate|reflexivity].
  - split.
    + intros col Hcol. rewrite (lincomb_add_row Wd) by assumption.
      apply xsum_ext. intros r _. f_equal.
      destruct (decide (k = p)); [congruence|]. destruct (decide (p = p)); [|congruence].
      destruct (decide (r = p)) as [->|]; [|reflexivity].
      destruct (c p), (c k); reflexivity.
    + intros Hz r Hr. pose proof (Hz k Hk) as Zk. pose proof (Hz r Hr) as Zr.
      pose proof (Hz p Hp) as Zp. simpl in *.
      destruct (decide (k = p)); [congruence|]. destruct (decide (p = p)); [|congruence].
      destruct (decide (r = p)) as [->|]; [|assumption].
      rewrite Zk in Zp. destruct (c p); [discriminate|reflexivity].
Qed.

(** ** The elimination loops *)

Lemma mat_wf_swap_at Wd n m i j :
  i < n → j < n → mat_wf Wd n m → mat_wf Wd n (swap_at m i j).
Proof.
  intros Hi Hj [Hlen Hrows]. split; [rewrite swap_at_length; assumption|].
  intros r Hr. rewrite swap_at_lookup by lia. repeat case_decide; auto.
Qed.

Lemma mat_wf_add_row Wd n m k p : mat_wf Wd n m → mat_wf Wd n (add_row Wd m k p).
Proof.
  intros [Hlen Hrows]. unfold add_row. split; [rewrite length_insert; assumption|].
  intros r Hr. destruct (decide (r = k)) as [->|].
  - rewrite list_lookup_total_insert_eq by lia. rewrite xor_vectors_length. auto.
  - rewrite list_lookup_total_insert_ne by auto. auto.
Qed.

(** The second inner loop of [independent]: the rows from [lo] on with a one
    in column [j] get row [p] added, when row [p] has a one there. *)
Lemma eliminate_below_spec Wd n j p lo c0 :
  mat_wf Wd n c0 → p < lo → lo ≤ n →
  let c := for_range lo n
             (fun k cc => if cell cc k j && cell cc p j
                          then <[k := xor_vectors Wd (cc !!! k) (cc !!! p)]> cc else cc) c0 in
  mat_wf Wd n c ∧ row_equiv Wd n c0 c ∧
  ∀ r, c !!! r = if decide (lo ≤ r < n) then
                   (if cell c0 r j && cell c0 p j
                    then xor_vectors Wd (c0 !!! r) (c0 !!! p) else c0 !!! r)
                 else c0 !!! r.
Proof.
  intros Hwf Hp Hlo c. subst c.
  pose (P := fun (k : nat) (c : list bvec) =>
    mat_wf Wd n c ∧ row_equiv Wd n c0 c ∧
    ∀ r, c !!! r = if decide (lo ≤ r < k) then
                     (if cell c0 r j && cell c0 p j
                      then xor_vectors Wd (c0 !!! r) (c0 !!! p) else c0 !!! r)
                   else c0 !!! r).
  apply (for_range_inv P); [assumption| |]; unfold P; clear P.
  - split; [assumption|]. split; [apply row_equiv_refl|].
    intros r. destruct (decide (lo ≤ r < lo)); [lia|reflexivity].
  - intros k c Hk (Hc & Heq & Hpt).
    assert (Ek : c !!! k = c0 !!! k).
    { rewrite Hpt. destruct (decide (lo ≤ k < k)); [lia|reflexivity]. }
    assert (Ep : c !!! p = c0 !!! p).
    { rewrite Hpt. destruct (decide (lo ≤ p < k)); [lia|reflexivity]. }
    assert (Ecell : cell c k j && cell c p j = cell c0 k j && cell c0 p j).
    { unfold cell. rewrite Ek, Ep. reflexivity. }
    rewrite Ecell. destruct (cell c0 k j && cell c0 p j) eqn:Econd.
    + change (<[k := xor_vectors Wd (c !!! k) (c !!! p)]> c) with (add_row Wd c k p).
      split; [apply mat_wf_add_row; assumption|].
      split.
      * eapply row_equiv_trans; [exact Heq|].
        destruct Hc as [Hlen Hrows].
        apply refines_add_row; try lia. apply Hrows. lia.
      * intros r. unfold add_row. destruct (decide (r = k)) as [->|Hne].
        -- rewrite list_lookup_total_insert_eq by (destruct Hc; lia).
           destruct (decide (lo ≤ k < S k)); [|lia]. rewrite Econd, Ek, Ep. reflexivity.
        -- rewrite list_lookup_total_insert_ne by auto. rewrite Hpt.
           destruct (decide (lo ≤ r < k)), (decide (lo ≤ r < S k)); try lia; reflexivity.
    + split; [assumption|]. split; [assumption|].
      intros r. destruct (decide (r = k)) as [->|Hne].
      * destruct (decide (lo ≤ k < S k)); [|lia]. rewrite Econd. exact Ek.
      * rewrite Hpt.
        destruct (decide (lo ≤ r < k)), (decide (lo ≤ r < S k)); try lia; reflexivity.
Qed.

(** With no one in column [j] from row [lo] on, the loop changes nothing:
    in particular it never reads row [p], the row [row_offset - 1] of the
    source, which does not exist while [row_offset] is 0. *)
Lemma no_pivot_below Wd n j p lo c0 :
  (∀ k, lo ≤ k < n → cell c0 k j = false) →
  for_range lo n
    (fun k cc => if cell cc k j && cell cc p j
                 then <[k := xor_vectors Wd (cc !!! k) (cc !!! p)]> cc else cc) c0 = c0.
Proof.
  intros Hz. destruct (decide (lo ≤ n)) as [Hle|]; [|apply for_range_ge; lia].
  apply (for_range_inv (fun _ c => c = c0)); [assumption|reflexivity|].
  intros k c Hk ->. rewrite (Hz k Hk). reflexivity.
Qed.

Lemma eliminate_below_cells Wd n j p lo c0 :
  mat_wf Wd n c0 → p < lo → lo ≤ n →
  let c := for_range lo n
             (fun k cc => if cell cc k j && cell cc p j
                          then <[k := xor_vectors Wd (cc !!! k) (cc !!! p)]> cc else cc) c0 in
  mat_wf Wd n c ∧ row_equiv Wd n c0 c ∧
  ∀ r col, col < Wd →
    cell c r col = if decide (lo ≤ r < n)
                   then xorb (cell c0 r col) (cell c0 r j && cell c0 p j && cell c0 p col)
                   else cell c0 r col.
Proof.
  intros Hwf Hp Hlo c.
  destruct (eliminate_below_spec Wd n j p lo c0 Hwf Hp Hlo) as (Hc & Heq & Hpt).
  fold c in Hc, Heq, Hpt. split; [assumption|]. split; [assumption|].
  intros r col Hcol. unfold cell at 1. rewrite Hpt.
  destruct (decide (lo ≤ r < n)) as [Hr|]; [|reflexivity].
  destruct (cell c0 r j && cell c0 p j) eqn:E; simpl.
  - rewrite xor_vectors_lookup by (apply Hwf; lia).
    destruct (decide (col < Wd)); [reflexivity|lia].
  - rewrite xorb_false_r. reflexivity.
Qed.

Lemma echelon_start Wd n cc : mat_wf Wd n cc → echelon Wd n 0 cc 0.
Proof. intros Hwf. split; [assumption|lia|intros; lia|intros; lia]. Qed.

Lemma eliminate_column_echelon Width n j cc ro :
  echelon (Width + 1) n j cc ro → j < Width + 1 →
  echelon (Width + 1) n (S j) (fst (eliminate_column Width n j (cc, ro)))
                              (snd (eliminate_column Width n j (cc, ro))) ∧
  row_equiv (Width + 1) n cc (fst (eliminate_column Width n j (cc, ro))).
Proof.
  intros [Hwf [Hro1 Hro2] Hzero Hpiv] Hj. unfold eliminate_column.
  destruct (find_first ro n (fun k => cell cc k j)) as [k|] eqn:Ef.
  - apply find_first_Some in Ef. destruct Ef as (Hk & Hkj & _).
    replace (S ro - 1) with ro by lia.
    assert (Hwf1 : mat_wf (Width + 1) n (swap_at cc k ro)) by (apply mat_wf_swap_at; auto; lia).
    destruct (eliminate_below_cells (Width + 1) n j ro (S ro) (swap_at cc k ro) Hwf1)
      as (Hwf2 & Heq2 & Hcell); [lia|lia|].
    cbn [fst snd].
    set (c := for_range (S ro) n _ _) in *.
    assert (Hlen : length cc = n) by apply Hwf.
    assert (Hsw : ∀ r col, cell (swap_at cc k ro) r col = cell cc (transp k ro r) col).
    { intros r col. apply cell_swap_at; lia. }
    assert (Hpj : cell (swap_at cc k ro) ro j = true).
    { rewrite Hsw. unfold transp. repeat case_decide; subst; try assumption; congruence. }
    (* the rows from [ro] on, before and after the swap, are zero left of [j] *)
    assert (Hz1 : ∀ r col, ro ≤ r < n → col < j → cell (swap_at cc k ro) r col = false).
    { intros r col Hr Hcol. rewrite Hsw. apply Hzero; [|assumption].
      transp_cases. }
    split; [split|].
    + assumption.
    + lia.
    + intros r col Hr Hcol. rewrite Hcell by lia.
      destruct (decide (S ro ≤ r < n)); [|lia].
      destruct (decide (col = j)) as [->|Hne].
      * rewrite Hpj. destruct (cell (swap_at cc k ro) r j); reflexivity.
      * rewrite (Hz1 r col), (Hz1 ro col) by lia.
        rewrite andb_false_r. reflexivity.
    + intros p Hp. destruct (decide (p = ro)) as [->|Hne].
      * exists j. split; [lia|]. split; [|split].
        -- rewrite Hcell by lia. destruct (decide (S ro ≤ ro < n)); [lia|]. exact Hpj.
        -- intros col Hcol. rewrite Hcell by lia.
           destruct (decide (S ro ≤ ro < n)); [lia|]. apply Hz1; lia.
        -- intros q col Hq Hcol. rewrite Hcell by lia.
           destruct (decide (S ro ≤ q < n)); [|lia].
           destruct (decide (col = j)) as [->|Hne].
           ++ rewrite Hpj. destruct (cell (swap_at cc k ro) q j); reflexivity.
           ++ rewrite (Hz1 q col), (Hz1 ro col) by lia.
              rewrite andb_false_r. reflexivity.
      * destruct (Hpiv p ltac:(lia)) as (pc & Hpc & Hone & Hbefore & Hbelow).
        assert (Hp' : ∀ col, cell c p col = cell cc p col ∨ Width + 1 ≤ col).
        { intros col. destruct (decide (col < Width + 1)); [left|right; lia].
          rewrite Hcell by lia. destruct (decide (S ro ≤ p < n)); [lia|].
          rewrite Hsw. unfold transp. repeat case_decide; try lia. reflexivity. }
        exists pc. split; [lia|]. split; [|split].
        -- destruct (Hp' pc) as [->|]; [assumption|lia].
        -- intros col Hcol. destruct (Hp' col) as [->|]; [auto|lia].
        -- intros q col Hq Hcol.
           assert (Hq1 : ∀ q', p < q' < n → cell (swap_at cc k ro) q' col = false).
           { intros q' Hq'. rewrite Hsw. apply Hbelow; [|assumption].
             transp_cases. }
           rewrite Hcell by lia. rewrite (Hq1 q), (Hq1 ro) by lia.
           rewrite andb_false_r. destruct (decide (S ro ≤ q < n)); reflexivity.
    + eapply row_equiv_trans; [|exact Heq2]. apply refines_swap_at; lia.
  - pose proof (find_first_None _ _ _ Ef) as Hnone. cbn beta in Hnone.
    rewrite no_pivot_below by assumption. cbn [fst snd].
    split; [split|apply row_equiv_refl].
    + assumption.
    + lia.
    + intros r col Hr Hcol. destruct (decide (col = j)) as [->|]; [apply Hnone; lia|].
      apply Hzero; lia.
    + intros p Hp. destruct (Hpiv p Hp) as (pc & Hpc & Hrest). exists pc. split; [lia|exact Hrest].
Qed.

Lemma eliminate_copy_echelon Width n cc0 :
  mat_wf (Width + 1) n cc0 →
  echelon (Width + 1) n (Width + 1) (fst (eliminate_copy Width n cc0))
                                    (snd (eliminate_copy Width n cc0)) ∧
  row_equiv (Width + 1) n cc0 (fst (eliminate_copy Width n cc0)).
Proof.
  intros Hwf. unfold eliminate_copy.
  pose (P := fun (j : nat) (st : list bvec * nat) =>
               echelon (Width + 1) n j (fst st) (snd st) ∧ row_equiv (Width + 1) n cc0 (fst st)).
  apply (for_range_inv P); unfold P; clear P; [lia| |].
  - split; [apply echelon_start; assumption|apply row_equiv_refl].
  - intros j [cc ro] Hj [Hech Heq]. cbn [fst snd] in *.
    destruct (eliminate_column_echelon Width n j cc ro Hech) as [Hech' Heq']; [lia|].
    split; [assumption|]. eapply row_equiv_trans; eassumption.
Qed.

(** Rows in echelon form, each with a pivot left of column [W], are independent. *)
Lemma pivots_lin_indep W n m :
  (∀ p, p < n → ∃ pc, pc < W ∧ cell m p pc = true ∧ ∀ q, p < q < n → cell m q pc = false) →
  lin_indep W n m.
Proof.
  intros Hpiv c Hc.
  assert (H : ∀ k i, i < k → i < n → c i = false).
  { induction k as [|k IH]; intros i Hik Hin; [lia|].
    destruct (decide (i < k)) as [|Hge]; [apply IH; assumption|].
    assert (i = k) by lia. subst i.
    destruct (Hpiv k Hin) as (pc & Hpc & Hone & Hbelow).
    specialize (Hc pc Hpc). unfold lincomb in Hc.
    rewrite (xsum_split n _ k Hin), Hone, andb_true_r in Hc.
    rewrite xsum_false, xorb_false_r in Hc; [assumption|].
    intros r Hr. destruct (decide (r = k)); [reflexivity|].
    destruct (decide (r < k)).
    - rewrite IH by lia. reflexivity.
    - rewrite Hbelow by lia. apply andb_false_r. }
  intros i Hi. apply (H (S i)); lia.
Qed.

Lemma forallb_false_ex {A} (f : A → bool) l :
  forallb f l = false → ∃ x, In x l ∧ f x = false.
Proof.
  induction l as [|a l IH]; simpl; [discriminate|].
  destruct (f a) eqn:E; simpl.
  - intros H. destruct (IH H) as (x & Hx & Hfx). exists x. auto.
  - intros _. exists a. auto.
Qed.

(** What the two tests at the end of [independent] leave when both fail. *)
Lemma vector_tests_fail W r :
  one_vector (W + 1) r = false → zero_vector (W + 1) r = false →
  ∃ col, col < W ∧ r !!! col = true.
Proof.
  unfold one_vector, zero_vector. replace (W + 1 - 1) with W by lia.
  replace (W + 1) with (S W) by lia. rewrite seq_S, forallb_app. simpl.
  destruct (forallb (fun i => negb (r !!! i)) (seq 0 W)) eqn:E.
  - simpl. destruct (r !!! W); discriminate.
  - intros _ _. destruct (forallb_false_ex _ _ E) as (col & Hin & Hcol).
    apply in_seq in Hin. exists col. split; [lia|]. apply negb_false_iff. exact Hcol.
Qed.

(** ** Reading the copied matrix *)

Lemma lookup_total_nth {A} `{Inhabited A} (l : list A) i : l !!! i = nth i l inhabitant.
Proof. rewrite list_lookup_total_alt, nth_lookup. reflexivity. Qed.

Lemma lookup_total_map_seq {A} `{Inhabited A} (f : nat → A) lo n i :
  i < n → map f (seq lo n) !!! i = f (lo + i).
Proof.
  intros Hi. rewrite lookup_total_nth.
  rewrite (nth_indep _ _ (f 0)) by (rewrite length_map, length_seq; exact Hi).
  rewrite map_nth, seq_nth by exact Hi. reflexivity.
Qed.

Lemma copy_row_length W s i : length (copy_row W s i) = W + 1.
Proof. unfold copy_row. rewrite length_app, length_map, length_seq. reflexivity. Qed.

Lemma copy_row_coeff W s i col :
  col < W → copy_row W s i !!! col = cell (contents s) i col.
Proof.
  intros Hcol. unfold copy_row.
  rewrite lookup_total_app_l by (rewrite length_map, length_seq; exact Hcol).
  rewrite lookup_total_map_seq by exact Hcol. reflexivity.
Qed.

Lemma copy_row_target W s i : copy_row W s i !!! W = targets s !!! i.
Proof.
  unfold copy_row.
  rewrite lookup_total_app_r by (rewrite length_map, length_seq; lia).
  rewrite length_map, length_seq, Nat.sub_diag. reflexivity.
Qed.

Lemma content_copy_row W s row i :
  content_copy W s row !!! i =
    if decide (i < independent_rows s) then copy_row W s i
    else if decide (i = independent_rows s) then copy_row W s row else inhabitant.
Proof.
  unfold content_copy. destruct (decide (i < independent_rows s)) as [Hi|Hi].
  - rewrite lookup_total_app_l by (rewrite length_map, length_seq; exact Hi).
    rewrite lookup_total_map_seq by exact Hi. reflexivity.
  - rewrite lookup_total_app_r by (rewrite length_map, length_seq; lia).
    rewrite length_map, length_seq.
    destruct (decide (i = independent_rows s)) as [->|Hne].
    + rewrite Nat.sub_diag. reflexivity.
    + destruct (i - independent_rows s) as [|d] eqn:E; [lia|]. reflexivity.
Qed.

Lemma content_copy_wf W s row :
  mat_wf (W + 1) (independent_rows s + 1) (content_copy W s row).
Proof.
  split.
  - unfold content_copy. rewrite length_app, length_map, length_seq. reflexivity.
  - intros r Hr. rewrite content_copy_row. repeat case_decide; try lia; apply copy_row_length.
Qed.

(** ** independent *)

Lemma lincomb_single n m k col :
  k < n → lincomb n (fun r => bool_decide (r = k)) m col = cell m k col.
Proof.
  intros Hk. unfold lincomb.
  rewrite (xsum_ext n _ (fun r => if decide (r = k) then cell m k col else false)).
  - rewrite xsum_delta. destruct (decide (k < n)); [reflexivity|lia].
  - intros r _. destruct (decide (r = k)) as [->|Hne].
    + rewrite bool_decide_eq_true_2 by reflexivity. reflexivity.
    + rewrite bool_decide_eq_false_2 by assumption. reflexivity.
Qed.

Lemma lin_indep_ext W n m m' :
  (∀ i col, i < n → col < W → cell m i col = cell m' i col) →
  lin_indep W n m → lin_indep W n m'.
Proof.
  intros Hext Hind c Hc. apply Hind. intros col Hcol. rewrite <- (Hc col Hcol).
  apply xsum_ext. intros i Hi. rewrite Hext by assumption. reflexivity.
Qed.

Section IndependentSpec.
Variable Width : nat.
Variable s : MatrixSolver.
Variable row : nat.

Let n := independent_rows s.
Let ccf := fst (eliminate_copy Width (n + 1) (content_copy Width s row)).
Let rof := snd (eliminate_copy Width (n + 1) (content_copy Width s row)).

Lemma independent_unfold :
  independent Width s row =
    if one_vector (Width + 1) (ccf !!! n) then Throw "Invalid equation"
    else Ok (negb (zero_vector (Width + 1) (ccf !!! n))).
Proof.
  unfold independent, ccf, n.
  destruct (eliminate_copy Width (independent_rows s + 1) (content_copy Width s row)).
  reflexivity.
Qed.

Lemma final_echelon : echelon (Width + 1) (n + 1) (Width + 1) ccf rof.
Proof. apply eliminate_copy_echelon, content_copy_wf. Qed.

Lemma final_equiv : row_equiv (Width + 1) (n + 1) (content_copy Width s row) ccf.
Proof. apply eliminate_copy_echelon, content_copy_wf. Qed.

(** [independent] answers [true] only for a row that is independent of
    the accepted ones, and only while fewer than [Width] are accepted. *)
Lemma independent_true :
  independent Width s row = Ok true →
  n + 1 ≤ Width ∧ lin_indep Width (n + 1) (content_copy Width s row).
Proof.
  rewrite independent_unfold.
  destruct (one_vector (Width + 1) (ccf !!! n)) eqn:Eone; [discriminate|].
  destruct (zero_vector (Width + 1) (ccf !!! n)) eqn:Ezero; [discriminate|]. intros _.
  destruct (vector_tests_fail _ _ Eone Ezero) as (ca & Hca & Hone).
  destruct final_echelon as [Hwf [Hro1 Hro2] Hzero Hpiv].
  assert (Hn : n < rof).
  { destruct (decide (n < rof)); [assumption|]. exfalso.
    assert (cell ccf n ca = false) by (apply Hzero; lia).
    unfold cell in *. congruence. }
  destruct (Hpiv n Hn) as (pcn & Hpcn & Hpone & Hpbefore & _).
  assert (Hpcn' : pcn < Width).
  { destruct (decide (ca < pcn)) as [Hlt|]. 2: lia.
    apply Hpbefore in Hlt. unfold cell in *. congruence. }
  split; [lia|].
  apply (lin_indep_refines Width (Width + 1) (n + 1) ccf); [lia|apply final_equiv|].
  apply pivots_lin_indep. intros p Hp.
  destruct (Hpiv p ltac:(lia)) as (pc & Hpc & Hone' & Hbefore' & Hbelow).
  exists pc. split; [|split; [assumption|]].
  - destruct (decide (p = n)) as [->|Hne].
    + destruct (decide (pc < Width)); [assumption|].
      rewrite Hbefore' in Hpone by lia. discriminate.
    + destruct (decide (pcn ≤ pc)) as [Hle|]; [|lia].
      rewrite (Hbelow n pcn) in Hpone by lia. discriminate.
  - intros q Hq. apply Hbelow; lia.
Qed.

(** When the last row comes out of the elimination with no coefficient
    left, the row under test is a combination of the accepted rows, and
    the bit left in the target column compares the two targets. *)
Lemma independent_in_span :
  lin_indep Width n (contents s) →
  (∀ col, col < Width → cell ccf n col = false) →
  ∃ c, combines Width n c (contents s) (contents s !!! row) ∧
       xorb (implied_target n c (targets s)) (targets s !!! row) = cell ccf n Width.
Proof.
  intros Hind Hzero.
  destruct final_equiv as [Href _].
  destruct (Href (fun r => bool_decide (r = n))) as (c & Hc & Hnz).
  assert (Hsplit : ∀ col, col < Width + 1 →
            xorb (xsum n (fun i => c i && (copy_row Width s i !!! col)))
                 (c n && (copy_row Width s row !!! col)) = cell ccf n col).
  { intros col Hcol. rewrite <- (lincomb_single (n + 1) ccf n col) by lia.
    rewrite <- (Hc col Hcol). unfold lincomb. replace (n + 1) with (S n) by lia.
    cbn [xsum]. f_equal.
    - apply xsum_ext. intros i Hi. unfold cell. rewrite content_copy_row.
      fold n. destruct (decide (i < n)); [reflexivity|lia].
    - unfold cell. rewrite content_copy_row. fold n.
      destruct (decide (n < n)); [lia|]. destruct (decide (n = n)); [reflexivity|lia]. }
  assert (Hcn : c n = true).
  { destruct (c n) eqn:Ecn; [reflexivity|]. exfalso.
    assert (Hz : zero_on n c).
    { apply Hind. intros col Hcol. specialize (Hsplit col ltac:(lia)).
      rewrite (Hzero col Hcol), xorb_false_r in Hsplit. rewrite <- Hsplit.
      apply xsum_ext. intros i Hi. rewrite copy_row_coeff by assumption. reflexivity. }
    assert (Hz' : zero_on (n + 1) c).
    { intros i Hi. destruct (decide (i = n)) as [->|]; [assumption|]. apply Hz. lia. }
    specialize (Hnz Hz' n ltac:(lia)). cbn beta in Hnz.
    rewrite bool_decide_eq_true_2 in Hnz by reflexivity. discriminate. }
  exists c. split.
  - intros col Hcol. specialize (Hsplit col ltac:(lia)).
    rewrite (Hzero col Hcol), Hcn, andb_true_l, copy_row_coeff in Hsplit by assumption.
    apply xorb_eq in Hsplit. etransitivity; [|exact Hsplit].
    apply xsum_ext. intros i Hi. rewrite copy_row_coeff by assumption. reflexivity.
  - specialize (Hsplit Width ltac:(lia)).
    rewrite Hcn, andb_true_l, copy_row_target in Hsplit. rewrite <- Hsplit. f_equal.
    apply xsum_ext. intros i Hi. rewrite copy_row_target. reflexivity.
Qed.

Lemma independent_false :
  lin_indep Width n (contents s) →
  independent Width s row = Ok false →
  ∃ c, combines Width n c (contents s) (contents s !!! row) ∧
       implied_target n c (targets s) = targets s !!! row.
Proof.
  intros Hind. rewrite independent_unfold.
  destruct (one_vector (Width + 1) (ccf !!! n)) eqn:Eone; [discriminate|].
  destruct (zero_vector (Width + 1) (ccf !!! n)) eqn:Ezero; [|discriminate]. intros _.
  rewrite zero_vector_true in Ezero.
  destruct (independent_in_span Hind) as (c & Hc & Ht).
  { intros col Hcol. apply Ezero. lia. }
  exists c. split; [assumption|].
  unfold cell in Ht. rewrite Ezero in Ht by lia. apply xorb_eq. exact Ht.
Qed.

Lemma independent_throw e :
  lin_indep Width n (contents s) →
  independent Width s row = Throw e →
  ∃ c, combines Width n c (contents s) (contents s !!! row) ∧
       implied_target n c (targets s) = negb (targets s !!! row).
Proof.
  intros Hind. rewrite independent_unfold.
  destruct (one_vector (Width + 1) (ccf !!! n)) eqn:Eone; [|discriminate]. intros _.
  rewrite one_vector_true in Eone. replace (Width + 1 - 1) with Width in Eone by lia.
  destruct Eone as [Ezero Eone].
  destruct (independent_in_span Hind) as (c & Hc & Ht).
  { intros col Hcol. apply Ezero. lia. }
  exists c. split; [assumption|].
  unfold cell in Ht. rewrite Eone in Ht.
  destruct (implied_target n c (targets s)), (targets s !!! row); try discriminate; reflexivity.
Qed.
End IndependentSpec.

(** ** addRow *)

Lemma lincomb_xorb n c1 c2 m col :
  lincomb n (fun i => xorb (c1 i) (c2 i)) m col = xorb (lincomb n c1 m col) (lincomb n c2 m col).
Proof.
  unfold lincomb. rewrite <- xsum_xorb. apply xsum_ext. intros i _.
  destruct (c1 i), (c2 i), (cell m i col); reflexivity.
Qed.

(** Independent rows give every vector of their span by one selection only. *)
Lemma combines_unique W n m r c1 c2 :
  lin_indep W n m → combines W n c1 m r → combines W n c2 m r →
  ∀ i, i < n → c1 i = c2 i.
Proof.
  intros Hind H1 H2 i Hi. apply xorb_eq. apply (Hind (fun i => xorb (c1 i) (c2 i))); [|exact Hi].
  intros col Hcol. rewrite lincomb_xorb, H1, H2 by assumption. apply xorb_nilpotent.
Qed.

Lemma implied_target_unique W n m r t c1 c2 :
  lin_indep W n m → combines W n c1 m r → combines W n c2 m r →
  implied_target n c1 t = implied_target n c2 t.
Proof.
  intros Hind H1 H2. apply xsum_ext. intros i Hi.
  rewrite (combines_unique W n m r c1 c2) by assumption. reflexivity.
Qed.

Section AddRow.
Variable Width : nat.
Variable s : MatrixSolver.
Variable new_row : bvec.
Variable solution : bool.
Hypothesis Hwf : solver_wf s.

Let n := independent_rows s.
Let s1 := mkSolver n (contents s ++ [new_row]) (targets s ++ [solution]).
Let last := length (contents s1) - 1.

Lemma last_eq : last = length (contents s).
Proof using Type. unfold last, s1. cbn. rewrite length_app. cbn. lia. Qed.

Lemma pushed_row : contents s1 !!! last = new_row.
Proof using Type.
  rewrite last_eq. unfold s1. cbn.
  rewrite lookup_total_app_r, Nat.sub_diag by lia. reflexivity.
Qed.

Lemma pushed_target : targets s1 !!! last = solution.
Proof using Hwf.
  rewrite last_eq. unfold s1. cbn. rewrite <- (wf_targets s Hwf).
  rewrite lookup_total_app_r, Nat.sub_diag by lia. reflexivity.
Qed.

Lemma pushed_cell i col : i < n → cell (contents s1) i col = cell (contents s) i col.
Proof using Hwf.
  intros Hi. unfold cell, s1. cbn.
  rewrite lookup_total_app_l by (pose proof (wf_rank s Hwf); unfold n in Hi; lia). reflexivity.
Qed.

Lemma pushed_old_target i : i < n → targets s1 !!! i = targets s !!! i.
Proof using Hwf.
  intros Hi. unfold s1. cbn.
  rewrite lookup_total_app_l; [reflexivity|].
  rewrite (wf_targets s Hwf). pose proof (wf_rank s Hwf). unfold n in Hi. lia.
Qed.

Lemma pushed_lin_indep : lin_indep Width n (contents s) → lin_indep Width n (contents s1).
Proof using Hwf.
  apply lin_indep_ext. intros i col Hi _. rewrite pushed_cell by assumption. reflexivity.
Qed.

Lemma pushed_combines c :
  combines Width n c (contents s1) (contents s1 !!! last) ↔
  combines Width n c (contents s) new_row.
Proof using Hwf.
  rewrite pushed_row. unfold combines, lincomb.
  split; intros H col Hcol; rewrite <- (H col Hcol); apply xsum_ext; intros i Hi;
    rewrite pushed_cell by assumption; reflexivity.
Qed.

Lemma pushed_implied c : implied_target n c (targets s1) = implied_target n c (targets s).
Proof using Hwf.
  apply xsum_ext. intros i Hi. rewrite pushed_old_target by assumption. reflexivity.
Qed.

Lemma addRow_unfold :
  addRow Width s new_row solution =
    match independent Width s1 last with
    | Throw what => (Throw what, s1)
    | Ok true => (Ok (), mkSolver (S n) (swap_at (contents s1) n last) (swap_at (targets s1) n last))
    | Ok false => (Ok (), s1)
    end.
Proof using Type. reflexivity. Qed.

(** A selection that combines the accepted rows to the new one contradicts
    the independence of the copied matrix. *)
Lemma in_span_not_independent c :
  combines Width n c (contents s) new_row →
  ¬ lin_indep Width (n + 1) (content_copy Width s1 last).
Proof using Hwf.
  intros Hc Hind.
  pose (c' := fun i => if decide (i = n) then true else c i).
  assert (Hz : zero_on (n + 1) c').
  { apply Hind. intros col Hcol. unfold lincomb. replace (n + 1) with (S n) by lia.
    cbn [xsum]. unfold c' at 2. destruct (decide (n = n)); [|lia]. rewrite andb_true_l.
    unfold cell at 2. rewrite content_copy_row. cbn [independent_rows s1].
    destruct (decide (n < n)); [lia|]. destruct (decide (n = n)); [|lia].
    rewrite copy_row_coeff by assumption.
    change (cell (contents s1) last col) with ((contents s1 !!! last) !!! col).
    rewrite <- (proj2 (pushed_combines c) Hc col Hcol). unfold lincomb.
    rewrite (xsum_ext n _ (fun i => c i && cell (contents s1) i col)).
    - apply xorb_nilpotent.
    - intros i Hi. unfold c'. destruct (decide (i = n)); [lia|]. f_equal.
      unfold cell at 1. rewrite content_copy_row. cbn [independent_rows s1].
      destruct (decide (i < n)); [|lia]. apply copy_row_coeff. assumption. }
  specialize (Hz n ltac:(lia)). unfold c' in Hz. destruct (decide (n = n)); [discriminate|lia].
Qed.

(** The three outcomes of [addRow], told apart by the span of the accepted rows. *)
Lemma addRow_throw_iff :
  lin_indep Width n (contents s) →
  (∃ e, fst (addRow Width s new_row solution) = Throw e) ↔
  (∃ c, combines Width n c (contents s) new_row ∧
        implied_target n c (targets s) = negb solution).
Proof using Hwf.
  intros Hind. rewrite addRow_unfold. split.
  - intros [e He]. destruct (independent Width s1 last) as [[|]|e'] eqn:E; try discriminate.
    destruct (independent_throw Width s1 last e' (pushed_lin_indep Hind) E) as (c & Hc & Ht).
    exists c. rewrite <- pushed_combines, <- pushed_implied, <- pushed_target. auto.
  - intros (c & Hc & Ht). destruct (independent Width s1 last) as [[|]|e'] eqn:E.
    + exfalso. apply independent_true in E. destruct E as [_ E].
      exact (in_span_not_independent c Hc E).
    + exfalso.
      destruct (independent_false Width s1 last (pushed_lin_indep Hind) E) as (c2 & Hc2 & Ht2).
      rewrite pushed_implied, pushed_target in Ht2. apply pushed_combines in Hc2.
      rewrite (implied_target_unique Width n (contents s) new_row (targets s) c c2) in Ht
        by assumption.
      rewrite Ht2 in Ht. destruct solution; discriminate.
    + eexists. reflexivity.
Qed.

Lemma addRow_rank :
  independent_rows s ≤ independent_rows (snd (addRow Width s new_row solution)) ≤ S (independent_rows s).
Proof using Type.
  rewrite addRow_unfold. destruct (independent Width s1 last) as [[|]|e']; cbn; unfold n; lia.
Qed.

Lemma addRow_throw_rank e :
  fst (addRow Width s new_row solution) = Throw e →
  getIndependent (snd (addRow Width s new_row solution)) = getIndependent s.
Proof using Type.
  rewrite addRow_unfold. destruct (independent Width s1 last) as [[|]|e']; try discriminate.
  reflexivity.
Qed.

Lemma addRow_wf : solver_wf (snd (addRow Width s new_row solution)).
Proof using Hwf.
  destruct Hwf as [Ht Hr]. rewrite addRow_unfold.
  destruct (independent Width s1 last) as [[|]|e']; split; unfold s1, n; cbn;
    rewrite ?length_insert, ?length_app; cbn; lia.
Qed.

Lemma swapped_cell i col :
  i < S n →
  cell (swap_at (contents s1) n last) i col = cell (content_copy Width s1 last) i col ∨ Width ≤ col.
Proof using Hwf.
  intros Hi. destruct (decide (col < Width)) as [Hcol|]; [left|right; lia].
  pose proof (wf_rank s Hwf) as Hr. pose proof last_eq as Hl.
  rewrite cell_swap_at by (unfold s1; cbn; rewrite length_app; cbn; fold n; lia).
  unfold cell at 2. rewrite content_copy_row. cbn [independent_rows s1].
  unfold transp. destruct (decide (i = n)) as [->|Hne].
  - destruct (decide (n < n)); [lia|]. destruct (decide (n = n)); [|lia].
    rewrite copy_row_coeff by assumption. reflexivity.
  - destruct (decide (i < n)); [|lia]. destruct (decide (i = last)); [fold n in Hr; lia|].
    rewrite copy_row_coeff by assumption. reflexivity.
Qed.

(** [addRow] keeps the accepted rows independent and at most [Width] many. *)
Lemma addRow_lin_indep :
  lin_indep Width n (contents s) → n ≤ Width →
  lin_indep Width (independent_rows (snd (addRow Width s new_row solution)))
    (contents (snd (addRow Width s new_row solution))) ∧
  independent_rows (snd (addRow Width s new_row solution)) ≤ Width.
Proof using Hwf.
  intros Hind Hle. rewrite addRow_unfold.
  destruct (independent Width s1 last) as [[|]|e'] eqn:E; cbn [fst snd independent_rows contents].
  - apply independent_true in E. cbn [independent_rows s1] in E. destruct E as [Hle' E].
    split; [|lia]. replace (n + 1) with (S n) in E by lia.
    revert E. apply lin_indep_ext. intros i col Hi Hcol.
    destruct (swapped_cell i col Hi) as [->|]; [reflexivity|lia].
  - split; [|assumption]. apply pushed_lin_indep, Hind.
  - split; [|assumption]. apply pushed_lin_indep, Hind.
Qed.

(** A row outside the span of the accepted rows is accepted. *)
Lemma addRow_independent :
  lin_indep Width n (contents s) →
  (∀ c, ¬ combines Width n c (contents s) new_row) →
  addRow Width s new_row solution =
    (Ok (), mkSolver (S n) (swap_at (contents s1) n last) (swap_at (targets s1) n last)).
Proof using Hwf.
  intros Hind Hout. rewrite addRow_unfold.
  destruct (independent Width s1 last) as [[|]|e'] eqn:E.
  - reflexivity.
  - exfalso.
    destruct (independent_false Width s1 last (pushed_lin_indep Hind) E) as (c & Hc & _).
    apply pushed_combines in Hc. exact (Hout c Hc).
  - exfalso.
    destruct (independent_throw Width s1 last e' (pushed_lin_indep Hind) E) as (c & Hc & _).
    apply pushed_combines in Hc. exact (Hout c Hc).
Qed.
End AddRow.

(** ** Sequences of calls *)

Lemma new_solver_inv W : solver_inv W new_solver.
Proof.
  split; [split; cbn; lia|cbn; lia|]. intros c _ i Hi. cbn in Hi. lia.
Qed.

Lemma addRow_inv W s new_row solution :
  solver_inv W s → solver_inv W (snd (addRow W s new_row solution)).
Proof.
  intros [Hwf Hr Hind].
  destruct (addRow_lin_indep W s new_row solution Hwf Hind Hr).
  split; [apply addRow_wf| |]; assumption.
Qed.

Lemma addRows_app W s l1 l2 : addRows W s (l1 ++ l2) = addRows W (addRows W s l1) l2.
Proof. apply fold_left_app. Qed.

Lemma addRows_inv W s eqs : solver_inv W s → solver_inv W (addRows W s eqs).
Proof.
  revert s. induction eqs as [|e eqs IH]; intros s Hs; [exact Hs|].
  cbn. apply IH, addRow_inv, Hs.
Qed.

Lemma addRows_rank_mono W s eqs : independent_rows s ≤ independent_rows (addRows W s eqs).
Proof.
  revert s. induction eqs as [|e eqs IH]; intros s; [cbn; lia|].
  cbn. etransitivity; [|apply IH]. apply addRow_rank.
Qed.

(** ** gaussianEliminate *)

Lemma xsum_andb_l n b f : xsum n (fun j => b && f j) = b && xsum n f.
Proof.
  destruct b; cbn; [apply xsum_ext; reflexivity|]. apply xsum_false. reflexivity.
Qed.

Lemma dot_cells W c r x : dot W (c !!! r) x = xsum W (fun j => cell c r j && (x !!! j)).
Proof. reflexivity. Qed.

Lemma dot_ext W a b x : (∀ j, j < W → a !!! j = b !!! j) → dot W a x = dot W b x.
Proof. intros H. apply xsum_ext. intros j Hj. rewrite H by assumption. reflexivity. Qed.

Lemma gauss_column_unfold W n i c t :
  gauss_column W n i (c, t) =
    for_range (i + 1) n (gauss_below W i)
      match find_first i n (fun j => cell c j i) with
      | Some j => (swap_at c j i, swap_at t j i)
      | None => (c, t)
      end.
Proof.
  unfold gauss_column. destruct (find_first i n _) as [j|]; reflexivity.
Qed.

Lemma gauss_below_spec W n i c0 t0 :
  gauss_wf W n c0 t0 → i < n →
  let st := for_range (i + 1) n (gauss_below W i) (c0, t0) in
  gauss_wf W n (fst st) (snd st) ∧
  row_equiv W n c0 (fst st) ∧
  (∀ r, fst st !!! r =
        if decide (i < r < n)
        then (if cell c0 r i then xor_vectors W (c0 !!! r) (c0 !!! i) else c0 !!! r)
        else c0 !!! r) ∧
  (∀ r, snd st !!! r =
        if decide (i < r < n)
        then (if cell c0 r i then xorb (t0 !!! i) (t0 !!! r) else t0 !!! r)
        else t0 !!! r).
Proof.
  intros Hwf Hi st. subst st.
  pose (P := fun (k : nat) (st : list bvec * list bool) =>
    gauss_wf W n (fst st) (snd st) ∧
    row_equiv W n c0 (fst st) ∧
    (∀ r, fst st !!! r =
          if decide (i < r < k)
          then (if cell c0 r i then xor_vectors W (c0 !!! r) (c0 !!! i) else c0 !!! r)
          else c0 !!! r) ∧
    (∀ r, snd st !!! r =
          if decide (i < r < k)
          then (if cell c0 r i then xorb (t0 !!! i) (t0 !!! r) else t0 !!! r)
          else t0 !!! r)).
  assert (HP : P n (for_range (i + 1) n (gauss_below W i) (c0, t0))).
  { apply (for_range_inv P); unfold P; clear P; [lia| |].
    - cbn [fst snd]. split; [assumption|]. split; [apply row_equiv_refl|].
      split; intros r; destruct (decide (i < r < i + 1)); (lia || reflexivity).
    - intros k [c t] Hk (Hc & Heq & Hpc & Hpt). cbn [fst snd] in *.
      destruct Hc as (Hlc & Hlt & Hrows).
      assert (Ek : c !!! k = c0 !!! k).
      { rewrite Hpc. destruct (decide (i < k < k)); [lia|reflexivity]. }
      assert (Ei : c !!! i = c0 !!! i).
      { rewrite Hpc. destruct (decide (i < i < k)); [lia|reflexivity]. }
      assert (Etk : t !!! k = t0 !!! k).
      { rewrite Hpt. destruct (decide (i < k < k)); [lia|reflexivity]. }
      assert (Eti : t !!! i = t0 !!! i).
      { rewrite Hpt. destruct (decide (i < i < k)); [lia|reflexivity]. }
      assert (Ec : cell c k i = cell c0 k i) by (unfold cell; rewrite Ek; reflexivity).
      unfold gauss_below. rewrite Ec.
      destruct (cell c0 k i) eqn:Econd; cbn [fst snd].
      + split; [|split; [|split]].
        * split; [rewrite length_insert; assumption|].
          split; [rewrite length_insert; assumption|].
          intros r Hr. destruct (decide (r = k)) as [->|].
          -- rewrite list_lookup_total_insert_eq by lia. rewrite xor_vectors_length. auto.
          -- rewrite list_lookup_total_insert_ne by auto. auto.
        * eapply row_equiv_trans; [exact Heq|].
          apply (refines_add_row W n c k i); try lia. apply Hrows. lia.
        * intros r. destruct (decide (r = k)) as [->|Hne].
          -- rewrite list_lookup_total_insert_eq by lia.
             destruct (decide (i < k < S k)); [|lia]. rewrite Econd, Ek, Ei. reflexivity.
          -- rewrite list_lookup_total_insert_ne by auto. rewrite Hpc.
             destruct (decide (i < r < k)), (decide (i < r < S k)); try lia; reflexivity.
        * intros r. destruct (decide (r = k)) as [->|Hne].
          -- rewrite list_lookup_total_insert_eq by lia.
             destruct (decide (i < k < S k)); [|lia]. rewrite Econd, Etk, Eti. reflexivity.
          -- rewrite list_lookup_total_insert_ne by auto. rewrite Hpt.
             destruct (decide (i < r < k)), (decide (i < r < S k)); try lia; reflexivity.
      + split; [repeat split; assumption|]. split; [assumption|].
        split; intros r; (destruct (decide (r = k)) as [->|Hne];
          [destruct (decide (i < k < S k)); [|lia]; rewrite Econd; assumption
          |rewrite ?Hpc, ?Hpt;
           destruct (decide (i < r < k)), (decide (i < r < S k)); try lia; reflexivity]). }
  exact HP.
Qed.

Lemma gauss_below_cells W n i c0 t0 :
  gauss_wf W n c0 t0 → i < n →
  let st := for_range (i + 1) n (gauss_below W i) (c0, t0) in
  (∀ r col, col < W →
     cell (fst st) r col =
       if decide (i < r < n) then xorb (cell c0 r col) (cell c0 r i && cell c0 i col)
       else cell c0 r col) ∧
  (∀ r, snd st !!! r =
        if decide (i < r < n) then xorb (t0 !!! r) (cell c0 r i && (t0 !!! i)) else t0 !!! r).
Proof.
  intros Hwf Hi st. destruct (gauss_below_spec W n i c0 t0 Hwf Hi) as (_ & _ & Hpc & Hpt).
  fold st in Hpc, Hpt. split.
  - intros r col Hcol. unfold cell at 1. rewrite Hpc.
    destruct (decide (i < r < n)) as [Hr|]; [|reflexivity].
    destruct (cell c0 r i) eqn:E; cbn.
    + rewrite xor_vectors_lookup by (apply Hwf; lia).
      destruct (decide (col < W)); [reflexivity|lia].
    + rewrite xorb_false_r. reflexivity.
  - intros r. rewrite Hpt. destruct (decide (i < r < n)); [|reflexivity].
    destruct (cell c0 r i); cbn; [apply xorb_comm|rewrite xorb_false_r; reflexivity].
Qed.

Lemma find_first_empty lo hi p : hi ≤ lo → find_first lo hi p = None.
Proof. intros H. unfold find_first. replace (hi - lo) with 0 by lia. reflexivity. Qed.

Lemma swap_at_same {A} `{Inhabited A} (m : list A) i : swap_at m i i = m.
Proof.
  unfold swap_at.
  assert (E : <[i := m !!! i]> m = m).
  { apply list_insert_id'. intros Hi. apply list_lookup_lookup_total_lt, Hi. }
  rewrite E. exact E.
Qed.

Lemma gauss_wf_swap_at W n c t i j :
  i < n → j < n → gauss_wf W n c t → gauss_wf W n (swap_at c i j) (swap_at t i j).
Proof.
  intros Hi Hj (Hc & Ht & Hrows). split; [rewrite swap_at_length; assumption|].
  split; [rewrite swap_at_length; assumption|].
  intros r Hr. rewrite swap_at_lookup by lia. repeat case_decide; auto.
Qed.

Lemma sat_swap_at W n c t i j x :
  i < n → j < n → gauss_wf W n c t →
  sat W n (swap_at c i j) (swap_at t i j) x → sat W n c t x.
Proof.
  intros Hi Hj (Hc & Ht & _) Hsat r Hr.
  specialize (Hsat (transp i j r) (transp_lt i j r n Hi Hj Hr)).
  rewrite !swap_at_lookup in Hsat by lia.
  unfold transp in Hsat. repeat case_decide; subst; try lia; assumption.
Qed.

Lemma gauss_column_inv W n i c0 t0 c t :
  gauss_inv W n i c0 t0 c t → i < W →
  gauss_inv W n (S i) c0 t0 (fst (gauss_column W n i (c, t))) (snd (gauss_column W n i (c, t))).
Proof.
  intros [Hwf Heq Hlow Hsat] HiW. rewrite gauss_column_unfold.
  destruct (decide (i < n)) as [Hi|Hi].
  2: { rewrite find_first_empty, for_range_ge by lia. cbn [fst snd].
       split; try assumption. intros col r Hcol Hr. apply Hlow; lia. }
  (* the vectors after the pivot search *)
  assert (Hmid : ∃ c1 t1,
            match find_first i n (fun j => cell c j i) with
            | Some j => (swap_at c j i, swap_at t j i)
            | None => (c, t)
            end = (c1, t1) ∧
            gauss_wf W n c1 t1 ∧ row_equiv W n c c1 ∧ lower_zero n i c1 ∧
            (∀ x, sat W n c1 t1 x → sat W n c t x) ∧
            (cell c1 i i = true ∨ ∀ r, i < r < n → cell c1 r i = false)).
  { destruct (find_first i n (fun j => cell c j i)) as [j|] eqn:Ef.
    - apply find_first_Some in Ef. destruct Ef as (Hj & Hji & _).
      destruct Hwf as (Hc & Ht & Hrows).
      assert (Hsw : ∀ r col, cell (swap_at c j i) r col = cell c (transp j i r) col).
      { intros r col. apply cell_swap_at; lia. }
      exists (swap_at c j i), (swap_at t j i). split; [reflexivity|].
      split; [apply gauss_wf_swap_at; repeat split; auto; lia|].
      split; [apply refines_swap_at; lia|].
      split; [|split].
      + intros col r Hcol Hr. rewrite Hsw. apply Hlow; [assumption|].
        transp_cases.
      + intros x. apply sat_swap_at; repeat split; auto; lia.
      + left. rewrite Hsw. unfold transp. repeat case_decide; subst; try assumption; congruence.
    - exists c, t. split; [reflexivity|]. split; [assumption|].
      split; [apply row_equiv_refl|]. split; [assumption|]. split; [auto|].
      right. intros r Hr. apply (find_first_None _ _ _ Ef). lia. }
  destruct Hmid as (c1 & t1 & -> & Hwf1 & Heq1 & Hlow1 & Hsat1 & Hpiv).
  destruct (gauss_below_spec W n i c1 t1 Hwf1 Hi) as (Hwf2 & Heq2 & _).
  destruct (gauss_below_cells W n i c1 t1 Hwf1 Hi) as (Hcell & Htgt).
  set (st := for_range (i + 1) n (gauss_below W i) (c1, t1)) in *.
  split.
  - assumption.
  - eapply row_equiv_trans; [exact Heq|]. eapply row_equiv_trans; eassumption.
  - intros col r Hcol Hr. rewrite Hcell by lia.
    destruct (decide (i < r < n)) as [Hir|Hir].
    + destruct (decide (col = i)) as [->|Hne].
      * destruct Hpiv as [Hone|Hnone].
        -- rewrite Hone. destruct (cell c1 r i); reflexivity.
        -- rewrite (Hnone r Hir). reflexivity.
      * rewrite (Hlow1 col r), (Hlow1 col i) by lia. rewrite andb_false_r. reflexivity.
    + apply Hlow1; lia.
  - intros x Hx. apply Hsat, Hsat1. intros r Hr.
    pose proof (Hx r Hr) as Hxr. rewrite dot_cells in Hxr.
    rewrite Htgt in Hxr. rewrite dot_cells.
    destruct (decide (i < r < n)) as [Hir|Hir].
    + rewrite (xsum_ext W _ (fun j => xorb (cell c1 r j && (x !!! j))
                                         (cell c1 r i && (cell c1 i j && (x !!! j))))) in Hxr.
      2: { intros j Hj. rewrite Hcell by assumption.
           destruct (decide (i < r < n)); [|lia].
           destruct (cell c1 r j), (cell c1 r i), (cell c1 i j), (x !!! j); reflexivity. }
      rewrite xsum_xorb, xsum_andb_l in Hxr.
      pose proof (Hx i Hi) as Hxi. rewrite dot_cells in Hxi. rewrite Htgt in Hxi.
      destruct (decide (i < i < n)); [lia|].
      rewrite (xsum_ext W _ (fun j => cell c1 i j && (x !!! j))) in Hxi.
      2: { intros j Hj. rewrite Hcell by assumption.
           destruct (decide (i < i < n)); [lia|reflexivity]. }
      rewrite Hxi in Hxr.
      destruct (xsum W (fun j => cell c1 r j && (x !!! j))), (cell c1 r i), (t1 !!! i), (t1 !!! r);
        cbn in Hxr; congruence.
    + rewrite <- Hxr. apply xsum_ext. intros j Hj. rewrite Hcell by assumption.
      destruct (decide (i < r < n)); [lia|reflexivity].
Qed.

Lemma gaussianEliminate_unfold W s :
  gaussianEliminate W s =
    mkSolver (independent_rows s)
      (fst (for_range 0 W (gauss_column W (independent_rows s)) (contents s, targets s)))
      (snd (for_range 0 W (gauss_column W (independent_rows s)) (contents s, targets s))).
Proof. unfold gaussianEliminate. destruct (for_range 0 W _ _). reflexivity. Qed.

Lemma gaussianEliminate_inv W s :
  gauss_wf W (independent_rows s) (contents s) (targets s) →
  gauss_inv W (independent_rows s) W (contents s) (targets s)
    (contents (gaussianEliminate W s)) (targets (gaussianEliminate W s)).
Proof.
  intros Hwf. rewrite gaussianEliminate_unfold. cbn [contents targets].
  pose (P := fun (i : nat) (st : list bvec * list bool) =>
               gauss_inv W (independent_rows s) i (contents s) (targets s) (fst st) (snd st)).
  apply (for_range_inv P); unfold P; clear P; [lia| |].
  - split; [assumption|apply row_equiv_refl|intros col r Hcol; lia|auto].
  - intros i [c t] Hi Hinv. cbn [fst snd] in *. apply gauss_column_inv; [assumption|lia].
Qed.

(** On a matrix that is already triangular the elimination changes nothing. *)
Lemma gauss_column_id W n i c t :
  (∀ r, i < r < n → cell c r i = false) → gauss_column W n i (c, t) = (c, t).
Proof.
  intros Hz. rewrite gauss_column_unfold.
  assert (Hmid : match find_first i n (fun j => cell c j i) with
                 | Some j => (swap_at c j i, swap_at t j i)
                 | None => (c, t)
                 end = (c, t)).
  { destruct (find_first i n (fun j => cell c j i)) as [j|] eqn:Ef; [|reflexivity].
    apply find_first_Some in Ef. destruct Ef as (Hj & Hji & _).
    destruct (decide (j = i)) as [->|Hne]; [rewrite !swap_at_same; reflexivity|].
    rewrite Hz in Hji by lia. discriminate. }
  rewrite Hmid. destruct (decide (i + 1 ≤ n)); [|apply for_range_ge; lia].
  apply (for_range_inv (fun _ st => st = (c, t))); [assumption|reflexivity|].
  intros k st Hk ->. unfold gauss_below. rewrite Hz by lia. reflexivity.
Qed.

Lemma gaussianEliminate_id W s :
  lower_zero (independent_rows s) W (contents s) → gaussianEliminate W s = s.
Proof.
  intros Hlow. rewrite gaussianEliminate_unfold.
  assert (E : for_range 0 W (gauss_column W (independent_rows s)) (contents s, targets s)
              = (contents s, targets s)).
  { apply (for_range_inv (fun _ st => st = (contents s, targets s))); [lia|reflexivity|].
    intros i st Hi ->. apply gauss_column_id. intros r Hr. apply Hlow; lia. }
  rewrite E. destruct s; reflexivity.
Qed.

Lemma gaussianEliminate_rank W s :
  independent_rows (gaussianEliminate W s) = independent_rows s.
Proof. rewrite gaussianEliminate_unfold. reflexivity. Qed.

(** [gaussianEliminate] may be repeated: the second pass finds the matrix
    triangular and leaves the solver as it is. *)
Lemma gaussianEliminate_idempotent W s :
  gauss_wf W (independent_rows s) (contents s) (targets s) →
  gaussianEliminate W (gaussianEliminate W s) = gaussianEliminate W s.
Proof.
  intros Hwf. apply gaussianEliminate_id. rewrite gaussianEliminate_rank.
  apply (gaussianEliminate_inv W s Hwf).
Qed.

(** ** A triangular matrix of independent rows has a unit diagonal *)

Lemma lincomb_unit n m k b col :
  k < n → lincomb n (fun r => if decide (r = k) then b else false) m col = b && cell m k col.
Proof.
  intros Hk. unfold lincomb.
  rewrite (xsum_ext n _ (fun r => if decide (r = k) then b && cell m k col else false)).
  - rewrite xsum_delta. destruct (decide (k < n)); [reflexivity|lia].
  - intros r _. destruct (decide (r = k)) as [->|]; reflexivity.
Qed.

(** The rows from [m0] on of a triangular matrix with ones on their diagonal
    combine to every vector that is zero left of column [m0]. *)
Lemma triangular_span W c k :
  lower_zero W W c → k ≤ W →
  (∀ d, W - k ≤ d < W → cell c d d = true) →
  ∀ v : nat → bool, (∀ col, col < W - k → v col = false) →
  ∃ sel, (∀ r, r < W - k → sel r = false) ∧ ∀ col, col < W → lincomb W sel c col = v col.
Proof.
  intros Hlow. induction k as [|k IH]; intros Hk Hdiag v Hv.
  - exists (fun _ => false). split; [reflexivity|].
    intros col Hcol. rewrite zero_on_lincomb by (intros ? ?; reflexivity).
    symmetry. apply Hv. lia.
  - set (m0 := W - S k).
    set (v' := fun col => xorb (v col) (v m0 && cell c m0 col)).
    destruct (IH ltac:(lia) ltac:(intros d Hd; apply Hdiag; lia) v') as (sel & Hsel & Hcomb).
    { intros col Hcol. unfold v'. destruct (decide (col = m0)) as [->|Hne].
      - rewrite Hdiag by (unfold m0; lia). destruct (v m0); reflexivity.
      - rewrite Hv by (unfold m0 in *; lia).
        rewrite (Hlow col m0) by (unfold m0 in *; lia). rewrite andb_false_r. reflexivity. }
    exists (fun r => xorb (sel r) (if decide (r = m0) then v m0 else false)). split.
    + intros r Hr. rewrite Hsel by lia. destruct (decide (r = m0)); [unfold m0 in *; lia|reflexivity].
    + intros col Hcol. rewrite lincomb_xorb, Hcomb, lincomb_unit by (assumption || (unfold m0; lia)).
      unfold v'. destruct (v col), (v m0 && cell c m0 col); reflexivity.
Qed.

Lemma triangular_unit_diagonal W c :
  lower_zero W W c → lin_indep W W c → ∀ d, d < W → cell c d d = true.
Proof.
  intros Hlow Hind.
  assert (H : ∀ k, k ≤ W → ∀ d, W - k ≤ d < W → cell c d d = true).
  { induction k as [|k IH]; intros Hk d Hd; [lia|].
    destruct (decide (W - k ≤ d)) as [|Hlt]; [apply IH; lia|].
    assert (d = W - S k) by lia. subst d. set (d := W - S k) in *.
    destruct (cell c d d) eqn:Edd; [reflexivity|]. exfalso.
    destruct (triangular_span W c k Hlow ltac:(lia) ltac:(intros; apply IH; lia) (cell c d))
      as (sel & Hsel & Hcomb).
    { intros col Hcol. destruct (decide (col = d)) as [->|]; [assumption|].
      apply Hlow; unfold d in *; lia. }
    assert (Hz : zero_on W (fun r => xorb (sel r) (if decide (r = d) then true else false))).
    { apply Hind. intros col Hcol.
      rewrite lincomb_xorb, Hcomb, lincomb_unit by (assumption || (unfold d; lia)).
      cbn. apply xorb_nilpotent. }
    specialize (Hz d ltac:(unfold d; lia)). cbn in Hz.
    rewrite Hsel in Hz by (unfold d; lia). destruct (decide (d = d)); [discriminate|congruence]. }
  intros d Hd. apply (H W); lia.
Qed.

(** ** backwardSubstitute *)

Lemma for_range_xor lo hi f :
  lo ≤ hi →
  for_range lo hi (fun i acc => xorb acc (f i)) false =
  xsum hi (fun i => if decide (lo ≤ i) then f i else false).
Proof.
  intros Hle. induction hi as [|hi IH].
  - rewrite for_range_ge by lia. reflexivity.
  - destruct (decide (lo = S hi)) as [->|Hne].
    + rewrite for_range_ge by lia. symmetry. apply xsum_false.
      intros i Hi. destruct (decide (S hi ≤ i)); [lia|reflexivity].
    + rewrite for_range_S by lia. rewrite IH by lia. cbn [xsum].
      destruct (decide (lo ≤ hi)); [reflexivity|lia].
Qed.

Lemma substituted_ext n c t x y idx :
  (∀ i, idx ≤ i < n → x !!! i = y !!! i) → idx < n →
  substituted n c t x idx → substituted n c t y idx.
Proof.
  intros Hext Hidx Hx. unfold substituted in *. rewrite <- Hext, Hx by lia. f_equal.
  apply xsum_ext. intros i Hi. destruct (decide (idx < i)); [|reflexivity].
  rewrite Hext by lia. reflexivity.
Qed.

Section BackwardSubstitute.
Variable Width : nat.
Variable s : MatrixSolver.

Let n := independent_rows s.

Lemma backwardSubstitute_unfold junk :
  backwardSubstitute Width junk s = for_down n 0 (substitute_step s) (map junk (seq 0 Width)).
Proof using Type. reflexivity. Qed.

Lemma substitute_step_spec j result :
  0 < j ≤ n → n ≤ length result →
  (∀ idx, j ≤ idx < n → substituted n (contents s) (targets s) result idx) →
  length (substitute_step s j result) = length result ∧
  ∀ idx, j - 1 ≤ idx < n →
         substituted n (contents s) (targets s) (substitute_step s j result) idx.
Proof using Type.
  intros Hj Hlen Hdone. unfold substitute_step. split; [apply length_insert|].
  intros idx Hidx. destruct (decide (idx = j - 1)) as [->|Hne].
  - unfold substituted. rewrite list_lookup_total_insert_eq by lia.
    rewrite for_range_xor by lia. f_equal. apply xsum_ext. intros i Hi.
    destruct (decide (j - 1 < i)), (decide (j - 1 + 1 ≤ i)); try lia; try reflexivity.
    rewrite list_lookup_total_insert_ne by lia. reflexivity.
  - apply (substituted_ext n _ _ result); [|lia|apply Hdone; lia].
    intros i Hi. rewrite list_lookup_total_insert_ne by lia. reflexivity.
Qed.

Lemma for_down_substituted hi result :
  hi ≤ n → n ≤ length result →
  (∀ idx, hi ≤ idx < n → substituted n (contents s) (targets s) result idx) →
  length (for_down hi 0 (substitute_step s) result) = length result ∧
  ∀ idx, idx < n →
         substituted n (contents s) (targets s) (for_down hi 0 (substitute_step s) result) idx.
Proof using Type.
  revert result. induction hi as [|hi IH]; intros result Hhi Hlen Hdone.
  - rewrite for_down_0. split; [reflexivity|]. intros idx Hidx. apply Hdone. lia.
  - rewrite for_down_S by lia.
    destruct (substitute_step_spec (S hi) result ltac:(lia) Hlen Hdone) as [Hl Hs].
    destruct (IH (substitute_step s (S hi) result) ltac:(lia) ltac:(lia)) as [Hl' Hs'].
    { intros idx Hidx. apply Hs. lia. }
    split; [lia|assumption].
Qed.

Lemma backwardSubstitute_spec junk :
  n ≤ Width →
  length (backwardSubstitute Width junk s) = Width ∧
  ∀ idx, idx < n →
         substituted n (contents s) (targets s) (backwardSubstitute Width junk s) idx.
Proof using Type.
  intros Hn. rewrite backwardSubstitute_unfold.
  destruct (for_down_substituted n (map junk (seq 0 Width))) as [Hl Hs];
    rewrite ?length_map, ?length_seq in *; try lia.
  split; assumption.
Qed.
End BackwardSubstitute.

(** The entries are determined from the last one down: the solution does
    not depend on what the array held before. *)
Lemma substituted_unique n c t x y :
  (∀ idx, idx < n → substituted n c t x idx) →
  (∀ idx, idx < n → substituted n c t y idx) →
  ∀ idx, idx < n → x !!! idx = y !!! idx.
Proof.
  intros Hx Hy.
  assert (H : ∀ k idx, n - k ≤ idx < n → x !!! idx = y !!! idx).
  { induction k as [|k IH]; intros idx Hidx; [lia|].
    rewrite (Hx idx), (Hy idx) by lia. f_equal. apply xsum_ext. intros i Hi.
    destruct (decide (idx < i)); [|reflexivity]. rewrite (IH i) by lia. reflexivity. }
  intros idx Hidx. apply (H n). lia.
Qed.

Lemma list_eq_lookup_total (x y : bvec) n :
  length x = n → length y = n → (∀ i, i < n → x !!! i = y !!! i) → x = y.
Proof.
  intros Hx Hy H. apply (list_eq_same_length x y n); [assumption|assumption|].
  intros i a b Hi Ha Hb. apply list_lookup_total_correct in Ha, Hb.
  rewrite <- Ha, <- Hb. apply H, Hi.
Qed.

Lemma backwardSubstitute_junk W s junk1 junk2 :
  independent_rows s = W → backwardSubstitute W junk1 s = backwardSubstitute W junk2 s.
Proof.
  intros <-.
  destruct (backwardSubstitute_spec (independent_rows s) s junk1) as [Hl1 Hs1]; [lia|].
  destruct (backwardSubstitute_spec (independent_rows s) s junk2) as [Hl2 Hs2]; [lia|].
  apply (list_eq_lookup_total _ _ (independent_rows s)); [assumption|assumption|].
  apply (substituted_unique _ (contents s) (targets s)); assumption.
Qed.

(** On a triangular system with a unit diagonal the substituted vector
    solves every equation. *)
Lemma substituted_sat W c t x :
  lower_zero W W c → (∀ d, d < W → cell c d d = true) →
  (∀ idx, idx < W → substituted W c t x idx) → sat W W c t x.
Proof.
  intros Hlow Hdiag Hx r Hr. rewrite dot_cells.
  rewrite (xsum_split W _ r Hr), Hdiag, andb_true_l by assumption.
  rewrite (Hx r Hr) at 1.
  rewrite (xsum_ext W (fun i => if decide (i = r) then false else cell c r i && (x !!! i))
             (fun i => if decide (r < i) then (x !!! i) && cell c r i else false)).
  - destruct (xsum W _), (t !!! r); reflexivity.
  - intros i Hi. destruct (decide (i = r)) as [->|Hne].
    + destruct (decide (r < r)); [lia|reflexivity].
    + destruct (decide (r < i)); [apply andb_comm|].
      rewrite (Hlow i r) by lia. reflexivity.
Qed.

(** ** solve *)

Lemma solve_unfold W junk s :
  independent_rows s = W →
  solve W junk s = (Ok (backwardSubstitute W junk (gaussianEliminate W s)), gaussianEliminate W s).
Proof. intros Hn. unfold solve. rewrite Hn, Nat.eqb_refl. reflexivity. Qed.

(** Before the rank reaches [Width], [solve()] throws and leaves the solver
    as it is. *)
Lemma solve_underdetermined W junk s :
  independent_rows s ≠ W →
  solve W junk s = (Throw "Could not solve, invalid number of rows", s).
Proof. intros Hn. unfold solve. apply Nat.eqb_neq in Hn. rewrite Hn. reflexivity. Qed.

Lemma solve_underdetermined_witness :
  solve 3 (fun _ => false) new_solver =
    (Throw "Could not solve, invalid number of rows", new_solver).
Proof.
  apply (solve_underdetermined 3 (fun _ => false) new_solver). simpl. discriminate.
Defined.

(** On a full set of independent equations [solve] returns a vector that
    solves each of them. *)
Lemma solve_correct W junk s :
  gauss_wf W W (contents s) (targets s) →
  independent_rows s = W → lin_indep W W (contents s) →
  ∃ x, solve W junk s = (Ok x, gaussianEliminate W s) ∧ length x = W ∧
       sat W W (contents s) (targets s) x.
Proof.
  intros Hwf Hn Hind. rewrite solve_unfold by assumption. eexists. split; [reflexivity|].
  pose proof (gaussianEliminate_inv W s) as Hinv. rewrite Hn in Hinv.
  destruct (Hinv Hwf) as [Hwf' Heq Hlow Hsat].
  pose proof (gaussianEliminate_rank W s) as Hn'. rewrite Hn in Hn'.
  destruct (backwardSubstitute_spec W (gaussianEliminate W s) junk) as [Hlen Hsub]; [lia|].
  rewrite Hn' in Hsub. split; [assumption|].
  apply Hsat, substituted_sat; [assumption| |assumption].
  apply triangular_unit_diagonal; [assumption|].
  apply (lin_indep_refines W W W (contents s)); [lia|apply Heq|assumption].
Qed.

(** ** A full set of independent equations, added to a new solver *)

Lemma xsum_truncate n k f :
  k ≤ n → xsum n (fun i => if decide (i < k) then f i else false) = xsum k f.
Proof.
  intros Hk. induction n as [|n IH].
  - assert (k = 0) by lia. subst. reflexivity.
  - destruct (decide (k = S n)) as [->|Hne].
    + apply xsum_ext. intros i Hi. destruct (decide (i < S n)); [reflexivity|lia].
    + cbn [xsum]. rewrite IH by lia. destruct (decide (n < k)); [lia|]. apply xorb_false_r.
Qed.

Lemma lin_indep_prefix W n k m : lin_indep W n m → k ≤ n → lin_indep W k m.
Proof.
  intros Hind Hk c Hc i Hi.
  assert (Hz : zero_on n (fun i => if decide (i < k) then c i else false)).
  { apply Hind. intros col Hcol. unfold lincomb.
    rewrite (xsum_ext n _ (fun i => if decide (i < k) then c i && cell m i col else false)).
    - rewrite xsum_truncate by assumption. apply Hc, Hcol.
    - intros r _. destruct (decide (r < k)); reflexivity. }
  specialize (Hz i ltac:(lia)). cbn in Hz. destruct (decide (i < k)); [assumption|lia].
Qed.

(** No row of an independent family is a combination of the rows before it. *)
Lemma lin_indep_not_in_span W n m k c :
  lin_indep W n m → k < n → ¬ combines W k c m (m !!! k).
Proof.
  intros Hind Hk Hc.
  assert (Hz : zero_on n (fun i => xorb (if decide (i < k) then c i else false)
                                        (if decide (i = k) then true else false))).
  { apply Hind. intros col Hcol. rewrite lincomb_xorb, lincomb_unit by assumption.
    unfold lincomb.
    rewrite (xsum_ext n _ (fun i => if decide (i < k) then c i && cell m i col else false)).
    - rewrite xsum_truncate by lia. fold (lincomb k c m col). rewrite (Hc col Hcol).
      cbn. apply xorb_nilpotent.
    - intros i _. destruct (decide (i < k)); reflexivity. }
  specialize (Hz k Hk). cbn in Hz. destruct (decide (k < k)); [lia|].
  destruct (decide (k = k)); [discriminate|congruence].
Qed.

Lemma lookup_total_map {A B} `{Inhabited A} `{Inhabited B} (f : A → B) l i :
  i < length l → map f l !!! i = f (l !!! i).
Proof.
  intros Hi. rewrite !lookup_total_nth.
  rewrite (nth_indep _ _ (f inhabitant)) by (rewrite length_map; exact Hi).
  apply map_nth.
Qed.

Lemma combines_ext W n c m m' r :
  (∀ i col, i < n → col < W → cell m i col = cell m' i col) →
  combines W n c m r → combines W n c m' r.
Proof.
  intros Hext Hc col Hcol. rewrite <- (Hc col Hcol). apply xsum_ext. intros i Hi.
  rewrite Hext by assumption. reflexivity.
Qed.

Section FullSystem.
Variable W : nat.
Variable eqs : list (bvec * bool).
Hypothesis Hlen : length eqs = W.
Hypothesis Hind : lin_indep W W (map fst eqs).

Lemma addRows_prefix k :
  k ≤ W →
  addRows W new_solver (take k eqs) =
    mkSolver k (map fst (take k eqs)) (map snd (take k eqs)).
Proof using Hlen Hind.
  induction k as [|k IH]; intros Hk; [reflexivity|].
  destruct (lookup_lt_is_Some_2 eqs k ltac:(lia)) as [e He].
  rewrite (take_S_r eqs k e He), addRows_app, IH by lia. cbn [addRows fold_left].
  set (s := mkSolver k (map fst (take k eqs)) (map snd (take k eqs))).
  assert (Hlk : length (take k eqs) = k) by (rewrite length_take; lia).
  assert (Hswf : solver_wf s).
  { split; cbn; rewrite !length_map; lia. }
  assert (Hcells : ∀ i col, i < S k → cell (map fst eqs) i col =
                                      cell (map fst (take k eqs) ++ [fst e]) i col).
  { intros i col Hi. unfold cell. f_equal.
    rewrite lookup_total_map by lia.
    destruct (decide (i < k)).
    - rewrite lookup_total_app_l by (rewrite length_map; lia).
      rewrite lookup_total_map by lia. rewrite lookup_total_take_lt by lia. reflexivity.
    - assert (i = k) by lia. subst i.
      rewrite lookup_total_app_r by (rewrite length_map; lia).
      rewrite length_map, Hlk, Nat.sub_diag. cbn.
      rewrite (list_lookup_total_correct _ _ _ He). reflexivity. }
  assert (Hcells' : ∀ i col, i < k → cell (map fst eqs) i col = cell (contents s) i col).
  { intros i col Hi. rewrite Hcells by lia. unfold cell, s. cbn.
    rewrite lookup_total_app_l by (rewrite length_map; lia). reflexivity. }
  rewrite (addRow_independent W s (fst e) (snd e) Hswf).
  - cbn. rewrite !length_app, !length_map, Hlk. cbn.
    replace (k + 1 - 1) with k by lia. rewrite !swap_at_same, !map_app. reflexivity.
  - cbn [independent_rows s]. apply (lin_indep_ext W k (map fst eqs)); [auto|].
    apply (lin_indep_prefix W W); [assumption|lia].
  - cbn [independent_rows s]. intros c Hc.
    apply (lin_indep_not_in_span W W (map fst eqs) k c Hind ltac:(lia)).
    rewrite lookup_total_map, (list_lookup_total_correct _ _ _ He) by lia.
    revert Hc. apply combines_ext. intros i col Hi _. symmetry. apply Hcells'. exact Hi.
Qed.

Lemma addRows_full : addRows W new_solver eqs = mkSolver W (map fst eqs) (map snd eqs).
Proof using Hlen Hind.
  rewrite <- (take_ge eqs W) at 1 by lia. rewrite addRows_prefix by lia.
  rewrite take_ge by lia. reflexivity.
Qed.
End FullSystem.

(** ** The claims about the solver *)

Lemma lookup_total_In {A} `{Inhabited A} (l : list A) i : i < length l → In (l !!! i) l.
Proof. intros Hi. rewrite lookup_total_nth. apply nth_In, Hi. Qed.

Lemma In_lookup_total {A} `{Inhabited A} (l : list A) x :
  In x l → ∃ i, i < length l ∧ l !!! i = x.
Proof.
  intros Hx. destruct (In_nth l x inhabitant Hx) as (i & Hi & E).
  exists i. split; [assumption|]. rewrite lookup_total_nth. exact E.
Qed.

(** C3. [W] equations with linearly independent coefficient rows, added to a
    new [MatrixSolver<W>] by [addRow], raise [getIndependent()] to [W];
    [solve()] then returns a vector whose GF(2) dot product with the
    coefficient row of each submitted equation is the target bit of that
    equation.  (Independent rows are always consistent.) *)
Theorem solve_full_independent_system (W : nat) (eqs : list (bvec * bool)) (junk : nat → bool) :
  length eqs = W →
  (∀ r t, In (r, t) eqs → length r = W) →
  lin_indep W W (map fst eqs) →
  getIndependent (addRows W new_solver eqs) = W ∧
  ∃ x s', solve W junk (addRows W new_solver eqs) = (Ok x, s') ∧
          length x = W ∧
          ∀ r t, In (r, t) eqs → dot W r x = t.
Proof.
  intros Hlen Hrows Hind. rewrite (addRows_full W eqs Hlen Hind).
  split; [reflexivity|].
  destruct (solve_correct W junk (mkSolver W (map fst eqs) (map snd eqs))) as (x & Hx & Hl & Hsat).
  - unfold gauss_wf. cbn [contents targets]. rewrite !length_map. split; [lia|]. split; [lia|].
    intros r Hr. rewrite lookup_total_map by lia.
    pose proof (lookup_total_In eqs r ltac:(lia)) as Hin.
    destruct (eqs !!! r) as [a b]. exact (Hrows a b Hin).
  - reflexivity.
  - exact Hind.
  - exists x. eexists. split; [exact Hx|]. split; [exact Hl|].
    intros r t Hin. destruct (In_lookup_total eqs _ Hin) as (i & Hi & E).
    specialize (Hsat i ltac:(lia)). cbn [contents targets] in Hsat.
    rewrite !lookup_total_map, E in Hsat by lia. exact Hsat.
Qed.

Lemma scenario_equations_independent : lin_indep 3 3 (map fst scenario_equations).
Proof.
  apply pivots_lin_indep. intros p Hp. exists p. split; [assumption|].
  destruct p as [|[|[|p]]]; try lia; (split; [reflexivity|]);
    intros q Hq; destruct q as [|[|[|q]]]; try lia; reflexivity.
Qed.

(** The scenario with [Bits = 3]. *)
Lemma solve_full_independent_system_witness :
  getIndependent (addRows 3 new_solver scenario_equations) = 3 ∧
  ∃ x s', solve 3 (fun _ => false) (addRows 3 new_solver scenario_equations) = (Ok x, s') ∧
          length x = 3 ∧
          ∀ r t, In (r, t) scenario_equations → dot 3 r x = t.
Proof.
  apply (solve_full_independent_system 3 scenario_equations (fun _ => false)).
  - reflexivity.
  - intros r t Hin. simpl in Hin.
    destruct Hin as [E | [E | [E | []]]]; inversion E; reflexivity.
  - exact scenario_equations_independent.
Defined.

(** C4. On a solver whose accepted rows are linearly independent, [addRow]
    throws exactly when the new coefficient row is a combination of the
    accepted rows and the new target bit is not the one that combination
    implies; the exception is "Invalid equation" and leaves
    [getIndependent()] as it was. *)
Theorem addRow_inconsistent_iff (W : nat) (s : MatrixSolver) (new_row : bvec) (solution : bool) :
  solver_wf s →
  lin_indep W (getIndependent s) (contents s) →
  ((∃ e, fst (addRow W s new_row solution) = Throw e) ↔
   (∃ c, combines W (getIndependent s) c (contents s) new_row ∧
         implied_target (getIndependent s) c (targets s) = negb solution)) ∧
  (∀ e, fst (addRow W s new_row solution) = Throw e →
        e = "Invalid equation" ∧
        getIndependent (snd (addRow W s new_row solution)) = getIndependent s).
Proof.
  intros Hwf Hind. split; [apply addRow_throw_iff; assumption|].
  intros e He. split; [|apply (addRow_throw_rank W s new_row solution e He)].
  revert He. unfold addRow, independent.
  destruct (eliminate_copy _ _ _) as [cc ro].
  destruct (one_vector _ _); [cbn; congruence|].
  destruct (negb _); discriminate.
Qed.

(** After [x0 = 0] was accepted, [x0 = 1] is submitted. *)
Lemma addRow_inconsistent_iff_witness :
  ((∃ e, fst (addRow 2 (mkSolver 1 [[true; false]] [false]) [true; false] true) = Throw e) ↔
   (∃ c, combines 2 1 c [[true; false]] [true; false] ∧
         implied_target 1 c [false] = negb true)) ∧
  (∀ e, fst (addRow 2 (mkSolver 1 [[true; false]] [false]) [true; false] true) = Throw e →
        e = "Invalid equation" ∧
        getIndependent (snd (addRow 2 (mkSolver 1 [[true; false]] [false]) [true; false] true)) = 1).
Proof.
  apply (addRow_inconsistent_iff 2 (mkSolver 1 [[true; false]] [false]) [true; false] true).
  - split; simpl; lia.
  - intros c Hc i Hi. specialize (Hc 0 ltac:(lia)).
    assert (i = 0) by (simpl in Hi; lia). subst i.
    vm_compute in Hc. destruct (c 0); [discriminate|reflexivity].
Defined.

(** C5. After each call of any sequence of [addRow] calls on a new solver,
    redundant and inconsistent ones included, the first [getIndependent()]
    rows are linearly independent, [getIndependent()] is at most [Width],
    and it is not below what it was after any earlier call.  ([take k eqs]
    are the first [k] calls; [addRow(size_t)] decodes its argument and calls
    the [addRow] of this statement.  The rows of the source have length
    [Width]; the statement does not need it.) *)
Theorem addRow_invariant (W : nat) (eqs : list (bvec * bool)) (k : nat) :
  lin_indep W (getIndependent (addRows W new_solver (take k eqs)))
              (contents (addRows W new_solver (take k eqs))) ∧
  getIndependent (addRows W new_solver (take k eqs)) ≤ W ∧
  ∀ k', k' ≤ k →
        getIndependent (addRows W new_solver (take k' eqs)) ≤
        getIndependent (addRows W new_solver (take k eqs)).
Proof.
  destruct (addRows_inv W new_solver (take k eqs) (new_solver_inv W)) as [_ Hr Hind].
  split; [exact Hind|]. split; [exact Hr|].
  intros k' Hk'.
  replace (take k eqs) with (take k' eqs ++ drop k' (take k eqs)).
  - rewrite addRows_app. apply addRows_rank_mono.
  - rewrite <- (take_drop k' (take k eqs)) at 2. rewrite take_take.
    replace (k' `min` k) with k' by lia. reflexivity.
Qed.

(** C6, as amended. On a solver with [getIndependent() == Width], two calls
    of [solve()] with no [addRow] between them return the same vector,
    whatever the result array held before each call; the second call leaves
    the solver as the first one left it, and the rank is unchanged.  (The
    first call does change the stored rows: see the counterexample.) *)
Theorem solve_repeatable (W : nat) (s : MatrixSolver) (junk1 junk2 : nat → bool) :
  gauss_wf W W (contents s) (targets s) →
  getIndependent s = W →
  ∃ x s', solve W junk1 s = (Ok x, s') ∧ solve W junk2 s' = (Ok x, s') ∧
          getIndependent s' = getIndependent s.
Proof.
  intros Hwf Hn. unfold getIndependent in *.
  exists (backwardSubstitute W junk1 (gaussianEliminate W s)), (gaussianEliminate W s).
  split; [apply solve_unfold; assumption|].
  rewrite solve_unfold by (rewrite gaussianEliminate_rank; assumption).
  rewrite gaussianEliminate_idempotent by (rewrite Hn; assumption).
  split; [|apply gaussianEliminate_rank].
  f_equal. f_equal. apply backwardSubstitute_junk.
  rewrite gaussianEliminate_rank. assumption.
Qed.

(** The solver after [x1 = 1] and [x0 = 0] were added in this order. *)
Lemma solve_repeatable_witness :
  ∃ x s', solve 2 (fun _ => false) (mkSolver 2 [[false; true]; [true; false]] [true; false])
            = (Ok x, s') ∧
          solve 2 (fun _ => true) s' = (Ok x, s') ∧
          getIndependent s' = 2.
Proof.
  apply (solve_repeatable 2 (mkSolver 2 [[false; true]; [true; false]] [true; false])
           (fun _ => false) (fun _ => true)).
  - split; [simpl; lia|]. split; [simpl; lia|].
    intros r Hr. destruct r as [|[|r]]; [reflexivity|reflexivity|lia].
  - reflexivity.
Defined.

(** C6, the counterexample. [x1 = 1] and [x0 = 0] are added in this order;
    [solve()] swaps the two stored rows and their targets. *)
Lemma solve_reorders_rows :
  snd (solve 2 (fun _ => false)
         (addRows 2 new_solver [([false; true], true); ([true; false], false)])) ≠
  addRows 2 new_solver [([false; true], true); ([true; false], false)].
Proof. vm_compute. discriminate. Qed.

(** C9. On a [MatrixSolver<3>], [addRow(0b0110)], [addRow(0b0101)] and
    [addRow(0b1001)] return without an exception and raise the rank to 1, 2
    and 3; [solve()] then returns [(1, 1, 1)], which satisfies the three
    equations and is the only vector of width 3 that does. *)
Theorem scenario_three_equations (junk : nat → bool) :
  let s1 := snd (addRow_encoded 3 new_solver 6) in
  let s2 := snd (addRow_encoded 3 s1 5) in
  let s3 := snd (addRow_encoded 3 s2 9) in
  fst (addRow_encoded 3 new_solver 6) = Ok () ∧
  fst (addRow_encoded 3 s1 5) = Ok () ∧
  fst (addRow_encoded 3 s2 9) = Ok () ∧
  getIndependent s1 = 1 ∧ getIndependent s2 = 2 ∧ getIndependent s3 = 3 ∧
  contents s3 = [[true; true; false]; [false; true; false]; [false; false; true]] ∧
  targets s3 = [false; true; true] ∧
  fst (solve 3 junk s3) = Ok [true; true; true] ∧
  (∀ i, i < 3 → dot 3 (contents s3 !!! i) [true; true; true] = targets s3 !!! i) ∧
  (∀ x, length x = 3 →
        (∀ i, i < 3 → dot 3 (contents s3 !!! i) x = targets s3 !!! i) →
        x = [true; true; true]).
Proof.
  cbv zeta. repeat split; try (vm_compute; reflexivity).
  - intros i Hi. destruct i as [|[|[|i]]]; try lia; vm_compute; reflexivity.
  - intros x Hx H.
    destruct x as [|a [|b [|c [|]]]]; try discriminate.
    pose proof (H 0 ltac:(lia)) as H0. pose proof (H 1 ltac:(lia)) as H1.
    pose proof (H 2 ltac:(lia)) as H2. vm_compute in H0, H1, H2.
    destruct a, b, c; try discriminate; reflexivity.
Qed.

(** ** solveEncoded *)

Lemma solveEncoded_unfold W junk s :
  solveEncoded W junk s =
    match solve W junk s with
    | (Ok solution, s') => (Ok (encode_solution solution), s')
    | (Throw what, s') => (Throw what, s')
    end.
Proof. reflexivity. Qed.

Local Open Scope Z_scope.

Lemma testbit_b2z_shift (b : bool) (k j : nat) :
  Z.testbit (wrap (Z.shiftl (Z.b2z b) (Z.of_nat k))) (Z.of_nat j) =
    bool_decide (j = k) && bool_decide (j < 64)%nat && b.
Proof.
  unfold wrap. destruct (decide (j < 64)%nat) as [Hj|Hj].
  - rewrite Z.mod_pow2_bits_low by lia. rewrite Z.shiftl_spec by lia.
    rewrite (bool_decide_eq_true_2 (j < 64)%nat) by assumption. rewrite andb_true_r.
    destruct (decide (j = k)) as [->|Hne].
    + rewrite Z.sub_diag, Z.b2z_bit0, bool_decide_eq_true_2 by reflexivity. reflexivity.
    + rewrite bool_decide_eq_false_2 by assumption. cbn.
      destruct (Z.of_nat j - Z.of_nat k) as [|p|p] eqn:E; [lia| |reflexivity].
      destruct b; reflexivity.
  - rewrite Z.mod_pow2_bits_high by lia.
    rewrite (bool_decide_eq_false_2 (j < 64)%nat) by assumption.
    rewrite andb_false_r. reflexivity.
Qed.

(** Bit 0 of the encoding is set and bit [i + 1] is entry [i] of the vector. *)
Lemma encode_solution_bits solution j :
  Z.testbit (encode_solution solution) (Z.of_nat j) =
    match j with
    | O => true
    | S i => bool_decide (i < length solution)%nat && bool_decide (S i < 64)%nat && (solution !!! i)
    end.
Proof.
  unfold encode_solution.
  pose (P := fun (k : nat) (result : Z) =>
    ∀ j, Z.testbit result (Z.of_nat j) =
         match j with
         | O => true
         | S i => bool_decide (i < k)%nat && bool_decide (S i < 64)%nat && (solution !!! i)
         end).
  assert (HP : P (length solution)
                 (for_range 0 (length solution)
                    (fun i result =>
                       Z.lor result (wrap (Z.shiftl (Z.b2z (solution !!! i)) (Z.of_nat (i + 1)))))
                    1)).
  { apply (for_range_inv P); unfold P; clear P; [lia| |].
    - intros [|i]; [reflexivity|].
      rewrite bool_decide_eq_false_2 by lia. cbn.
      destruct (Z.of_nat (S i)) eqn:E; try lia; reflexivity.
    - intros k result Hk IH [|i].
      + rewrite Z.lor_spec, IH, testbit_b2z_shift. reflexivity.
      + rewrite Z.lor_spec, IH, testbit_b2z_shift.
        destruct (decide (i = k)) as [->|Hne].
        * rewrite (bool_decide_eq_false_2 (k < k)%nat) by lia.
          rewrite (bool_decide_eq_true_2 (k < S k)%nat) by lia.
          rewrite (bool_decide_eq_true_2 (S k = (k + 1)%nat)) by lia. reflexivity.
        * rewrite (bool_decide_eq_false_2 (S i = (k + 1)%nat)) by lia.
          rewrite orb_false_r. f_equal. f_equal. apply bool_decide_ext. lia. }
  apply HP.
Qed.

(** *** The [int] shifts *)

Lemma int_min_bits j : Z.testbit (wrap (2 ^ 31 - 2 ^ 32)) (Z.of_nat j) = (31 <=? j)%nat && (j <? 64)%nat.
Proof.
  change (wrap (2 ^ 31 - 2 ^ 32)) with (Z.shiftl (Z.ones 33) 31).
  destruct (Nat.leb_spec 31 j) as [H1|H1]; cbn [andb].
  - rewrite Z.shiftl_spec by lia.
    destruct (Nat.ltb_spec j 64) as [H2|H2].
    + apply Z.ones_spec_low. lia.
    + apply Z.ones_spec_high. lia.
  - apply Z.shiftl_spec_low. lia.
Qed.


Lemma int_shl_undefined v k : (32 ≤ k)%nat → int_shl v k = None.
Proof. intros Hk. unfold int_shl. destruct (Nat.ltb_spec k 32); [lia|reflexivity]. Qed.

Lemma int_shl_exact (b : bool) (k : nat) :
  (k ≤ 30)%nat → int_shl (Z.b2z b) k = Some (wrap (Z.shiftl (Z.b2z b) (Z.of_nat k))).
Proof.
  intros Hk. unfold int_shl. destruct (Nat.ltb_spec k 32) as [_|]; [|lia]. cbn zeta.
  assert (Hlt : Z.shiftl (Z.b2z b) (Z.of_nat k) < 2 ^ 31).
  { rewrite Z.shiftl_mul_pow2 by lia.
    assert (2 ^ Z.of_nat k ≤ 2 ^ 30) by (apply Z.pow_le_mono_r; lia).
    destruct b; cbn [Z.b2z]; lia. }
  destruct (Z.ltb_spec (Z.shiftl (Z.b2z b) (Z.of_nat k)) (2 ^ 31)) as [_|]; [|lia].
  reflexivity.
Qed.

Lemma solveEncoded_int_unfold W junk s :
  solveEncoded_int W junk s =
    match solve W junk s with
    | (Ok solution, s') =>
        match encode_solution_int solution with
        | Some result => Some (Ok result, s')
        | None => None
        end
    | (Throw what, s') => Some (Throw what, s')
    end.
Proof. reflexivity. Qed.



Lemma encode_solution_int_undefined solution :
  (32 ≤ length solution)%nat → encode_solution_int solution = None.
Proof.
  unfold encode_solution_int.
  pose (P := fun (n : nat) (r : option Z) => (32 ≤ n)%nat → r = None).
  apply (for_range_inv P); unfold P; clear P; [lia|lia|].
  intros n r Hn IH Hge. destruct (decide (n = 31%nat)) as [->|Hne].
  - rewrite int_shl_undefined by lia. destruct r; reflexivity.
  - rewrite IH by lia. reflexivity.
Qed.

Lemma solveEncoded_int_exact W junk s :
  (W ≤ 30)%nat → solveEncoded_int W junk s = Some (solveEncoded W junk s).
Proof.
  intros HW. rewrite solveEncoded_int_unfold, solveEncoded_unfold. unfold solve.
  destruct (Nat.eqb_spec (independent_rows s) W) as [Hn|Hn]; [|reflexivity].
  destruct (backwardSubstitute_spec W (gaussianEliminate W s) junk) as [Hlen _];
    [rewrite gaussianEliminate_rank; lia|].
  set (x := backwardSubstitute W junk (gaussianEliminate W s)) in *.
  assert (E : encode_solution_int x = Some (encode_solution x)); [|rewrite E; reflexivity].
  unfold encode_solution_int, encode_solution.
  assert (H : ∀ n, (n ≤ length x)%nat →
            for_range 0 n
              (fun i (result : option Z) =>
                 match result, int_shl (Z.b2z (x !!! i)) (i + 1) with
                 | Some result, Some bit => Some (Z.lor result bit)
                 | _, _ => None
                 end) (Some 1) =
            Some (for_range 0 n
                    (fun i result =>
                       Z.lor result (wrap (Z.shiftl (Z.b2z (x !!! i)) (Z.of_nat (i + 1))))) 1)).
  { induction n as [|n IH]; intros Hn'; [reflexivity|].
    rewrite !for_range_S by lia. rewrite IH by lia.
    rewrite int_shl_exact by lia. reflexivity. }
  apply H. lia.
Qed.




(** ** run_feistel_detect *)

Lemma wrap_nonneg_le x : 0 ≤ x → 0 ≤ wrap x ≤ x.
Proof.
  intros Hx. unfold wrap. split; [apply Z.mod_pos_bound; reflexivity|].
  apply Z.mod_le; [assumption|reflexivity].
Qed.

(** The [--i] of the catch block followed by the [++i] of the loop. *)
Lemma catch_keeps_counter i : 0 ≤ i < 2 ^ 64 → wrap (wrap (i - 1) + 1) = i.
Proof.
  intros Hi. unfold wrap. destruct (decide (i = 0)) as [->|Hne]; [reflexivity|].
  rewrite (Z.mod_small (i - 1)) by lia. replace (i - 1 + 1) with i by lia.
  apply Z.mod_small. exact Hi.
Qed.

Lemma solveEncoded_full W junk s :
  independent_rows s = W → ∃ enc s', solveEncoded W junk s = (Ok enc, s').
Proof.
  intros Hn. rewrite solveEncoded_unfold, solve_unfold by assumption. eauto.
Qed.

Section Detect.
Variable Bits : nat.
Variable internal_callback : Z → Z.
Variables rand_alpha rand_beta rand_u : Z.
Variable junk : nat → bool.

Let budget := wrap (2 * Z.of_nat Bits).
Let loop := detect_loop Bits internal_callback rand_alpha rand_beta rand_u junk.

Lemma budget_range : 0 ≤ budget < 2 ^ 64.
Proof using Type. apply wrap_range. Qed.

Lemma loop_done i s samples : budget ≤ i → loop samples i s = Some FeistelBudget.
Proof using Type.
  intros Hi. unfold loop. destruct samples; cbn; fold budget;
    destruct (Z.ltb_spec i budget); (lia || reflexivity).
Qed.

Lemma loop_starved i s : i < budget → loop [] i s = None.
Proof using Type.
  intros Hi. unfold loop. cbn. fold budget. destruct (Z.ltb_spec i budget); (lia || reflexivity).
Qed.

Lemma loop_step i s j samples :
  0 ≤ i < budget →
  loop (j :: samples) i s =
    match addRow_encoded Bits s j with
    | (Throw _, s') => loop samples i s'
    | (Ok _, s') =>
        if (getIndependent s' =? Bits)%nat then
          match solveEncoded Bits junk s' with
          | (Ok enc, _) =>
              let u := wrap rand_u mod wrap (Z.shiftl 1 (Z.of_nat (Bits + 1))) in
              Some (if probe Bits internal_callback rand_alpha rand_beta u =?
                       probe Bits internal_callback rand_alpha rand_beta (Z.lxor u enc)
                    then FeistelSolved else RandomPermutation)
          | (Throw _, s'') => loop samples i s''
          end
        else loop samples (i + 1) s'
    end.
Proof using Type.
  intros Hi. pose proof budget_range as Hb. unfold loop at 1. cbn [detect_loop]. fold budget.
  destruct (Z.ltb_spec i budget); [|lia].
  rewrite catch_keeps_counter by lia. rewrite (wrap_small (i + 1)) by lia.
  reflexivity.
Qed.

(** While the rank stays below [Bits], the counter is the number of
    accepted samples: the loop ends with the budget verdict exactly when
    that number reaches the budget. *)
Lemma loop_counts samples : ∀ i s,
  0 ≤ i →
  (∀ k, (0 < k)%nat → getIndependent (feed_solver Bits s (take k samples)) ≠ Bits) →
  loop samples i s =
    if i + Z.of_nat (accepted Bits s samples) <? budget then None else Some FeistelBudget.
Proof using Type.
  induction samples as [|j samples IH]; intros i s Hi Hrank.
  - cbn [accepted]. destruct (Z.ltb_spec (i + Z.of_nat 0) budget).
    + apply loop_starved. lia.
    + apply loop_done. lia.
  - destruct (Z.lt_ge_cases i budget) as [Hlt|Hge].
    2: { rewrite loop_done by assumption.
         destruct (Z.ltb_spec (i + Z.of_nat (accepted Bits s (j :: samples))) budget);
           [lia|reflexivity]. }
    rewrite loop_step by lia. cbn [accepted].
    pose proof (Hrank 1%nat ltac:(lia)) as H1. cbn in H1.
    assert (Htail : ∀ k, (0 < k)%nat →
              getIndependent (feed_solver Bits (snd (addRow_encoded Bits s j)) (take k samples))
              ≠ Bits).
    { intros k Hk. exact (Hrank (S k) ltac:(lia)). }
    destruct (addRow_encoded Bits s j) as [[[]|e] s'] eqn:E; cbn [snd] in *.
    + destruct (Nat.eqb_spec (getIndependent s') Bits) as [Heq|_]; [contradiction|].
      rewrite IH by (assumption || lia).
      replace (i + 1 + Z.of_nat (accepted Bits s' samples))
        with (i + Z.of_nat (S (accepted Bits s' samples))) by lia.
      reflexivity.
    + apply IH; assumption.
Qed.

(** The loop ends once the budget of accepted samples is used up, if not before. *)
Lemma loop_terminates samples : ∀ i s,
  0 ≤ i → budget ≤ i + Z.of_nat (accepted Bits s samples) →
  ∃ v, loop samples i s = Some v.
Proof using Type.
  induction samples as [|j samples IH]; intros i s Hi Hacc.
  - cbn [accepted] in Hacc. exists FeistelBudget. apply loop_done. lia.
  - destruct (Z.lt_ge_cases i budget) as [Hlt|Hge];
      [|exists FeistelBudget; apply loop_done; assumption].
    rewrite loop_step by lia. cbn [accepted] in Hacc.
    destruct (addRow_encoded Bits s j) as [[[]|e] s'] eqn:E.
    + destruct (Nat.eqb_spec (getIndependent s') Bits) as [Heq|_].
      * destruct (solveEncoded_full Bits junk s' Heq) as (enc & s'' & ->). eauto.
      * apply IH; lia.
    + apply IH; assumption.
Qed.

(** A verdict, once reached, is not changed by further samples. *)
Lemma loop_more samples more : ∀ i s v,
  0 ≤ i → loop samples i s = Some v → loop (samples ++ more) i s = Some v.
Proof using Type.
  induction samples as [|j samples IH]; intros i s v Hi Hv.
  - destruct (Z.lt_ge_cases i budget) as [Hlt|Hge].
    + rewrite loop_starved in Hv by assumption. discriminate.
    + rewrite loop_done in Hv by assumption. rewrite loop_done by assumption. exact Hv.
  - destruct (Z.lt_ge_cases i budget) as [Hlt|Hge].
    2: { rewrite loop_done in Hv by assumption. rewrite loop_done by assumption. exact Hv. }
    cbn [app]. rewrite loop_step in * by lia.
    destruct (addRow_encoded Bits s j) as [[[]|e] s'].
    + destruct (getIndependent s' =? Bits)%nat.
      * destruct (solveEncoded Bits junk s') as [[enc|e'] s'']; [exact Hv|].
        apply IH; assumption.
      * apply IH; [lia|assumption].
    + apply IH; assumption.
Qed.
End Detect.

Lemma draws_app sampler a b :
  draws sampler (a + b) = draws sampler a ++ map sampler (seq a b).
Proof. unfold draws. rewrite seq_app, map_app. reflexivity. Qed.

Lemma take_draws sampler fuel k : (k ≤ fuel)%nat → take k (draws sampler fuel) = draws sampler k.
Proof.
  intros Hk. replace fuel with (k + (fuel - k))%nat by lia. rewrite draws_app.
  rewrite take_app_length'; [reflexivity|]. unfold draws. rewrite length_map, length_seq. reflexivity.
Qed.

(** ** The claims about the controller *)

Lemma take_draws_ge sampler fuel k :
  (fuel ≤ k)%nat → take k (draws sampler fuel) = draws sampler fuel.
Proof. intros Hk. apply take_ge. unfold draws. rewrite length_map, length_seq. exact Hk. Qed.

(** C7. Take a run of [run_feistel_detect] whose first [fuel] samples are
    such that [2 * Bits] of them are accepted by [addRow] and the rank is
    never [Bits].  Then the run ends with the verdict "3-round Feistel (more
    than 2n equations attempted)", and further samples do not change it.
    The samples that [addRow] rejects are not counted: as long as fewer
    than [2 * Bits] samples were accepted, however many were rejected, the
    run is still sampling. *)
Theorem detect_budget_verdict (Bits : nat) (callback : Z → Z) (rand_alpha rand_beta rand_u : Z)
    (junk : nat → bool) (sampler : nat → Z) (fuel : nat) :
  (∀ k, (0 < k ≤ fuel)%nat →
        getIndependent (feed_solver Bits new_solver (draws sampler k)) ≠ Bits) →
  accepted Bits new_solver (draws sampler fuel) = (2 * Bits)%nat →
  (∀ fuel', (fuel ≤ fuel')%nat →
     run_feistel_detect Bits callback rand_alpha rand_beta rand_u junk fuel' sampler
     = Some FeistelBudget) ∧
  (2 * Z.of_nat Bits < 2 ^ 64 →
   ∀ k, (k ≤ fuel)%nat →
        (accepted Bits new_solver (draws sampler k) < 2 * Bits)%nat →
        run_feistel_detect Bits callback rand_alpha rand_beta rand_u junk k sampler = None).
Proof.
  intros Hrank Hacc.
  assert (Hcount : ∀ k, (k ≤ fuel)%nat → (0 < Bits)%nat →
            run_feistel_detect Bits callback rand_alpha rand_beta rand_u junk k sampler =
            if Z.of_nat (accepted Bits new_solver (draws sampler k)) <? wrap (2 * Z.of_nat Bits)
            then None else Some FeistelBudget).
  { intros k Hk HB. unfold run_feistel_detect. fold (draws sampler k).
    rewrite loop_counts; [reflexivity|lia|].
    intros k' Hk'. destruct (decide (k' ≤ k)%nat).
    - rewrite take_draws by assumption. apply Hrank. lia.
    - rewrite take_draws_ge by lia. destruct (decide (k = 0)%nat) as [->|].
      + cbn. lia.
      + apply Hrank. lia. }
  split.
  - intros fuel' Hfuel'.
    assert (Hdone : run_feistel_detect Bits callback rand_alpha rand_beta rand_u junk fuel sampler
                    = Some FeistelBudget).
    { destruct (decide (Bits = 0)%nat) as [->|HB].
      - unfold run_feistel_detect. apply loop_done. reflexivity.
      - rewrite Hcount by lia. rewrite Hacc.
        pose proof (wrap_nonneg_le (2 * Z.of_nat Bits) ltac:(lia)).
        destruct (Z.ltb_spec (Z.of_nat (2 * Bits)) (wrap (2 * Z.of_nat Bits))); [lia|reflexivity]. }
    unfold run_feistel_detect in *. fold (draws sampler fuel) in Hdone. fold (draws sampler fuel').
    replace fuel' with (fuel + (fuel' - fuel))%nat by lia. rewrite draws_app.
    apply loop_more; [lia|exact Hdone].
  - intros Hsmall k Hk Hlt. rewrite Hcount by lia.
    rewrite wrap_small by lia.
    destruct (Z.ltb_spec (Z.of_nat (accepted Bits new_solver (draws sampler k))) (2 * Z.of_nat Bits));
      [reflexivity|lia].
Qed.

(** [Bits = 1] and a sampler that returns 0, the redundant equation [0 = 0]. *)
Lemma detect_budget_verdict_witness :
  (∀ fuel', (2 ≤ fuel')%nat →
     run_feistel_detect 1 (fun x => x) 0 0 0 (fun _ => false) fuel' (fun _ => 0) = Some FeistelBudget) ∧
  (2 * Z.of_nat 1 < 2 ^ 64 →
   ∀ k, (k ≤ 2)%nat →
        (accepted 1 new_solver (draws (fun _ => 0%Z) k) < 2 * 1)%nat →
        run_feistel_detect 1 (fun x => x) 0 0 0 (fun _ => false) k (fun _ => 0) = None).
Proof.
  apply (detect_budget_verdict 1 (fun x => x) 0 0 0 (fun _ => false) (fun _ => 0) 2).
  - intros k Hk. destruct k as [|[|[|k]]]; try lia; vm_compute; lia.
  - reflexivity.
Defined.

(** C8, as amended. A run of [run_feistel_detect] ends with a verdict as
    soon as [2 * Bits] of the samples drawn were accepted by [addRow], if it
    has not ended before; further samples do not change the verdict.  Only
    the accepted samples are bounded: each rejected one costs one more
    pass of the loop. *)
Theorem detect_terminates_within_budget (Bits : nat) (callback : Z → Z)
    (rand_alpha rand_beta rand_u : Z) (junk : nat → bool) (sampler : nat → Z) (fuel : nat) :
  (2 * Bits ≤ accepted Bits new_solver (draws sampler fuel))%nat →
  ∃ v, ∀ fuel', (fuel ≤ fuel')%nat →
       run_feistel_detect Bits callback rand_alpha rand_beta rand_u junk fuel' sampler = Some v.
Proof.
  intros Hacc.
  destruct (loop_terminates Bits callback rand_alpha rand_beta rand_u junk
              (draws sampler fuel) 0 new_solver) as [v Hv]; [lia| |].
  - pose proof (wrap_nonneg_le (2 * Z.of_nat Bits) ltac:(lia)). lia.
  - exists v. intros fuel' Hfuel'. unfold run_feistel_detect. fold (draws sampler fuel').
    replace fuel' with (fuel + (fuel' - fuel))%nat by lia. rewrite draws_app.
    apply loop_more; [lia|exact Hv].
Qed.

(** [Bits = 1] and a sampler that returns 0: two samples are accepted. *)
Lemma detect_terminates_within_budget_witness :
  ∃ v, ∀ fuel', (2 ≤ fuel')%nat →
       run_feistel_detect 1 (fun x => x) 0 0 0 (fun _ => false) fuel' (fun _ => 0) = Some v.
Proof.
  apply (detect_terminates_within_budget 1 (fun x => x) 0 0 0 (fun _ => false) (fun _ => 0) 2).
  vm_compute. lia.
Defined.

(** The sample 1 is the equation [0 = 1]: a solver that has accepted nothing
    rejects it, and is left with nothing accepted. *)
Lemma zero_equals_one_rejected s :
  solver_wf s → independent_rows s = 0%nat →
  ∃ e s', addRow_encoded 1 s 1 = (Throw e, s') ∧ solver_wf s' ∧ independent_rows s' = 0%nat.
Proof.
  intros Hwf Hn. unfold addRow_encoded.
  set (new_row := map _ (seq 0 1)). set (solution := negb _).
  assert (Hthrow : ∃ e, fst (addRow 1 s new_row solution) = Throw e).
  { apply addRow_throw_iff; [assumption| |].
    - rewrite Hn. intros c _ i Hi. lia.
    - exists (fun _ => false). rewrite Hn. split.
      + intros col Hcol. assert (col = 0)%nat by lia. subst. reflexivity.
      + reflexivity. }
  destruct Hthrow as [e He].
  destruct (addRow 1 s new_row solution) as [r s'] eqn:E. cbn in He. subst r.
  exists e, s'. split; [reflexivity|].
  pose proof (addRow_wf 1 s new_row solution Hwf) as Hwf'.
  pose proof (addRow_throw_rank 1 s new_row solution e) as Hr.
  rewrite E in Hwf', Hr. cbn [fst snd] in *.
  split; [assumption|]. unfold getIndependent in Hr. rewrite Hr by reflexivity. exact Hn.
Qed.

(** C8, the counterexample. [Bits = 1], the oracle is constantly 0 and the
    masks are 0 and 1, so that [run_f] returns its selector bit, a function
    for which the sample 1 can be measured.  When every draw is 1, the
    equation [0 = 1], the loop never ends: each sample is rejected and the
    counter stays at 0. *)
Lemma detect_never_ends_on_inconsistent_samples :
  ¬ ∃ fuel v,
      run_feistel_detect 1 (fun _ => 0) 0 1 0 (fun _ => false) fuel (fun _ => 1) = Some v.
Proof.
  intros (fuel & v & Hv). unfold run_feistel_detect in Hv.
  assert (H : ∀ fuel lo s, solver_wf s → independent_rows s = 0%nat →
            detect_loop 1 (fun _ => 0) 0 1 0 (fun _ => false)
                        (map (fun _ => 1) (seq lo fuel)) 0 s = None).
  { clear. induction fuel as [|fuel IH]; intros lo s Hwf Hn; [reflexivity|].
    cbn [seq map]. rewrite loop_step by (vm_compute; split; congruence).
    destruct (zero_equals_one_rejected s Hwf Hn) as (e & s' & -> & Hwf' & Hn').
    apply IH; assumption. }
  rewrite H in Hv; [discriminate| |reflexivity]. split; reflexivity.
Qed.

(* ================================================================= *)
(** * Part IV: the routines around the controller *)
(* ================================================================= *)

Local Close Scope Z_scope.

Local Open Scope Z_scope.

(** ** feistel.hpp, further *)

Lemma encrypt_decrypt_round f st key :
  encrypt_round f (decrypt_round f st key) key = st.
Proof.
  destruct st as [l r]. unfold encrypt_round, decrypt_round.
  rewrite Z.lxor_assoc, Z.lxor_nilpotent, Z.lxor_0_r. reflexivity.
Qed.

Lemma encrypt_decrypt_rounds f keys st :
  fold_left (encrypt_round f) keys (fold_left (decrypt_round f) (rev keys) st) = st.
Proof.
  revert st. induction keys as [|k keys IH]; intros st; simpl.
  - reflexivity.
  - rewrite fold_left_app. simpl. rewrite encrypt_decrypt_round. apply IH.
Qed.

Lemma decrypt_rounds_fit Bits f keys st :
  (2 * Bits ≤ 64)%nat →
  (∀ r k, In k keys → fits Bits (f r k)) → fits_pair Bits st →
  fits_pair Bits (fold_left (decrypt_round f) keys st).
Proof.
  intros HB. revert st. induction keys as [|k keys IH]; intros [l r] Hf [Hl Hr]; simpl in *.
  - split; assumption.
  - apply IH; [intros; apply Hf; auto|]. split; simpl; [|assumption].
    apply fits_lxor; [assumption|].
    rewrite (wrap_fits Bits) by auto. apply Hf. auto.
Qed.

(** The halves the routines start from fit whatever the input is. *)
Lemma initial_halves_fit Bits x :
  (2 * Bits ≤ 64)%nat →
  fits_pair Bits (Z.shiftr (Z.land x (l_mask Bits)) (Z.of_nat Bits), Z.land x (r_mask Bits)).
Proof.
  intros HB. pose proof (pow2_half_pos Bits). split; simpl.
  - rewrite (l_mask_ones Bits HB), Z.shiftr_land.
    rewrite Z.shiftr_shiftl_l, Z.sub_diag, Z.shiftl_0_r by lia.
    rewrite Z.land_ones by lia. apply Z.mod_pos_bound. lia.
  - rewrite (r_mask_ones Bits HB), Z.land_ones by lia. apply Z.mod_pos_bound. lia.
Qed.

Lemma initial_halves_block Bits x :
  (2 * Bits ≤ 64)%nat → 0 ≤ x < 2 ^ (2 * Z.of_nat Bits) →
  (Z.shiftr (Z.land x (l_mask Bits)) (Z.of_nat Bits), Z.land x (r_mask Bits)) =
  (x / 2 ^ Z.of_nat Bits, x mod 2 ^ Z.of_nat Bits).
Proof.
  intros HB Hx. destruct (block_halves Bits x Hx) as (Hl & Hr & Ex).
  rewrite Ex at 1 2. rewrite split_l, split_r by auto. reflexivity.
Qed.

Lemma join_halves_range Bits st :
  fits_pair Bits st → 0 ≤ join_halves Bits st < 2 ^ (2 * Z.of_nat Bits).
Proof.
  intros [Hl Hr]. unfold join_halves, fits in *.
  replace (2 * Z.of_nat Bits) with (Z.of_nat Bits + Z.of_nat Bits) by lia.
  rewrite Z.pow_add_r by lia. nia.
Qed.

Lemma join_halves_split Bits st :
  fits_pair Bits st →
  join_halves Bits st / 2 ^ Z.of_nat Bits = fst st ∧
  join_halves Bits st mod 2 ^ Z.of_nat Bits = snd st.
Proof.
  intros [Hl Hr]. unfold join_halves, fits in *. pose proof (pow2_half_pos Bits).
  split.
  - rewrite Z.div_add by lia. rewrite Z.div_small by lia. lia.
  - rewrite Z.mod_add by lia. apply Z.mod_small. lia.
Qed.

(** [run_feistel_encrypt] and [run_feistel_decrypt] as maps on pairs of halves. *)
Lemma run_feistel_encrypt_halves Bits f keys x :
  (2 * Bits ≤ 64)%nat → (∀ r k, In k keys → fits Bits (f r k)) →
  0 ≤ x < 2 ^ (2 * Z.of_nat Bits) →
  run_feistel_encrypt Bits f x keys =
    join_halves Bits (fold_left (encrypt_round f) keys
                        (x / 2 ^ Z.of_nat Bits, x mod 2 ^ Z.of_nat Bits)) ∧
  fits_pair Bits (fold_left (encrypt_round f) keys
                    (x / 2 ^ Z.of_nat Bits, x mod 2 ^ Z.of_nat Bits)).
Proof.
  intros HB Hf Hx. destruct (block_halves Bits x Hx) as (Hl & Hr & Ex).
  pose proof (encrypt_rounds_fit Bits f keys (_, _) HB Hf (conj Hl Hr)) as Hfit.
  split; [|exact Hfit].
  unfold run_feistel_encrypt.
  pose proof (initial_halves_block Bits x HB Hx) as E. injection E as -> ->.
  destruct (fold_left _ _ _) as [l' r']. destruct Hfit as [Hl' Hr']. simpl in *.
  rewrite join_add by auto. reflexivity.
Qed.

Lemma run_feistel_decrypt_halves Bits f keys x :
  (2 * Bits ≤ 64)%nat → (∀ r k, In k keys → fits Bits (f r k)) →
  0 ≤ x < 2 ^ (2 * Z.of_nat Bits) →
  run_feistel_decrypt Bits f x keys =
    join_halves Bits (fold_left (decrypt_round f) (rev keys)
                        (x / 2 ^ Z.of_nat Bits, x mod 2 ^ Z.of_nat Bits)) ∧
  fits_pair Bits (fold_left (decrypt_round f) (rev keys)
                    (x / 2 ^ Z.of_nat Bits, x mod 2 ^ Z.of_nat Bits)).
Proof.
  intros HB Hf Hx. destruct (block_halves Bits x Hx) as (Hl & Hr & Ex).
  assert (Hf' : ∀ r k, In k (rev keys) → fits Bits (f r k))
    by (intros r k Hk; apply Hf, in_rev, Hk).
  pose proof (decrypt_rounds_fit Bits f (rev keys) (_, _) HB Hf' (conj Hl Hr)) as Hfit.
  split; [|exact Hfit].
  unfold run_feistel_decrypt.
  pose proof (initial_halves_block Bits x HB Hx) as E. injection E as -> ->.
  destruct (fold_left _ _ _) as [l' r']. destruct Hfit as [Hl' Hr']. simpl in *.
  rewrite join_add by auto. reflexivity.
Qed.

(** X3. With a round function that returns half-blocks, encryption and
    decryption send blocks of [2 * Bits] bits to such blocks, and encryption
    undoes decryption. *)
Theorem feistel_encrypt_permutes_blocks (Bits : nat) (f : Z → Z → Z) (keys : list Z) (x : Z) :
  (2 * Bits ≤ 64)%nat →
  (∀ r k, In k keys → 0 ≤ f r k < 2 ^ Z.of_nat Bits) →
  0 ≤ x < 2 ^ (2 * Z.of_nat Bits) →
  0 ≤ run_feistel_encrypt Bits f x keys < 2 ^ (2 * Z.of_nat Bits) ∧
  0 ≤ run_feistel_decrypt Bits f x keys < 2 ^ (2 * Z.of_nat Bits) ∧
  run_feistel_encrypt Bits f (run_feistel_decrypt Bits f x keys) keys = x.
Proof.
  intros HB Hf Hx.
  destruct (run_feistel_encrypt_halves Bits f keys x HB Hf Hx) as [Ee He].
  destruct (run_feistel_decrypt_halves Bits f keys x HB Hf Hx) as [Ed Hd].
  split; [rewrite Ee; apply join_halves_range, He|].
  pose proof (join_halves_range Bits _ Hd) as Hrange.
  split; [rewrite Ed; exact Hrange|].
  rewrite <- Ed in Hrange.
  destruct (run_feistel_encrypt_halves Bits f keys _ HB Hf Hrange) as [-> _].
  rewrite Ed. destruct (join_halves_split Bits _ Hd) as [-> ->].
  rewrite <- surjective_pairing, encrypt_decrypt_rounds.
  unfold join_halves. simpl. destruct (block_halves Bits x Hx) as (_ & _ & Ex). lia.
Qed.

Lemma feistel_encrypt_permutes_blocks_witness :
  0 ≤ run_feistel_encrypt 4 test_round_function 201 [1; 2; 3] < 2 ^ (2 * Z.of_nat 4) ∧
  0 ≤ run_feistel_decrypt 4 test_round_function 201 [1; 2; 3] < 2 ^ (2 * Z.of_nat 4) ∧
  run_feistel_encrypt 4 test_round_function
    (run_feistel_decrypt 4 test_round_function 201 [1; 2; 3]) [1; 2; 3] = 201.
Proof.
  apply (feistel_encrypt_permutes_blocks 4 test_round_function [1; 2; 3] 201).
  - lia.
  - apply test_round_function_fits.
  - vm_compute. split; congruence.
Defined.

(** Decryption is encryption with the keys reversed, between two exchanges
    of the halves. *)
Lemma decrypt_round_mirror f st key :
  decrypt_round f st key =
    (let '(l, r) := encrypt_round f (snd st, fst st) key in (r, l)).
Proof. destruct st as [l r]. reflexivity. Qed.

Lemma decrypt_rounds_mirror f keys st :
  fold_left (decrypt_round f) keys st =
    (let '(l, r) := fold_left (encrypt_round f) keys (snd st, fst st) in (r, l)).
Proof.
  revert st. induction keys as [|k keys IH]; intros [l r]; simpl.
  - reflexivity.
  - rewrite IH. reflexivity.
Qed.

Lemma swap_halves_range Bits x :
  0 ≤ x < 2 ^ (2 * Z.of_nat Bits) →
  0 ≤ swap_halves Bits x < 2 ^ (2 * Z.of_nat Bits) ∧
  swap_halves Bits x / 2 ^ Z.of_nat Bits = x mod 2 ^ Z.of_nat Bits ∧
  swap_halves Bits x mod 2 ^ Z.of_nat Bits = x / 2 ^ Z.of_nat Bits.
Proof.
  intros Hx. destruct (block_halves Bits x Hx) as (Hl & Hr & _).
  pose proof (join_halves_range Bits (x mod 2 ^ Z.of_nat Bits, x / 2 ^ Z.of_nat Bits)
                (conj Hr Hl)) as H1.
  pose proof (join_halves_split Bits (x mod 2 ^ Z.of_nat Bits, x / 2 ^ Z.of_nat Bits)
                (conj Hr Hl)) as H2.
  unfold join_halves in *. simpl in *. unfold swap_halves.
  rewrite (Z.add_comm (_ * _)). auto.
Qed.

(** X4. Decryption is encryption with the keys in reverse order, between
    two exchanges of the halves of the block. *)
Theorem feistel_decrypt_is_mirrored_encrypt (Bits : nat) (f : Z → Z → Z) (keys : list Z) (x : Z) :
  (2 * Bits ≤ 64)%nat →
  (∀ r k, In k keys → 0 ≤ f r k < 2 ^ Z.of_nat Bits) →
  0 ≤ x < 2 ^ (2 * Z.of_nat Bits) →
  run_feistel_decrypt Bits f x keys =
    swap_halves Bits (run_feistel_encrypt Bits f (swap_halves Bits x) (rev keys)).
Proof.
  intros HB Hf Hx.
  assert (Hf' : ∀ r k, In k (rev keys) → fits Bits (f r k))
    by (intros r k Hk; apply Hf, in_rev, Hk).
  destruct (run_feistel_decrypt_halves Bits f keys x HB Hf Hx) as [-> _].
  destruct (swap_halves_range Bits x Hx) as (Hs & Es1 & Es2).
  destruct (run_feistel_encrypt_halves Bits f (rev keys) _ HB Hf' Hs) as [-> Hfit].
  rewrite Es1, Es2 in *. rewrite decrypt_rounds_mirror. simpl.
  destruct (fold_left (encrypt_round f) (rev keys) _) as [l r].
  destruct (join_halves_split Bits (l, r) Hfit) as [E1 E2].
  unfold swap_halves. rewrite E1, E2. unfold join_halves. simpl. lia.
Qed.

Lemma feistel_decrypt_is_mirrored_encrypt_witness :
  run_feistel_decrypt 4 test_round_function 201 [1; 2; 3] =
    swap_halves 4 (run_feistel_encrypt 4 test_round_function (swap_halves 4 201) (rev [1; 2; 3])).
Proof.
  apply (feistel_decrypt_is_mirrored_encrypt 4 test_round_function [1; 2; 3] 201).
  - lia.
  - apply test_round_function_fits.
  - vm_compute. split; congruence.
Defined.

(** X5. Rounds compose: encryption with the keys [k1 ++ k2] is encryption
    with [k1], then with [k2]. *)
Theorem feistel_encrypt_rounds_compose (Bits : nat) (f : Z → Z → Z) (k1 k2 : list Z) (x : Z) :
  (2 * Bits ≤ 64)%nat →
  (∀ r k, In k k1 → 0 ≤ f r k < 2 ^ Z.of_nat Bits) →
  run_feistel_encrypt Bits f x (k1 ++ k2) =
    run_feistel_encrypt Bits f (run_feistel_encrypt Bits f x k1) k2.
Proof.
  intros HB Hf.
  pose proof (initial_halves_fit Bits x HB) as H0.
  pose proof (encrypt_rounds_fit Bits f k1 _ HB Hf H0) as H1.
  unfold run_feistel_encrypt at 1 2 3. rewrite fold_left_app.
  destruct (fold_left (encrypt_round f) k1 _) as [l r]. destruct H1 as [Hl Hr]. simpl in *.
  destruct (feistel_split Bits l r HB Hl Hr) as [-> ->]. reflexivity.
Qed.

Lemma feistel_encrypt_rounds_compose_witness :
  run_feistel_encrypt 4 test_round_function 201 ([1; 2] ++ [3]) =
    run_feistel_encrypt 4 test_round_function (run_feistel_encrypt 4 test_round_function 201 [1; 2]) [3].
Proof.
  apply (feistel_encrypt_rounds_compose 4 test_round_function [1; 2] [3] 201).
  - lia.
  - intros r k Hk. apply test_round_function_fits. simpl in *. tauto.
Defined.

(** X6. The two routines read the low [2 * Bits] bits of their input only. *)
Theorem feistel_reads_low_bits (Bits : nat) (f : Z → Z → Z) (keys : list Z) (x : Z) :
  (2 * Bits ≤ 64)%nat →
  run_feistel_encrypt Bits f x keys =
    run_feistel_encrypt Bits f (x mod 2 ^ (2 * Z.of_nat Bits)) keys ∧
  run_feistel_decrypt Bits f x keys =
    run_feistel_decrypt Bits f (x mod 2 ^ (2 * Z.of_nat Bits)) keys.
Proof.
  intros HB.
  destruct (feistel_masks_input Bits x (x mod 2 ^ (2 * Z.of_nat Bits)) HB) as [Er El].
  { intros n Hn. symmetry. apply Z.mod_pow2_bits_low. lia. }
  unfold run_feistel_encrypt, run_feistel_decrypt. rewrite Er, El. split; reflexivity.
Qed.

Lemma feistel_reads_low_bits_witness :
  run_feistel_encrypt 4 test_round_function 457 [1; 2; 3] =
    run_feistel_encrypt 4 test_round_function (457 mod 2 ^ (2 * Z.of_nat 4)) [1; 2; 3] ∧
  run_feistel_decrypt 4 test_round_function 457 [1; 2; 3] =
    run_feistel_decrypt 4 test_round_function (457 mod 2 ^ (2 * Z.of_nat 4)) [1; 2; 3].
Proof. apply (feistel_reads_low_bits 4 test_round_function [1; 2; 3] 457). lia. Defined.

(** ** feistel.hpp: where the round function is called *)

Lemma on_half_blocks_fits Bits f keys :
  (∀ r k, In k keys → fits Bits r → fits Bits (f r k)) →
  ∀ r k, In k keys → fits Bits (on_half_blocks Bits f r k).
Proof.
  intros Hf r k Hk. unfold on_half_blocks.
  destruct (Z.leb_spec 0 r), (Z.ltb_spec r (2 ^ Z.of_nat Bits)); cbn;
    try (apply Hf; [assumption|split; assumption]);
    split; try lia; apply pow2_half_pos.
Qed.

Lemma on_half_blocks_eq Bits f r k : fits Bits r → on_half_blocks Bits f r k = f r k.
Proof.
  intros [H1 H2]. unfold on_half_blocks.
  destruct (Z.leb_spec 0 r), (Z.ltb_spec r (2 ^ Z.of_nat Bits)); try lia. reflexivity.
Qed.

Lemma encrypt_rounds_domain Bits f f' keys st :
  (2 * Bits ≤ 64)%nat →
  (∀ r k, In k keys → fits Bits r → fits Bits (f r k)) →
  (∀ r k, In k keys → fits Bits r → f' r k = f r k) →
  fits_pair Bits st →
  fold_left (encrypt_round f') keys st = fold_left (encrypt_round f) keys st.
Proof.
  intros HB. revert st. induction keys as [|k keys IH]; intros [l r] Hf Hext [Hl Hr];
    [reflexivity|].
  simpl in *. rewrite (Hext r k) by auto. apply IH; [auto|auto|].
  split; simpl; [assumption|]. apply fits_lxor; [assumption|].
  rewrite (wrap_fits Bits) by auto. auto.
Qed.

Lemma decrypt_rounds_domain Bits f f' keys st :
  (2 * Bits ≤ 64)%nat →
  (∀ r k, In k keys → fits Bits r → fits Bits (f r k)) →
  (∀ r k, In k keys → fits Bits r → f' r k = f r k) →
  fits_pair Bits st →
  fold_left (decrypt_round f') keys st = fold_left (decrypt_round f) keys st.
Proof.
  intros HB. revert st. induction keys as [|k keys IH]; intros [l r] Hf Hext [Hl Hr];
    [reflexivity|].
  simpl in *. rewrite (Hext l k) by auto. apply IH; [auto|auto|].
  split; simpl; [|assumption]. apply fits_lxor; [assumption|].
  rewrite (wrap_fits Bits) by auto. auto.
Qed.

Lemma run_feistel_domain Bits f f' keys x :
  (2 * Bits ≤ 64)%nat →
  (∀ r k, In k keys → fits Bits r → fits Bits (f r k)) →
  (∀ r k, In k keys → fits Bits r → f' r k = f r k) →
  run_feistel_encrypt Bits f' x keys = run_feistel_encrypt Bits f x keys ∧
  run_feistel_decrypt Bits f' x keys = run_feistel_decrypt Bits f x keys.
Proof.
  intros HB Hf Hext. unfold run_feistel_encrypt, run_feistel_decrypt.
  rewrite (encrypt_rounds_domain Bits f f') by (auto using initial_halves_fit).
  rewrite (decrypt_rounds_domain Bits f f' (rev keys)); [split; reflexivity|assumption| | |].
  - intros r k Hk. apply Hf, in_rev, Hk.
  - intros r k Hk. apply Hext, in_rev, Hk.
  - apply initial_halves_fit, HB.
Qed.

(** X7. The routines apply the round function to half-blocks only: what it
    returns elsewhere plays no part, and a round function that sends
    half-blocks to half-blocks is enough for decryption to undo encryption. *)
Theorem feistel_round_function_domain (Bits : nat) (f f' : Z → Z → Z) (keys : list Z) (x : Z) :
  (2 * Bits ≤ 64)%nat →
  (∀ r k, In k keys → 0 ≤ r < 2 ^ Z.of_nat Bits → 0 ≤ f r k < 2 ^ Z.of_nat Bits) →
  (∀ r k, In k keys → 0 ≤ r < 2 ^ Z.of_nat Bits → f' r k = f r k) →
  run_feistel_encrypt Bits f' x keys = run_feistel_encrypt Bits f x keys ∧
  run_feistel_decrypt Bits f' x keys = run_feistel_decrypt Bits f x keys ∧
  (0 ≤ x < 2 ^ (2 * Z.of_nat Bits) →
   run_feistel_decrypt Bits f (run_feistel_encrypt Bits f x keys) keys = x).
Proof.
  intros HB Hf Hext.
  destruct (run_feistel_domain Bits f f' keys x HB Hf Hext) as [He Hd].
  split; [exact He|]. split; [exact Hd|]. intros Hx.
  pose proof (on_half_blocks_fits Bits f keys Hf) as Hg.
  assert (Hgext : ∀ r k, In k keys → fits Bits r → on_half_blocks Bits f r k = f r k)
    by (intros; apply on_half_blocks_eq; assumption).
  destruct (run_feistel_domain Bits f (on_half_blocks Bits f) keys x HB Hf Hgext) as [<- _].
  destruct (run_feistel_encrypt_halves Bits _ keys x HB Hg Hx) as [Ee Hfit].
  pose proof (join_halves_range Bits _ Hfit) as Hrange. rewrite <- Ee in Hrange.
  destruct (run_feistel_domain Bits f (on_half_blocks Bits f) keys
              (run_feistel_encrypt Bits (on_half_blocks Bits f) x keys) HB Hf Hgext) as [_ <-].
  destruct (run_feistel_decrypt_halves Bits _ keys _ HB Hg Hrange) as [-> _].
  rewrite Ee. destruct (join_halves_split Bits _ Hfit) as [-> ->].
  rewrite <- surjective_pairing, decrypt_encrypt_rounds.
  unfold join_halves. simpl. destruct (block_halves Bits x Hx) as (_ & _ & Ex). lia.
Qed.

Lemma feistel_round_function_domain_witness :
  run_feistel_encrypt 2 (pearson_round [2; 0; 3; 1; 7]) 11 [0] = run_feistel_encrypt 2 (pearson_round [2; 0; 3; 1]) 11 [0] ∧
  run_feistel_decrypt 2 (pearson_round [2; 0; 3; 1; 7]) 11 [0] = run_feistel_decrypt 2 (pearson_round [2; 0; 3; 1]) 11 [0] ∧
  (0 ≤ 11 < 2 ^ (2 * Z.of_nat 2) →
   run_feistel_decrypt 2 (pearson_round [2; 0; 3; 1])
     (run_feistel_encrypt 2 (pearson_round [2; 0; 3; 1]) 11 [0]) [0] = 11).
Proof.
  apply (feistel_round_function_domain 2 (pearson_round [2; 0; 3; 1]) (pearson_round [2; 0; 3; 1; 7]) [0] 11).
  - lia.
  - intros r k [<-|[]] Hr. change (2 ^ Z.of_nat 2) with 4 in *.
    assert (E : r = 0 ∨ r = 1 ∨ r = 2 ∨ r = 3) by lia.
    destruct E as [-> | [-> | [-> | ->]]]; vm_compute; split; congruence.
  - intros r k [<-|[]] Hr. change (2 ^ Z.of_nat 2) with 4 in *.
    assert (E : r = 0 ∨ r = 1 ∨ r = 2 ∨ r = 3) by lia.
    destruct E as [-> | [-> | [-> | ->]]]; reflexivity.
Defined.

Local Close Scope Z_scope.

(** ** feistel.hpp: run_f, further *)

Local Open Scope Z_scope.

Lemma bitmask_ones Bits :
  (Bits < 64)%nat → wrap (wrap (Z.shiftl 1 (Z.of_nat Bits)) - 1) = Z.ones (Z.of_nat Bits).
Proof.
  intros HB. rewrite Z.shiftl_1_l, Z.ones_equiv.
  assert (H : 0 < 2 ^ Z.of_nat Bits < 2 ^ 64).
  { split; [apply Z.pow_pos_nonneg; lia|]. apply Z.pow_lt_mono_r; lia. }
  rewrite (wrap_small (2 ^ _)) by lia. rewrite wrap_small by lia. lia.
Qed.

Lemma selected_fits Bits u alpha beta :
  fits Bits alpha → fits Bits beta → fits Bits (selected u alpha beta).
Proof. intros Ha Hb. unfold selected. destruct (Z.testbit u 0); assumption. Qed.

Lemma run_f_unfold Bits u callback alpha beta :
  run_f Bits u callback alpha beta =
    Z.lxor (run_f_w Bits callback
              (Z.lor (wrap (Z.shiftl (Z.shiftr u 1) (Z.of_nat Bits))) (selected u alpha beta)))
           (selected u alpha beta).
Proof.
  unfold run_f. rewrite land_1_testbit. unfold selected.
  destruct (Z.testbit u 0); reflexivity.
Qed.

(** X8. The value of [run_f] is a half-block, whatever the oracle returns
    and whatever the input is. *)
Theorem run_f_range (Bits : nat) (callback : Z → Z) (alpha beta u : Z) :
  (Bits < 64)%nat →
  0 ≤ alpha < 2 ^ Z.of_nat Bits → 0 ≤ beta < 2 ^ Z.of_nat Bits →
  0 ≤ run_f Bits u callback alpha beta < 2 ^ Z.of_nat Bits.
Proof.
  intros HB Ha Hb. rewrite run_f_unfold.
  apply fits_lxor; [|apply selected_fits; assumption].
  unfold run_f_w. rewrite (bitmask_ones Bits HB), Z.land_ones by lia.
  apply Z.mod_pos_bound, pow2_half_pos.
Qed.

Lemma run_f_range_witness :
  0 ≤ run_f 4 7 (fun x => x * x + 977) 3 5 < 2 ^ Z.of_nat 4.
Proof.
  apply (run_f_range 4 (fun x => x * x + 977) 3 5 7).
  - lia.
  - vm_compute. split; congruence.
  - vm_compute. split; congruence.
Defined.

Lemma run_f_query_block Bits u alpha beta :
  (2 * Bits ≤ 64)%nat → fits Bits alpha → fits Bits beta →
  0 ≤ u < 2 ^ Z.of_nat (Bits + 1) →
  Z.lor (wrap (Z.shiftl (Z.shiftr u 1) (Z.of_nat Bits))) (selected u alpha beta)
    = run_f_query Bits u alpha beta ∧
  0 ≤ run_f_query Bits u alpha beta < 2 ^ (2 * Z.of_nat Bits).
Proof.
  intros HB Ha Hb Hu.
  pose proof (probe_halves Bits u Hu) as Hhi.
  pose proof (selected_fits Bits u alpha beta Ha Hb) as Hm.
  split; [rewrite Z.lor_comm; apply join_add; assumption|].
  apply (join_halves_range Bits (_, _)). split; assumption.
Qed.

(** X9. For an input of [Bits + 1] bits, [run_f] calls the oracle once, on
    the block of [2 * Bits] bits whose left half is [input >> 1] and whose
    right half is the selected mask: the value of the oracle at other
    arguments plays no part. *)
Theorem run_f_queries_one_block (Bits : nat) (callback : Z → Z) (alpha beta u : Z) :
  (2 * Bits ≤ 64)%nat →
  0 ≤ alpha < 2 ^ Z.of_nat Bits → 0 ≤ beta < 2 ^ Z.of_nat Bits →
  0 ≤ u < 2 ^ Z.of_nat (Bits + 1) →
  0 ≤ run_f_query Bits u alpha beta < 2 ^ (2 * Z.of_nat Bits) ∧
  run_f Bits u callback alpha beta =
    Z.lxor (run_f_w Bits callback (run_f_query Bits u alpha beta)) (selected u alpha beta) ∧
  ∀ callback', callback' (run_f_query Bits u alpha beta) = callback (run_f_query Bits u alpha beta) →
               run_f Bits u callback' alpha beta = run_f Bits u callback alpha beta.
Proof.
  intros HB Ha Hb Hu.
  destruct (run_f_query_block Bits u alpha beta HB Ha Hb Hu) as [E Hrange].
  split; [exact Hrange|]. split.
  - rewrite run_f_unfold, E. reflexivity.
  - intros callback' Hc. rewrite !run_f_unfold, E. unfold run_f_w. rewrite Hc. reflexivity.
Qed.

Lemma run_f_queries_one_block_witness :
  0 ≤ run_f_query 4 7 3 5 < 2 ^ (2 * Z.of_nat 4) ∧
  run_f 4 7 (fun x => x * x + 977) 3 5 =
    Z.lxor (run_f_w 4 (fun x => x * x + 977) (run_f_query 4 7 3 5)) (selected 7 3 5) ∧
  ∀ callback', callback' (run_f_query 4 7 3 5) = (fun x => x * x + 977) (run_f_query 4 7 3 5) →
               run_f 4 7 callback' 3 5 = run_f 4 7 (fun x => x * x + 977) 3 5.
Proof.
  apply (run_f_queries_one_block 4 (fun x => x * x + 977) 3 5 7).
  - lia.
  - vm_compute. split; congruence.
  - vm_compute. split; congruence.
  - vm_compute. split; congruence.
Defined.

Lemma run_f_ext Bits cb cb' alpha beta u :
  (2 * Bits ≤ 64)%nat → fits Bits alpha → fits Bits beta →
  0 ≤ u < 2 ^ Z.of_nat (Bits + 1) →
  (∀ x, 0 ≤ x < 2 ^ (2 * Z.of_nat Bits) → cb x = cb' x) →
  run_f Bits u cb alpha beta = run_f Bits u cb' alpha beta.
Proof.
  intros HB Ha Hb Hu Hext.
  destruct (run_f_query_block Bits u alpha beta HB Ha Hb Hu) as [E Hrange].
  rewrite !run_f_unfold, E. unfold run_f_w. rewrite (Hext _ Hrange). reflexivity.
Qed.

(** The probe of a 3-round network whose round function is given on
    half-blocks only. *)
Lemma run_f_feistel3_half Bits f k0 k1 k2 alpha beta u :
  (2 * Bits ≤ 64)%nat →
  (∀ r k, In k [k0; k1; k2] → fits Bits r → fits Bits (f r k)) →
  fits Bits alpha → fits Bits beta → 0 ≤ u < 2 ^ Z.of_nat (Bits + 1) →
  run_f Bits u (make_feistel_encrypt Bits f [k0; k1; k2]) alpha beta =
    f (Z.lxor (Z.shiftr u 1) (f (selected u alpha beta) k0)) k1 ∧
  fits Bits (Z.lxor (Z.shiftr u 1) (f (selected u alpha beta) k0)).
Proof.
  intros HB Hf Ha Hb Hu.
  pose proof (on_half_blocks_fits Bits f _ Hf) as Hg.
  assert (Hsel : fits Bits (selected u alpha beta)) by (apply selected_fits; assumption).
  assert (Harg : fits Bits (Z.lxor (Z.shiftr u 1) (f (selected u alpha beta) k0))).
  { apply fits_lxor; [apply probe_halves, Hu|]. apply Hf; [simpl; auto|exact Hsel]. }
  split; [|exact Harg].
  rewrite (run_f_ext Bits _ (make_feistel_encrypt Bits (on_half_blocks Bits f) [k0; k1; k2]))
    by (try assumption; intros x _; unfold make_feistel_encrypt; symmetry;
        apply (run_feistel_domain Bits f (on_half_blocks Bits f) [k0; k1; k2] x HB Hf);
        intros r k _ Hr; apply on_half_blocks_eq, Hr).
  rewrite run_f_feistel3 by assumption.
  rewrite (on_half_blocks_eq Bits f (selected u alpha beta)) by assumption.
  apply on_half_blocks_eq. exact Harg.
Qed.

(** X10. On a 3-round network whose round function sends half-blocks to
    half-blocks, [run_f] is the second round applied to
    [(input >> 1) xor F(mask, k0)]: the third key plays no part. *)
Theorem run_f_feistel_closed_form (Bits : nat) (f : Z → Z → Z) (k0 k1 k2 k2' alpha beta u : Z) :
  (2 * Bits ≤ 64)%nat →
  (∀ r k, In k [k0; k1; k2; k2'] → 0 ≤ r < 2 ^ Z.of_nat Bits → 0 ≤ f r k < 2 ^ Z.of_nat Bits) →
  0 ≤ alpha < 2 ^ Z.of_nat Bits → 0 ≤ beta < 2 ^ Z.of_nat Bits →
  0 ≤ u < 2 ^ Z.of_nat (Bits + 1) →
  run_f Bits u (make_feistel_encrypt Bits f [k0; k1; k2]) alpha beta =
    f (Z.lxor (Z.shiftr u 1) (f (if Z.testbit u 0 then beta else alpha) k0)) k1 ∧
  run_f Bits u (make_feistel_encrypt Bits f [k0; k1; k2']) alpha beta =
    run_f Bits u (make_feistel_encrypt Bits f [k0; k1; k2]) alpha beta.
Proof.
  intros HB Hf Ha Hb Hu.
  destruct (run_f_feistel3_half Bits f k0 k1 k2 alpha beta u HB) as [-> _]; try assumption.
  { intros r k Hk. apply Hf. simpl in *. tauto. }
  destruct (run_f_feistel3_half Bits f k0 k1 k2' alpha beta u HB) as [-> _]; try assumption.
  { intros r k Hk. apply Hf. simpl in *. tauto. }
  split; reflexivity.
Qed.

Lemma test_round_function_fits_all r k :
  0 ≤ k < 4 → 0 ≤ test_round_function r k < 2 ^ Z.of_nat 4.
Proof.
  intros Hk. unfold test_round_function.
  assert (Hr : 0 ≤ Z.land r 3 < 4).
  { change 3 with (Z.ones 2). rewrite Z.land_ones by lia. apply Z.mod_pos_bound. lia. }
  assert (Er : Z.land r 3 = 0 ∨ Z.land r 3 = 1 ∨ Z.land r 3 = 2 ∨ Z.land r 3 = 3) by lia.
  assert (Ek : k = 0 ∨ k = 1 ∨ k = 2 ∨ k = 3) by lia.
  destruct Er as [-> | [-> | [-> | ->]]];
    destruct Ek as [-> | [-> | [-> | ->]]]; vm_compute; split; congruence.
Qed.

Lemma run_f_feistel_closed_form_witness :
  run_f 4 7 (make_feistel_encrypt 4 test_round_function [1; 2; 3]) 3 5 =
    test_round_function
      (Z.lxor (Z.shiftr 7 1) (test_round_function (if Z.testbit 7 0 then 5 else 3) 1)) 2 ∧
  run_f 4 7 (make_feistel_encrypt 4 test_round_function [1; 2; 0]) 3 5 =
    run_f 4 7 (make_feistel_encrypt 4 test_round_function [1; 2; 3]) 3 5.
Proof.
  apply (run_f_feistel_closed_form 4 test_round_function 1 2 3 0 3 5 7).
  - lia.
  - intros r k Hk _. apply test_round_function_fits_all. simpl in Hk. lia.
  - vm_compute. split; congruence.
  - vm_compute. split; congruence.
  - vm_compute. split; congruence.
Defined.

Lemma hidden_string_range Bits f k0 alpha beta :
  fits Bits (f alpha k0) → fits Bits (f beta k0) →
  0 < hidden_string f k0 alpha beta < 2 ^ Z.of_nat (Bits + 1).
Proof.
  intros Hfa Hfb.
  assert (Hz : fits Bits (Z.lxor (f alpha k0) (f beta k0))) by (apply fits_lxor; assumption).
  rewrite hidden_string_add by apply Hz.
  rewrite Nat2Z.inj_add, Z.pow_add_r by lia. change (2 ^ Z.of_nat 1) with 2.
  unfold fits in Hz. lia.
Qed.

Lemma shiftr1_bit0_inj u v :
  Z.shiftr u 1 = Z.shiftr v 1 → Z.testbit u 0 = Z.testbit v 0 → u = v.
Proof.
  intros Hs H0. apply Z.bits_inj'. intros n Hn.
  destruct (Z.eq_dec n 0) as [->|Hne]; [exact H0|].
  replace n with (n - 1 + 1) by lia.
  rewrite <- !Z.shiftr_spec by lia. rewrite Hs. reflexivity.
Qed.

Ltac xor_solve :=
  apply Z.bits_inj'; intros ?n ?Hn; rewrite ?Z.lxor_spec;
  repeat match goal with |- context [Z.testbit ?a ?n] => destruct (Z.testbit a n) end;
  reflexivity.

Lemma lxor_cancel_l a b c : Z.lxor a b = Z.lxor a c → b = c.
Proof.
  intros H. apply (f_equal (Z.lxor a)) in H.
  rewrite <- !Z.lxor_assoc, Z.lxor_nilpotent, !Z.lxor_0_l in H. exact H.
Qed.

(** Two inputs give the second round the same argument exactly when they
    are equal or differ by the hidden string. *)
Lemma probe_classes f k0 alpha beta u v :
  Z.lxor (Z.shiftr u 1) (f (selected u alpha beta) k0) =
  Z.lxor (Z.shiftr v 1) (f (selected v alpha beta) k0) ↔
  v = u ∨ v = Z.lxor u (hidden_string f k0 alpha beta).
Proof.
  split.
  - intros E. destruct (Bool.bool_dec (Z.testbit u 0) (Z.testbit v 0)) as [Hb0|Hb0].
    + left. symmetry. apply shiftr1_bit0_inj; [|exact Hb0].
      unfold selected in E. rewrite <- Hb0 in E.
      rewrite (Z.lxor_comm (Z.shiftr u 1)), (Z.lxor_comm (Z.shiftr v 1)) in E.
      apply lxor_cancel_l in E. exact E.
    + right. apply shiftr1_bit0_inj.
      * rewrite Z.shiftr_lxor, hidden_string_shiftr.
        apply (lxor_cancel_l (f (selected v alpha beta) k0)).
        rewrite (Z.lxor_comm _ (Z.shiftr v 1)), <- E.
        unfold selected.
        destruct (Z.testbit u 0), (Z.testbit v 0); try congruence; xor_solve.
      * rewrite Z.lxor_spec, hidden_string_bit0.
        destruct (Z.testbit u 0), (Z.testbit v 0); try congruence; reflexivity.
  - intros [-> | ->]; [reflexivity|].
    rewrite Z.shiftr_lxor, hidden_string_shiftr.
    unfold selected. rewrite Z.lxor_spec, hidden_string_bit0.
    destruct (Z.testbit u 0); simpl; xor_solve.
Qed.

Lemma run_f_hidden_period Bits f k0 k1 k2 alpha beta u :
  (2 * Bits ≤ 64)%nat →
  (∀ r k, In k [k0; k1; k2] → fits Bits r → fits Bits (f r k)) →
  fits Bits alpha → fits Bits beta → 0 ≤ u < 2 ^ Z.of_nat (Bits + 1) →
  run_f Bits (Z.lxor u (hidden_string f k0 alpha beta))
        (make_feistel_encrypt Bits f [k0; k1; k2]) alpha beta =
  run_f Bits u (make_feistel_encrypt Bits f [k0; k1; k2]) alpha beta.
Proof.
  intros HB Hf Ha Hb Hu.
  assert (Hs : 0 < hidden_string f k0 alpha beta < 2 ^ Z.of_nat (Bits + 1)).
  { apply hidden_string_range; apply Hf; simpl; auto. }
  assert (Hu' : 0 ≤ Z.lxor u (hidden_string f k0 alpha beta) < 2 ^ Z.of_nat (Bits + 1)).
  { apply (fits_lxor (Bits + 1)); unfold fits; lia. }
  destruct (run_f_feistel3_half Bits f k0 k1 k2 alpha beta u HB Hf Ha Hb Hu) as [-> _].
  destruct (run_f_feistel3_half Bits f k0 k1 k2 alpha beta _ HB Hf Ha Hb Hu') as [-> _].
  f_equal. symmetry. apply probe_classes. auto.
Qed.

(** X11. With a round function that sends half-blocks to half-blocks and is
    one-to-one on them under the second key, the probe of a 3-round network
    takes each of its values exactly twice: at [u] and at
    [u xor hidden_string]. *)
Theorem run_f_feistel_exactly_two_to_one (Bits : nat) (f : Z → Z → Z)
    (k0 k1 k2 alpha beta u v : Z) :
  (2 * Bits ≤ 64)%nat →
  (∀ r k, In k [k0; k1; k2] → 0 ≤ r < 2 ^ Z.of_nat Bits → 0 ≤ f r k < 2 ^ Z.of_nat Bits) →
  (∀ a b, 0 ≤ a < 2 ^ Z.of_nat Bits → 0 ≤ b < 2 ^ Z.of_nat Bits → f a k1 = f b k1 → a = b) →
  0 ≤ alpha < 2 ^ Z.of_nat Bits → 0 ≤ beta < 2 ^ Z.of_nat Bits →
  0 ≤ u < 2 ^ Z.of_nat (Bits + 1) → 0 ≤ v < 2 ^ Z.of_nat (Bits + 1) →
  run_f Bits u (make_feistel_encrypt Bits f [k0; k1; k2]) alpha beta =
  run_f Bits v (make_feistel_encrypt Bits f [k0; k1; k2]) alpha beta ↔
  v = u ∨ v = Z.lxor u (hidden_string f k0 alpha beta).
Proof.
  intros HB Hf Hinj Ha Hb Hu Hv.
  destruct (run_f_feistel3_half Bits f k0 k1 k2 alpha beta u HB Hf Ha Hb Hu) as [-> Hau].
  destruct (run_f_feistel3_half Bits f k0 k1 k2 alpha beta v HB Hf Ha Hb Hv) as [-> Hav].
  rewrite <- probe_classes. split; [apply Hinj; assumption|intros ->; reflexivity].
Qed.

Lemma run_f_feistel_exactly_two_to_one_witness :
  run_f 2 3 (make_feistel_encrypt 2 (pearson_round [2; 0; 3; 1]) [1; 2; 3]) 1 2 =
  run_f 2 5 (make_feistel_encrypt 2 (pearson_round [2; 0; 3; 1]) [1; 2; 3]) 1 2 ↔
  5 = 3 ∨ 5 = Z.lxor 3 (hidden_string (pearson_round [2; 0; 3; 1]) 1 1 2).
Proof.
  apply (run_f_feistel_exactly_two_to_one 2 (pearson_round [2; 0; 3; 1]) 1 2 3 1 2 3 5).
  - lia.
  - intros r k Hk Hr. change (2 ^ Z.of_nat 2) with 4 in *.
    assert (E : r = 0 ∨ r = 1 ∨ r = 2 ∨ r = 3) by lia.
    simpl in Hk. destruct Hk as [<-|[<-|[<-|[]]]];
      destruct E as [-> | [-> | [-> | ->]]]; vm_compute; split; congruence.
  - intros a b Ha Hb E. change (2 ^ Z.of_nat 2) with 4 in *.
    assert (Ea : a = 0 ∨ a = 1 ∨ a = 2 ∨ a = 3) by lia.
    assert (Eb : b = 0 ∨ b = 1 ∨ b = 2 ∨ b = 3) by lia.
    destruct Ea as [-> | [-> | [-> | ->]]]; destruct Eb as [-> | [-> | [-> | ->]]];
      try reflexivity; vm_compute in E; discriminate E.
  - vm_compute. split; congruence.
  - vm_compute. split; congruence.
  - vm_compute. split; congruence.
  - vm_compute. split; congruence.
Defined.

(** X30. On a 3-round network whose round function sends half-blocks to
    half-blocks, the hidden string [((F(alpha, k0) xor F(beta, k0)) << 1) | 1]
    is an odd string of [Bits + 1] bits, [u xor s] stays in the domain of
    the probe, and [run_f] takes the same value at [u] and at [u xor s]. *)
Theorem run_f_feistel_hidden_string_period (Bits : nat) (f : Z → Z → Z)
    (k0 k1 k2 alpha beta : Z) :
  (2 * Bits ≤ 64)%nat →
  (∀ r k, In k [k0; k1; k2] → 0 ≤ r < 2 ^ Z.of_nat Bits → 0 ≤ f r k < 2 ^ Z.of_nat Bits) →
  0 ≤ alpha < 2 ^ Z.of_nat Bits →
  0 ≤ beta < 2 ^ Z.of_nat Bits →
  0 < hidden_string f k0 alpha beta < 2 ^ Z.of_nat (Bits + 1) ∧
  Z.odd (hidden_string f k0 alpha beta) = true ∧
  ∀ u, 0 ≤ u < 2 ^ Z.of_nat (Bits + 1) →
       0 ≤ Z.lxor u (hidden_string f k0 alpha beta) < 2 ^ Z.of_nat (Bits + 1) ∧
       Z.lxor u (hidden_string f k0 alpha beta) ≠ u ∧
       run_f Bits (Z.lxor u (hidden_string f k0 alpha beta))
             (make_feistel_encrypt Bits f [k0; k1; k2]) alpha beta =
       run_f Bits u (make_feistel_encrypt Bits f [k0; k1; k2]) alpha beta.
Proof.
  intros HB Hf Ha Hb.
  assert (Hs : 0 < hidden_string f k0 alpha beta < 2 ^ Z.of_nat (Bits + 1)).
  { apply (hidden_string_range Bits); apply Hf; simpl; auto. }
  assert (H0 : Z.testbit (hidden_string f k0 alpha beta) 0 = true) by apply hidden_string_bit0.
  split; [exact Hs|]. split; [rewrite <- Z.bit0_odd; exact H0|].
  intros u Hu. split; [|split].
  - apply (fits_lxor (Bits + 1)); unfold fits; lia.
  - intros E. apply (f_equal (fun x => Z.testbit x 0)) in E.
    rewrite Z.lxor_spec, H0 in E. destruct (Z.testbit u 0); discriminate.
  - apply run_f_hidden_period; assumption.
Qed.

(** The round function of [run_feistel_tests] with a table of four entries. *)
Lemma run_f_feistel_hidden_string_period_witness :
  0 < hidden_string (pearson_round [2; 0; 3; 1]) 1 1 2 < 2 ^ Z.of_nat (2 + 1) ∧
  Z.odd (hidden_string (pearson_round [2; 0; 3; 1]) 1 1 2) = true ∧
  ∀ u, 0 ≤ u < 2 ^ Z.of_nat (2 + 1) →
       0 ≤ Z.lxor u (hidden_string (pearson_round [2; 0; 3; 1]) 1 1 2) < 2 ^ Z.of_nat (2 + 1) ∧
       Z.lxor u (hidden_string (pearson_round [2; 0; 3; 1]) 1 1 2) ≠ u ∧
       run_f 2 (Z.lxor u (hidden_string (pearson_round [2; 0; 3; 1]) 1 1 2))
             (make_feistel_encrypt 2 (pearson_round [2; 0; 3; 1]) [1; 2; 3]) 1 2 =
       run_f 2 u (make_feistel_encrypt 2 (pearson_round [2; 0; 3; 1]) [1; 2; 3]) 1 2.
Proof.
  apply (run_f_feistel_hidden_string_period 2 (pearson_round [2; 0; 3; 1]) 1 2 3 1 2).
  - lia.
  - intros r k Hk Hr. change (2 ^ Z.of_nat 2) with 4 in *.
    assert (E : r = 0 ∨ r = 1 ∨ r = 2 ∨ r = 3) by lia.
    simpl in Hk. destruct Hk as [<-|[<-|[<-|[]]]];
      destruct E as [-> | [-> | [-> | ->]]]; vm_compute; split; congruence.
  - vm_compute. split; congruence.
  - vm_compute. split; congruence.
Defined.

Local Close Scope Z_scope.

(** ** Sums over two indices *)

Lemma xsum_const_false n : xsum n (fun _ => false) = false.
Proof. apply xsum_false. reflexivity. Qed.

Lemma xsum_swap n m (f : nat → nat → bool) :
  xsum n (fun i => xsum m (fun j => f i j)) = xsum m (fun j => xsum n (fun i => f i j)).
Proof.
  induction n as [|n IH]; cbn [xsum].
  - symmetry. apply xsum_const_false.
  - rewrite IH, <- xsum_xorb. reflexivity.
Qed.

Lemma xsum_andb_r n b f : xsum n (fun j => f j && b) = xsum n f && b.
Proof.
  induction n as [|n IH]; cbn [xsum]; [reflexivity|]. rewrite IH.
  destruct (xsum n f), (f n), b; reflexivity.
Qed.

(** A vector that solves the equations also solves their combinations. *)
Lemma combines_dot W n c m t r x :
  combines W n c m r → sat W n m t x → dot W r x = implied_target n c t.
Proof.
  intros Hc Hsat. unfold dot, implied_target.
  rewrite (xsum_ext W _ (fun j => xsum n (fun i => c i && (cell m i j && (x !!! j))))).
  - rewrite <- xsum_swap. apply xsum_ext. intros i Hi.
    rewrite xsum_andb_l, <- dot_cells, (Hsat i Hi). reflexivity.
  - intros j Hj. rewrite <- (Hc j Hj). unfold lincomb. rewrite <- xsum_andb_r.
    apply xsum_ext. intros i _. symmetry. apply andb_assoc.
Qed.

(** ** One call of addRow, by its three outcomes *)

Section AddRowOutcome.
Variable W : nat.
Variable s : MatrixSolver.
Variable new_row : bvec.
Variable solution : bool.
Hypothesis Hinv : solver_inv W s.

Lemma addRow_keeps_prefix i :
  i < independent_rows s →
  contents (snd (addRow W s new_row solution)) !!! i = contents s !!! i ∧
  targets (snd (addRow W s new_row solution)) !!! i = targets s !!! i.
Proof using Hinv.
  intros Hi. destruct Hinv as [[Ht Hr] _ _]. rewrite addRow_unfold.
  assert (Hc : (contents s ++ [new_row]) !!! i = contents s !!! i)
    by (apply lookup_total_app_l; lia).
  assert (Htg : (targets s ++ [solution]) !!! i = targets s !!! i)
    by (apply lookup_total_app_l; lia).
  destruct (independent W _ _) as [[|]|e]; cbn [snd contents targets]; try (split; assumption).
  assert (Hlc : length (contents s ++ [new_row]) = length (contents s) + 1)
    by (rewrite length_app; reflexivity).
  assert (Hlt : length (targets s ++ [solution]) = length (contents s) + 1)
    by (rewrite length_app, Ht; reflexivity).
  rewrite (swap_at_lookup (contents s ++ [new_row])) by lia.
  rewrite (swap_at_lookup (targets s ++ [solution])) by lia.
  rewrite Hlc. repeat case_decide; try lia. split; assumption.
Qed.

Lemma addRow_new_pivot :
  independent_rows (snd (addRow W s new_row solution)) = S (independent_rows s) →
  contents (snd (addRow W s new_row solution)) !!! independent_rows s = new_row ∧
  targets (snd (addRow W s new_row solution)) !!! independent_rows s = solution ∧
  fst (addRow W s new_row solution) = Ok ().
Proof using Hinv.
  destruct Hinv as [[Ht Hr] _ _]. rewrite addRow_unfold.
  destruct (independent W _ _) as [[|]|e]; cbn [fst snd contents targets independent_rows];
    try lia.
  intros _.
  assert (Hlc : length (contents s ++ [new_row]) = length (contents s) + 1)
    by (rewrite length_app; reflexivity).
  assert (Hlt : length (targets s ++ [solution]) = length (contents s) + 1)
    by (rewrite length_app, Ht; reflexivity).
  assert (Hc : (contents s ++ [new_row]) !!! length (contents s) = new_row)
    by (rewrite lookup_total_app_r, Nat.sub_diag by lia; reflexivity).
  assert (Htg : (targets s ++ [solution]) !!! length (contents s) = solution)
    by (rewrite lookup_total_app_r, Ht, Nat.sub_diag by lia; reflexivity).
  rewrite (swap_at_lookup (contents s ++ [new_row])) by lia.
  rewrite (swap_at_lookup (targets s ++ [solution])) by lia.
  rewrite Hlc. replace (length (contents s) + 1 - 1) with (length (contents s)) by lia.
  repeat case_decide; try lia; try congruence; rewrite ?Hc, ?Htg; auto;
    replace (independent_rows s) with (length (contents s)) by lia; auto.
Qed.

Lemma addRow_same_rank :
  independent_rows (snd (addRow W s new_row solution)) = independent_rows s →
  ∃ c, combines W (independent_rows s) c (contents s) new_row ∧
       implied_target (independent_rows s) c (targets s) =
         if is_ok (fst (addRow W s new_row solution)) then solution else negb solution.
Proof using Hinv.
  destruct Hinv as [Hwf Hr Hind]. rewrite addRow_unfold.
  destruct (independent W _ _) as [[|]|e] eqn:E;
    cbn [fst snd contents targets independent_rows is_ok]; try lia; intros _.
  - destruct (independent_false W _ _ (pushed_lin_indep W s new_row solution Hwf Hind) E)
      as (c & Hc & Htg).
    exists c. cbn [independent_rows] in *.
    rewrite pushed_implied, pushed_target in Htg by assumption.
    apply pushed_combines in Hc; auto.
  - destruct (independent_throw W _ _ e (pushed_lin_indep W s new_row solution Hwf Hind) E)
      as (c & Hc & Htg).
    exists c. cbn [independent_rows] in *.
    rewrite pushed_implied, pushed_target in Htg by assumption.
    apply pushed_combines in Hc; auto.
Qed.

Lemma addRow_sat_prefix x :
  sat W (independent_rows (snd (addRow W s new_row solution)))
        (contents (snd (addRow W s new_row solution)))
        (targets (snd (addRow W s new_row solution))) x →
  sat W (independent_rows s) (contents s) (targets s) x.
Proof using Hinv.
  intros Hsat r Hr. destruct (addRow_keeps_prefix r Hr) as [<- <-].
  apply Hsat. pose proof (addRow_rank W s new_row solution). lia.
Qed.

(** A solution of the accepted rows after the call satisfies the new
    equation when the call returned, and violates it when the call threw. *)
Lemma addRow_outcome_sat x :
  sat W (independent_rows (snd (addRow W s new_row solution)))
        (contents (snd (addRow W s new_row solution)))
        (targets (snd (addRow W s new_row solution))) x →
  dot W new_row x = if is_ok (fst (addRow W s new_row solution)) then solution else negb solution.
Proof using Hinv.
  intros Hsat.
  pose proof (addRow_rank W s new_row solution) as Hrk.
  destruct (decide (independent_rows (snd (addRow W s new_row solution)) = independent_rows s))
    as [Hsame|Hgrow].
  - destruct (addRow_same_rank Hsame) as (c & Hc & <-).
    apply (combines_dot W _ c (contents s)); [assumption|].
    apply addRow_sat_prefix, Hsat.
  - destruct addRow_new_pivot as (Hrow & Htg & ->); [lia|]. cbn [is_ok].
    pose proof (Hsat (independent_rows s) ltac:(lia)) as H.
    rewrite Hrow, Htg in H. exact H.
Qed.
End AddRowOutcome.

(** ** Sequences of calls, by their outcomes *)

Lemma addRows_cons W s e eqs :
  addRows W s (e :: eqs) = addRows W (snd (addRow W s (fst e) (snd e))) eqs.
Proof. reflexivity. Qed.

Lemma addRows_snoc W s eqs e :
  addRows W s (eqs ++ [e]) = snd (addRow W (addRows W s eqs) (fst e) (snd e)).
Proof. rewrite addRows_app. reflexivity. Qed.

Lemma addRows_keeps_prefix W s eqs i :
  solver_inv W s → i < independent_rows s →
  contents (addRows W s eqs) !!! i = contents s !!! i ∧
  targets (addRows W s eqs) !!! i = targets s !!! i.
Proof.
  revert s. induction eqs as [|e eqs IH]; intros s Hinv Hi; [split; reflexivity|].
  rewrite addRows_cons.
  destruct (IH (snd (addRow W s (fst e) (snd e)))) as [-> ->].
  - apply addRow_inv, Hinv.
  - pose proof (addRow_rank W s (fst e) (snd e)). lia.
  - apply addRow_keeps_prefix; assumption.
Qed.

Lemma addRows_sat_prefix W s eqs x :
  solver_inv W s →
  sat W (independent_rows (addRows W s eqs)) (contents (addRows W s eqs))
        (targets (addRows W s eqs)) x →
  sat W (independent_rows s) (contents s) (targets s) x.
Proof.
  intros Hinv Hsat r Hr. destruct (addRows_keeps_prefix W s eqs r Hinv Hr) as [<- <-].
  apply Hsat. pose proof (addRows_rank_mono W s eqs). lia.
Qed.

Lemma addRows_outcome_sat W eqs k e x :
  eqs !! k = Some e →
  sat W (independent_rows (addRows W new_solver eqs)) (contents (addRows W new_solver eqs))
        (targets (addRows W new_solver eqs)) x →
  dot W (fst e) x = if is_ok (outcome W eqs k) then snd e else negb (snd e).
Proof.
  intros He Hsat. unfold outcome. rewrite He.
  pose proof (take_drop_middle eqs k e He) as Esplit.
  assert (Hinv : solver_inv W (addRows W new_solver (take k eqs)))
    by apply addRows_inv, new_solver_inv.
  apply (addRow_outcome_sat W _ _ _ Hinv).
  apply (addRows_sat_prefix W _ (drop (S k) eqs)); [apply addRow_inv, Hinv|].
  rewrite <- addRows_cons, <- addRows_app, Esplit. exact Hsat.
Qed.

Lemma outcome_snoc_old W eqs e k : k < length eqs → outcome W (eqs ++ [e]) k = outcome W eqs k.
Proof.
  intros Hk. unfold outcome. rewrite lookup_app_l by assumption.
  rewrite take_app_le by lia. reflexivity.
Qed.

Lemma outcome_snoc_new W eqs e :
  outcome W (eqs ++ [e]) (length eqs) = fst (addRow W (addRows W new_solver eqs) (fst e) (snd e)).
Proof.
  unfold outcome. rewrite lookup_app_r, Nat.sub_diag by lia. cbn.
  rewrite take_app_length. reflexivity.
Qed.

(** Every accepted row of the solver is one of the equations that were
    added without an exception. *)
Lemma addRows_prefix_from W eqs i :
  i < independent_rows (addRows W new_solver eqs) →
  ∃ k e, eqs !! k = Some e ∧ is_ok (outcome W eqs k) = true ∧
         contents (addRows W new_solver eqs) !!! i = fst e ∧
         targets (addRows W new_solver eqs) !!! i = snd e.
Proof.
  revert i. induction eqs as [|e eqs IH] using rev_ind; intros i Hi; [cbn in Hi; lia|].
  rewrite addRows_snoc in *.
  assert (Hinv : solver_inv W (addRows W new_solver eqs)) by apply addRows_inv, new_solver_inv.
  pose proof (addRow_rank W (addRows W new_solver eqs) (fst e) (snd e)) as Hrk.
  destruct (decide (i < independent_rows (addRows W new_solver eqs))) as [Hold|Hnew].
  - destruct (IH i Hold) as (k & e0 & Hk & Hok & Hc & Ht).
    pose proof (lookup_lt_Some _ _ _ Hk) as Hlt.
    exists k, e0. rewrite lookup_app_l, outcome_snoc_old by assumption.
    destruct (addRow_keeps_prefix W _ (fst e) (snd e) Hinv i Hold) as [-> ->]. auto.
  - assert (i = independent_rows (addRows W new_solver eqs)) by lia. subst i.
    destruct (addRow_new_pivot W _ (fst e) (snd e) Hinv) as (Hc & Ht & Hok); [lia|].
    exists (length eqs), e. rewrite lookup_app_r, Nat.sub_diag, outcome_snoc_new by lia.
    rewrite Hok. auto.
Qed.

(** The stored rows keep their width. *)
Lemma addRow_rows_width W s r t :
  solver_wf s → rows_width W s → length r = W → rows_width W (snd (addRow W s r t)).
Proof.
  intros [_ Hrk] Hw Hr. unfold rows_width in *. rewrite addRow_unfold.
  assert (H1 : Forall (fun r : bvec => length r = W) (contents s ++ [r])).
  { apply Forall_app. split; [assumption|]. constructor; [assumption|constructor]. }
  destruct (independent W _ _) as [[|]|e]; cbn [snd contents]; try assumption.
  unfold swap_at.
  assert (Hlen : length (contents s ++ [r]) = length (contents s) + 1)
    by (rewrite length_app; reflexivity).
  apply Forall_insert; [apply Forall_insert|]; try assumption;
    apply (Forall_lookup_total_1 _ _ _ H1); lia.
Qed.

(** ** gaussianEliminate keeps the solutions *)

Lemma sat_swap_at_forward W n c t i j x :
  i < n → j < n → gauss_wf W n c t →
  sat W n c t x → sat W n (swap_at c i j) (swap_at t i j) x.
Proof.
  intros Hi Hj (Hc & Ht & _) Hsat r Hr.
  rewrite !swap_at_lookup by lia.
  repeat case_decide; subst; apply Hsat; lia.
Qed.

Lemma gauss_column_sat W n i c t x :
  gauss_wf W n c t → sat W n c t x →
  gauss_wf W n (fst (gauss_column W n i (c, t))) (snd (gauss_column W n i (c, t))) ∧
  sat W n (fst (gauss_column W n i (c, t))) (snd (gauss_column W n i (c, t))) x.
Proof.
  intros Hwf Hsat. rewrite gauss_column_unfold.
  destruct (decide (i < n)) as [Hi|Hi].
  2: { rewrite find_first_empty, for_range_ge by lia. split; assumption. }
  assert (Hmid : ∃ c1 t1,
            match find_first i n (fun j => cell c j i) with
            | Some j => (swap_at c j i, swap_at t j i)
            | None => (c, t)
            end = (c1, t1) ∧ gauss_wf W n c1 t1 ∧ sat W n c1 t1 x).
  { destruct (find_first i n (fun j => cell c j i)) as [j|] eqn:Ef.
    - apply find_first_Some in Ef. destruct Ef as (Hj & _).
      exists (swap_at c j i), (swap_at t j i). split; [reflexivity|].
      split; [apply gauss_wf_swap_at; auto; lia|].
      apply sat_swap_at_forward; auto; lia.
    - exists c, t. auto. }
  destruct Hmid as (c1 & t1 & -> & Hwf1 & Hsat1).
  destruct (gauss_below_spec W n i c1 t1 Hwf1 Hi) as (Hwf2 & _).
  destruct (gauss_below_cells W n i c1 t1 Hwf1 Hi) as (Hcell & Htgt).
  split; [exact Hwf2|].
  intros r Hr. rewrite dot_cells, Htgt.
  pose proof (Hsat1 r Hr) as Hxr. rewrite dot_cells in Hxr.
  pose proof (Hsat1 i Hi) as Hxi. rewrite dot_cells in Hxi.
  destruct (decide (i < r < n)) as [Hir|Hir].
  - rewrite (xsum_ext W _ (fun j => xorb (cell c1 r j && (x !!! j))
                                       (cell c1 r i && (cell c1 i j && (x !!! j))))).
    + rewrite xsum_xorb, xsum_andb_l, Hxr, Hxi. reflexivity.
    + intros j Hj. rewrite Hcell by assumption.
      destruct (decide (i < r < n)); [|lia].
      destruct (cell c1 r j), (cell c1 r i), (cell c1 i j), (x !!! j); reflexivity.
  - rewrite <- Hxr. apply xsum_ext. intros j Hj. rewrite Hcell by assumption.
    destruct (decide (i < r < n)); [lia|reflexivity].
Qed.

Lemma gaussianEliminate_sat W s x :
  gauss_wf W (independent_rows s) (contents s) (targets s) →
  sat W (independent_rows s) (contents s) (targets s) x →
  sat W (independent_rows s) (contents (gaussianEliminate W s)) (targets (gaussianEliminate W s)) x.
Proof.
  intros Hwf Hsat. rewrite gaussianEliminate_unfold. cbn [contents targets].
  pose (P := fun (i : nat) (st : list bvec * list bool) =>
               gauss_wf W (independent_rows s) (fst st) (snd st) ∧
               sat W (independent_rows s) (fst st) (snd st) x).
  assert (H : P W (for_range 0 W (gauss_column W (independent_rows s)) (contents s, targets s))).
  { apply (for_range_inv P); unfold P; [lia|split; assumption|].
    intros i [c t] _ [H1 H2]. cbn [fst snd] in *. apply gauss_column_sat; assumption. }
  apply H.
Qed.

(** On a triangular system with a unit diagonal every solution is the
    substituted vector. *)
Lemma sat_substituted W c t x :
  lower_zero W W c → (∀ d, d < W → cell c d d = true) →
  sat W W c t x → ∀ idx, idx < W → substituted W c t x idx.
Proof.
  intros Hlow Hdiag Hsat r Hr. unfold substituted.
  pose proof (Hsat r Hr) as H. rewrite dot_cells in H.
  rewrite (xsum_split W _ r Hr), Hdiag, andb_true_l in H by assumption.
  rewrite (xsum_ext W (fun i => if decide (i = r) then false else cell c r i && (x !!! i))
             (fun i => if decide (r < i) then (x !!! i) && cell c r i else false)) in H.
  - rewrite <- H. destruct (x !!! r), (xsum W _); reflexivity.
  - intros i Hi. destruct (decide (i = r)) as [->|Hne].
    + destruct (decide (r < r)); [lia|reflexivity].
    + destruct (decide (r < i)); [apply andb_comm|].
      rewrite (Hlow i r) by lia. reflexivity.
Qed.

(** [solve] returns the only solution of a full set of independent rows. *)
Lemma solve_unique W junk s y :
  gauss_wf W W (contents s) (targets s) →
  independent_rows s = W → lin_indep W W (contents s) →
  length y = W → sat W W (contents s) (targets s) y →
  fst (solve W junk s) = Ok y.
Proof.
  intros Hwf Hn Hind Hly Hy. rewrite solve_unfold by assumption. cbn [fst]. f_equal.
  pose proof (gaussianEliminate_inv W s) as Hinv. rewrite Hn in Hinv.
  destruct (Hinv Hwf) as [Hwf' Heq Hlow Hsat].
  pose proof (gaussianEliminate_rank W s) as Hn'. rewrite Hn in Hn'.
  destruct (backwardSubstitute_spec W (gaussianEliminate W s) junk) as [Hlen Hsub]; [lia|].
  rewrite Hn' in Hsub.
  assert (Hdiag : ∀ d, d < W → cell (contents (gaussianEliminate W s)) d d = true).
  { apply triangular_unit_diagonal; [assumption|].
    apply (lin_indep_refines W W W (contents s)); [lia|apply Heq|assumption]. }
  apply (list_eq_lookup_total _ _ W); [assumption|assumption|].
  apply (substituted_unique W (contents (gaussianEliminate W s)) (targets (gaussianEliminate W s)));
    [assumption|].
  apply sat_substituted; [assumption|assumption|].
  pose proof (gaussianEliminate_sat W s y) as Hfw. rewrite Hn in Hfw. apply Hfw; assumption.
Qed.

(** ** Any sequence of equations *)

Lemma addRows_rows_width W eqs :
  (∀ e, In e eqs → length (fst e) = W) → rows_width W (addRows W new_solver eqs).
Proof.
  induction eqs as [|e eqs IH] using rev_ind; intros Hlen; [constructor|].
  rewrite addRows_snoc. apply addRow_rows_width.
  - apply (addRows_inv W new_solver eqs (new_solver_inv W)).
  - apply IH. intros e0 He0. apply Hlen, in_or_app. auto.
  - apply Hlen, in_or_app. right. left. reflexivity.
Qed.

Lemma addRows_gauss_wf W eqs :
  (∀ e, In e eqs → length (fst e) = W) →
  gauss_wf W (independent_rows (addRows W new_solver eqs))
           (contents (addRows W new_solver eqs)) (targets (addRows W new_solver eqs)).
Proof.
  intros Hlen.
  destruct (addRows_inv W new_solver eqs (new_solver_inv W)) as [[Ht Hr] _ _].
  split; [lia|]. split; [lia|].
  intros r Hr'. apply (Forall_lookup_total_1 _ _ _ (addRows_rows_width W eqs Hlen)). lia.
Qed.

(** ** solve after any sequence of equations *)

(** X14. Whatever equations were added, once the rank is [W] the vector
    that [solve] returns satisfies every equation that [addRow] took without
    an exception and violates every equation that it rejected. *)
Theorem solve_satisfies_accepted (W : nat) (eqs : list (bvec * bool)) (junk : nat → bool) :
  (∀ e, In e eqs → length (fst e) = W) →
  getIndependent (addRows W new_solver eqs) = W →
  ∃ x s', solve W junk (addRows W new_solver eqs) = (Ok x, s') ∧ length x = W ∧
          ∀ k e, eqs !! k = Some e →
                 dot W (fst e) x = if is_ok (outcome W eqs k) then snd e else negb (snd e).
Proof.
  intros Hlen Hrank. unfold getIndependent in Hrank.
  pose proof (addRows_gauss_wf W eqs Hlen) as Hwf. rewrite Hrank in Hwf.
  destruct (addRows_inv W new_solver eqs (new_solver_inv W)) as [_ _ Hind].
  rewrite Hrank in Hind.
  destruct (solve_correct W junk _ Hwf Hrank Hind) as (x & Hx & Hl & Hsat).
  exists x. eexists. split; [exact Hx|]. split; [exact Hl|].
  intros k e He. apply addRows_outcome_sat; [assumption|]. rewrite Hrank. exact Hsat.
Qed.

Lemma solve_satisfies_accepted_witness :
  ∃ x s', solve 2 (fun _ => false)
            (addRows 2 new_solver
               [([true; false], false); ([true; false], true);
                ([true; false], false); ([true; true], true)]) = (Ok x, s') ∧
          length x = 2 ∧
          ∀ k e, [([true; false], false); ([true; false], true);
                  ([true; false], false); ([true; true], true)] !! k = Some e →
                 dot 2 (fst e) x =
                   if is_ok (outcome 2 [([true; false], false); ([true; false], true);
                                        ([true; false], false); ([true; true], true)] k)
                   then snd e else negb (snd e).
Proof.
  apply (solve_satisfies_accepted 2
           [([true; false], false); ([true; false], true);
            ([true; false], false); ([true; true], true)] (fun _ => false)).
  - intros e He. simpl in He. repeat (destruct He as [<-|He]; [reflexivity|]). destruct He.
  - reflexivity.
Defined.

(** X15. Once the rank is [W], [solve] returns the only vector that
    satisfies the equations taken without an exception. *)
Theorem solve_only_solution (W : nat) (eqs : list (bvec * bool)) (junk : nat → bool) (y : bvec) :
  (∀ e, In e eqs → length (fst e) = W) →
  getIndependent (addRows W new_solver eqs) = W →
  length y = W →
  (∀ k e, eqs !! k = Some e → is_ok (outcome W eqs k) = true → dot W (fst e) y = snd e) →
  fst (solve W junk (addRows W new_solver eqs)) = Ok y.
Proof.
  intros Hlen Hrank Hly Hy. unfold getIndependent in Hrank.
  pose proof (addRows_gauss_wf W eqs Hlen) as Hwf. rewrite Hrank in Hwf.
  destruct (addRows_inv W new_solver eqs (new_solver_inv W)) as [_ _ Hind].
  rewrite Hrank in Hind.
  apply solve_unique; try assumption.
  intros i Hi. rewrite <- Hrank in Hi.
  destruct (addRows_prefix_from W eqs i Hi) as (k & e & Hk & Hok & -> & ->).
  apply (Hy k e Hk Hok).
Qed.

Lemma solve_only_solution_witness :
  fst (solve 2 (fun _ => false)
         (addRows 2 new_solver
            [([true; false], false); ([true; false], true);
             ([true; false], false); ([true; true], true)])) = Ok [false; true].
Proof.
  apply (solve_only_solution 2
           [([true; false], false); ([true; false], true);
            ([true; false], false); ([true; true], true)] (fun _ => false) [false; true]).
  - intros e He. simpl in He. repeat (destruct He as [<-|He]; [reflexivity|]). destruct He.
  - reflexivity.
  - reflexivity.
  - intros k e Hk Hok.
    destruct k as [|[|[|[|k]]]]; cbn in Hk; try discriminate Hk;
      injection Hk as <-; try reflexivity; vm_compute in Hok; discriminate Hok.
Defined.

(** ** One call of addRow *)

Lemma implied_target_single n t k :
  k < n → implied_target n (fun r => bool_decide (r = k)) t = t !!! k.
Proof.
  intros Hk. unfold implied_target.
  rewrite (xsum_ext n _ (fun i => if decide (i = k) then t !!! k else false)).
  - rewrite xsum_delta. destruct (decide (k < n)); [reflexivity|lia].
  - intros i _. destruct (decide (i = k)) as [->|Hne].
    + rewrite bool_decide_eq_true_2 by reflexivity. reflexivity.
    + rewrite bool_decide_eq_false_2 by assumption. reflexivity.
Qed.

Section AddRowSpan.
Variable W : nat.
Variable s : MatrixSolver.
Variable new_row : bvec.
Variable solution : bool.
Hypothesis Hinv : solver_inv W s.

Lemma addRow_grows_iff :
  independent_rows (snd (addRow W s new_row solution)) = S (independent_rows s) ↔
  ¬ ∃ c, combines W (independent_rows s) c (contents s) new_row.
Proof using Hinv.
  destruct Hinv as [Hwf Hr Hind]. split.
  - intros Hgrow (c & Hc). revert Hgrow. rewrite addRow_unfold.
    destruct (independent W _ _) as [[|]|e] eqn:E; cbn [snd independent_rows]; try lia.
    intros _. apply independent_true in E. destruct E as [_ E].
    exact (in_span_not_independent W s new_row solution Hwf c Hc E).
  - intros Hout. rewrite (addRow_independent W s new_row solution Hwf Hind); [reflexivity|].
    intros c Hc. apply Hout. exists c. exact Hc.
Qed.

(** After the call the row is in the span of the accepted rows, which
    imply its target when the call returned and the opposite when it threw. *)
Lemma addRow_then_in_span :
  ∃ c, combines W (independent_rows (snd (addRow W s new_row solution))) c
                (contents (snd (addRow W s new_row solution))) new_row ∧
       implied_target (independent_rows (snd (addRow W s new_row solution))) c
                      (targets (snd (addRow W s new_row solution))) =
         if is_ok (fst (addRow W s new_row solution)) then solution else negb solution.
Proof using Hinv.
  pose proof (addRow_rank W s new_row solution) as Hrk.
  destruct (decide (independent_rows (snd (addRow W s new_row solution)) = independent_rows s))
    as [Hsame|Hgrow].
  - destruct (addRow_same_rank W s new_row solution Hinv Hsame) as (c & Hc & Ht).
    exists c. rewrite Hsame. split.
    + intros col Hcol. rewrite <- (Hc col Hcol). apply xsum_ext. intros i Hi.
      unfold cell. destruct (addRow_keeps_prefix W s new_row solution Hinv i Hi) as [-> _].
      reflexivity.
    + rewrite <- Ht. apply xsum_ext. intros i Hi.
      destruct (addRow_keeps_prefix W s new_row solution Hinv i Hi) as [_ ->]. reflexivity.
  - assert (Hg : independent_rows (snd (addRow W s new_row solution)) = S (independent_rows s))
      by lia.
    destruct (addRow_new_pivot W s new_row solution Hinv Hg) as (Hrow & Htg & Hok).
    exists (fun r => bool_decide (r = independent_rows s)). rewrite Hg, Hok. cbn [is_ok]. split.
    + intros col Hcol. rewrite lincomb_single by lia. unfold cell. rewrite Hrow. reflexivity.
    + rewrite implied_target_single by lia. exact Htg.
Qed.
End AddRowSpan.

(** X12. [addRow] stores the row whatever the outcome, leaves the accepted
    rows where they are, and raises the rank exactly when the new row is no
    combination of the accepted rows. *)
Theorem addRow_rank_grows_iff (W : nat) (s : MatrixSolver) (new_row : bvec) (solution : bool) :
  solver_inv W s →
  length (contents (snd (addRow W s new_row solution))) = S (length (contents s)) ∧
  (∀ i, i < getIndependent s →
        contents (snd (addRow W s new_row solution)) !!! i = contents s !!! i ∧
        targets (snd (addRow W s new_row solution)) !!! i = targets s !!! i) ∧
  (getIndependent (snd (addRow W s new_row solution)) = S (getIndependent s) ↔
   ¬ ∃ c, combines W (getIndependent s) c (contents s) new_row) ∧
  (getIndependent (snd (addRow W s new_row solution)) = getIndependent s ↔
   ∃ c, combines W (getIndependent s) c (contents s) new_row).
Proof.
  intros Hinv. unfold getIndependent.
  pose proof (addRow_rank W s new_row solution) as Hrk.
  pose proof (addRow_grows_iff W s new_row solution Hinv) as Hiff.
  split; [|split; [|split]].
  - rewrite addRow_unfold. destruct (independent W _ _) as [[|]|e]; cbn [snd contents];
      rewrite ?swap_at_length, length_app; cbn; lia.
  - intros i Hi. apply addRow_keeps_prefix; assumption.
  - exact Hiff.
  - split.
    + intros Hsame. apply (addRow_same_rank W s new_row solution Hinv) in Hsame.
      destruct Hsame as (c & Hc & _). exists c. exact Hc.
    + intros Hc.
      destruct (decide (independent_rows (snd (addRow W s new_row solution)) = independent_rows s))
        as [|Hne]; [assumption|].
      exfalso. apply Hiff; [lia|assumption].
Qed.

Lemma addRow_rank_grows_iff_witness :
  length (contents (snd (addRow 2 (mkSolver 1 [[true; false]] [false]) [true; true] true))) =
    S (length (contents (mkSolver 1 [[true; false]] [false]))) ∧
  (∀ i, i < getIndependent (mkSolver 1 [[true; false]] [false]) →
        contents (snd (addRow 2 (mkSolver 1 [[true; false]] [false]) [true; true] true)) !!! i =
          contents (mkSolver 1 [[true; false]] [false]) !!! i ∧
        targets (snd (addRow 2 (mkSolver 1 [[true; false]] [false]) [true; true] true)) !!! i =
          targets (mkSolver 1 [[true; false]] [false]) !!! i) ∧
  (getIndependent (snd (addRow 2 (mkSolver 1 [[true; false]] [false]) [true; true] true)) =
     S (getIndependent (mkSolver 1 [[true; false]] [false])) ↔
   ¬ ∃ c, combines 2 (getIndependent (mkSolver 1 [[true; false]] [false])) c
            (contents (mkSolver 1 [[true; false]] [false])) [true; true]) ∧
  (getIndependent (snd (addRow 2 (mkSolver 1 [[true; false]] [false]) [true; true] true)) =
     getIndependent (mkSolver 1 [[true; false]] [false]) ↔
   ∃ c, combines 2 (getIndependent (mkSolver 1 [[true; false]] [false])) c
          (contents (mkSolver 1 [[true; false]] [false])) [true; true]).
Proof.
  apply (addRow_rank_grows_iff 2 (mkSolver 1 [[true; false]] [false]) [true; true] true).
  change (mkSolver 1 [[true; false]] [false])
    with (snd (addRow 2 new_solver [true; false] false)).
  apply addRow_inv, new_solver_inv.
Defined.

(** X13. An equation added a second time is taken and leaves the rank as
    it is; added with the opposite target it is rejected. *)
Theorem addRow_repeated (W : nat) (s : MatrixSolver) (new_row : bvec) (solution b : bool) :
  solver_inv W s →
  fst (addRow W s new_row solution) = Ok () →
  let s' := snd (addRow W s new_row solution) in
  getIndependent (snd (addRow W s' new_row b)) = getIndependent s' ∧
  fst (addRow W s' new_row b) =
    if bool_decide (b = solution) then Ok () else Throw "Invalid equation".
Proof.
  intros Hinv Hok s'.
  assert (Hinv' : solver_inv W s') by apply addRow_inv, Hinv.
  destruct (addRow_then_in_span W s new_row solution Hinv) as (c & Hc & Ht).
  fold s' in Hc, Ht. rewrite Hok in Ht. cbn [is_ok] in Ht.
  split.
  { pose proof (addRow_rank W s' new_row b) as Hrk.
    pose proof (addRow_grows_iff W s' new_row b Hinv') as Hiff. unfold getIndependent.
    destruct (decide (independent_rows (snd (addRow W s' new_row b)) = independent_rows s'))
      as [|Hne]; [assumption|].
    exfalso. apply Hiff; [lia|]. exists c. exact Hc. }
  destruct Hinv' as [Hwf' Hr' Hind'].
  pose proof (addRow_throw_iff W s' new_row b Hwf' Hind') as Hthrow.
  destruct (fst (addRow W s' new_row b)) as [[]|e] eqn:E.
  - case_bool_decide as Hb; [reflexivity|]. exfalso.
    assert (Hex : ∃ e, Ok () = @Throw unit e).
    { apply Hthrow. exists c. split; [exact Hc|]. rewrite Ht.
      destruct b, solution; try reflexivity; congruence. }
    destruct Hex as [e He]. discriminate.
  - destruct (proj1 Hthrow (ex_intro _ e eq_refl)) as (c2 & Hc2 & Ht2).
    rewrite (implied_target_unique W _ (contents s') new_row (targets s') c2 c) in Ht2
      by assumption.
    rewrite Ht in Ht2. case_bool_decide as Hb; [subst b; destruct solution; discriminate|].
    f_equal.
    pose proof (addRow_unfold W s' new_row b) as Hu. rewrite Hu in E.
    destruct (independent W _ _) as [[|]|e'] eqn:Ei; try discriminate.
    cbn in E. injection E as <-.
    unfold independent in Ei. destruct (eliminate_copy _ _ _) as [cc ro].
    destruct (one_vector _ _); [injection Ei as <-; reflexivity|discriminate].
Qed.

Lemma addRow_repeated_witness :
  let s' := snd (addRow 2 new_solver [true; true] true) in
  getIndependent (snd (addRow 2 s' [true; true] false)) = getIndependent s' ∧
  fst (addRow 2 s' [true; true] false) =
    if bool_decide (false = true) then Ok () else Throw "Invalid equation".
Proof.
  apply (addRow_repeated 2 new_solver [true; true] true false).
  - apply new_solver_inv.
  - reflexivity.
Defined.

(** ** gaussianEliminate and solve, further *)

(** X16. [gaussianEliminate] keeps the rank and the solutions of the
    accepted rows, and leaves zeros below the diagonal, whatever the rank is. *)
Theorem gaussianEliminate_keeps_solutions (W : nat) (s : MatrixSolver) (x : bvec) :
  gauss_wf W (getIndependent s) (contents s) (targets s) →
  getIndependent (gaussianEliminate W s) = getIndependent s ∧
  (sat W (getIndependent s) (contents (gaussianEliminate W s)) (targets (gaussianEliminate W s)) x
   ↔ sat W (getIndependent s) (contents s) (targets s) x) ∧
  ∀ col r, col < W → col < r < getIndependent s →
           cell (contents (gaussianEliminate W s)) r col = false.
Proof.
  intros Hwf. unfold getIndependent in *.
  destruct (gaussianEliminate_inv W s Hwf) as [_ _ Hlow Hsat].
  split; [apply gaussianEliminate_rank|]. split.
  - split; [apply Hsat|apply gaussianEliminate_sat, Hwf].
  - exact Hlow.
Qed.

Lemma gaussianEliminate_keeps_solutions_witness :
  getIndependent (gaussianEliminate 2 (mkSolver 2 [[false; true]; [true; true]] [true; false]))
    = getIndependent (mkSolver 2 [[false; true]; [true; true]] [true; false]) ∧
  (sat 2 (getIndependent (mkSolver 2 [[false; true]; [true; true]] [true; false]))
       (contents (gaussianEliminate 2 (mkSolver 2 [[false; true]; [true; true]] [true; false])))
       (targets (gaussianEliminate 2 (mkSolver 2 [[false; true]; [true; true]] [true; false])))
       [true; true]
   ↔ sat 2 (getIndependent (mkSolver 2 [[false; true]; [true; true]] [true; false]))
         (contents (mkSolver 2 [[false; true]; [true; true]] [true; false]))
         (targets (mkSolver 2 [[false; true]; [true; true]] [true; false])) [true; true]) ∧
  ∀ col r, col < 2 → col < r < getIndependent (mkSolver 2 [[false; true]; [true; true]] [true; false]) →
           cell (contents (gaussianEliminate 2 (mkSolver 2 [[false; true]; [true; true]] [true; false])))
                r col = false.
Proof.
  apply (gaussianEliminate_keeps_solutions 2
           (mkSolver 2 [[false; true]; [true; true]] [true; false]) [true; true]).
  split; [cbn; lia|]. split; [cbn; lia|].
  intros r Hr. cbn in Hr. destruct r as [|[|r]]; [reflexivity|reflexivity|lia].
Defined.

Lemma addRow_contents_length W s r t :
  length (contents (snd (addRow W s r t))) = S (length (contents s)).
Proof.
  rewrite addRow_unfold. destruct (independent W _ _) as [[|]|e]; cbn [snd contents];
    rewrite ?swap_at_length, length_app; cbn; lia.
Qed.

Lemma addRows_contents_length W s eqs :
  length (contents (addRows W s eqs)) = length (contents s) + length eqs.
Proof.
  revert s. induction eqs as [|e eqs IH]; intros s; [cbn; lia|].
  rewrite addRows_cons, IH, addRow_contents_length. cbn. lia.
Qed.

(** X2. The rank is at most the number of equations added, so that [solve]
    throws, and leaves the solver as it is, after fewer than [Width] calls
    of [addRow]. *)
Theorem solve_needs_width_rows (W : nat) (eqs : list (bvec * bool)) (junk : nat → bool) :
  length eqs < W →
  getIndependent (addRows W new_solver eqs) ≤ length eqs ∧
  solve W junk (addRows W new_solver eqs) =
    (Throw "Could not solve, invalid number of rows", addRows W new_solver eqs).
Proof.
  intros Hlen.
  destruct (addRows_inv W new_solver eqs (new_solver_inv W)) as [[_ Hr] _ _].
  rewrite addRows_contents_length in Hr. cbn in Hr.
  split; [exact Hr|]. apply solve_underdetermined. lia.
Qed.

Lemma solve_needs_width_rows_witness :
  getIndependent (addRows 3 new_solver [([true; true; false], false); ([false; true; false], true)])
    ≤ length [([true; true; false], false); ([false; true; false], true)] ∧
  solve 3 (fun _ => false)
        (addRows 3 new_solver [([true; true; false], false); ([false; true; false], true)]) =
    (Throw "Could not solve, invalid number of rows",
     addRows 3 new_solver [([true; true; false], false); ([false; true; false], true)]).
Proof.
  apply (solve_needs_width_rows 3 [([true; true; false], false); ([false; true; false], true)]
           (fun _ => false)).
  cbn. lia.
Defined.

Local Open Scope Z_scope.

(** ** The masked encoding *)

Lemma land_bit_testbit x k : 0 ≤ k → (Z.land x (Z.shiftl 1 k) =? 0) = negb (Z.testbit x k).
Proof.
  intros Hk. rewrite Z.shiftl_1_l.
  assert (E : Z.land x (2 ^ k) = if Z.testbit x k then 2 ^ k else 0).
  { apply Z.bits_inj'. intros n Hn. rewrite Z.land_spec, Z.pow2_bits_eqb by assumption.
    destruct (Z.testbit x k) eqn:Ex.
    - rewrite Z.pow2_bits_eqb by assumption.
      destruct (Z.eqb_spec k n) as [<-|]; [rewrite Ex; reflexivity|apply andb_false_r].
    - rewrite Z.bits_0.
      destruct (Z.eqb_spec k n) as [<-|]; [rewrite Ex; reflexivity|apply andb_false_r]. }
  rewrite E. destruct (Z.testbit x k); [|reflexivity].
  apply Z.eqb_neq. pose proof (Z.pow_pos_nonneg 2 k). lia.
Qed.

Lemma decode_row_length W e : length (decode_row W e) = W.
Proof. unfold decode_row. rewrite length_map, length_seq. reflexivity. Qed.

Lemma decode_row_lookup W e i :
  (i < W)%nat → decode_row W e !!! i = Z.testbit e (Z.of_nat (i + 1)).
Proof.
  intros Hi. unfold decode_row. rewrite lookup_total_map_seq by assumption.
  rewrite land_bit_testbit by lia. cbn. apply negb_involutive.
Qed.

Lemma decode_target_bit e : decode_target e = Z.testbit e 0.
Proof. unfold decode_target. rewrite land_1_testbit. apply negb_involutive. Qed.

Lemma addRow_encoded_decode W s e :
  addRow_encoded W s e = addRow W s (decode_row W e) (decode_target e).
Proof. reflexivity. Qed.

Lemma feed_solver_addRows W s samples :
  feed_solver W s samples = addRows W s (map (decode_equation W) samples).
Proof.
  revert s. induction samples as [|j samples IH]; intros s; [reflexivity|].
  cbn. apply IH.
Qed.

Lemma mapM_Some_map {A B} (f : A → option B) (g : A → B) (l : list A) :
  (∀ x, In x l → f x = Some (g x)) → mapM f l = Some (map g l).
Proof.
  induction l as [|a l IH]; intros H; [reflexivity|].
  cbn. rewrite (H a) by (left; reflexivity). cbn.
  rewrite IH by (intros x Hx; apply H; right; exact Hx). reflexivity.
Qed.

Lemma mapM_None_at {A B} (f : A → option B) (l : list A) (x : A) :
  In x l → f x = None → mapM f l = None.
Proof.
  induction l as [|a l IH]; intros Hin Hx; [destruct Hin|].
  cbn. destruct Hin as [->|Hin].
  - rewrite Hx. reflexivity.
  - destruct (f a); [|reflexivity]. cbn. rewrite IH by assumption. reflexivity.
Qed.

Lemma int_shl_one k : (k ≤ 30)%nat → int_shl 1 k = Some (Z.shiftl 1 (Z.of_nat k)).
Proof.
  intros Hk. change 1 with (Z.b2z true) at 1. rewrite int_shl_exact by assumption.
  f_equal. apply wrap_small. cbn [Z.b2z]. rewrite Z.shiftl_1_l.
  split; [apply Z.pow_nonneg; lia|]. apply Z.pow_lt_mono_r; lia.
Qed.

Lemma int_shl_one_31 : int_shl 1 31 = Some (wrap (2 ^ 31 - 2 ^ 32)).
Proof. reflexivity. Qed.

(** The mask [1 << 31] selects the bits 31 to 63. *)
Lemma land_int_min encoded :
  0 ≤ encoded < 2 ^ 64 →
  (Z.land encoded (wrap (2 ^ 31 - 2 ^ 32)) =? 0) = negb (2 ^ 31 <=? encoded).
Proof.
  intros He.
  assert (E : Z.land encoded (wrap (2 ^ 31 - 2 ^ 32)) = Z.shiftl (Z.shiftr encoded 31) 31).
  { apply Z.bits_inj'. intros n Hn. rewrite Z.land_spec, <- (Z2Nat.id n Hn), int_min_bits.
    rewrite Z2Nat.id by assumption.
    destruct (Nat.leb_spec 31 (Z.to_nat n)) as [H1|H1].
    - rewrite Z.shiftl_spec, Z.shiftr_spec by lia. replace (n - 31 + 31) with n by lia.
      destruct (Nat.ltb_spec (Z.to_nat n) 64) as [H2|H2]; [apply andb_true_r|].
      rewrite andb_false_r. symmetry. apply (fits_testbit_high 64); [exact He|lia].
    - rewrite andb_false_r. symmetry. apply Z.shiftl_spec_low. lia. }
  rewrite E, Z.shiftl_mul_pow2, Z.shiftr_div_pow2 by lia.
  destruct (Z.leb_spec (2 ^ 31) encoded) as [Hge|Hlt]; cbn [negb].
  - apply Z.eqb_neq. assert (1 ≤ encoded / 2 ^ 31) by (apply Z.div_le_lower_bound; lia). lia.
  - apply Z.eqb_eq. rewrite Z.div_small by lia. reflexivity.
Qed.

Lemma addRow_encoded_int_exact W s encoded :
  (W ≤ 30)%nat → addRow_encoded_int W s encoded = Some (addRow_encoded W s encoded).
Proof.
  intros HW. unfold addRow_encoded_int, addRow_encoded.
  rewrite (mapM_Some_map _ (fun i => negb (Z.land encoded (Z.shiftl 1 (Z.of_nat (i + 1))) =? 0)));
    [reflexivity|].
  intros i Hi. apply in_seq in Hi. rewrite int_shl_one by lia. reflexivity.
Qed.

(** X17. [addRow(size_t)] builds its masks as the [int] [1 << (i+1)].  For
    [Width <= 30] it reads the low [Width + 1] bits of its argument: bit 0
    is the target and bit [i + 1] is coefficient [i].  For [Width = 31] the
    last mask is [INT_MIN], sign-extended: coefficient 30 is set when any of
    the bits 31 to 63 is.  For [Width >= 32] a shift is undefined. *)
Theorem addRow_encoded_int_reads (W : nat) (s : MatrixSolver) (encoded : Z) :
  ((W ≤ 30)%nat →
   addRow_encoded_int W s encoded =
     Some (addRow W s (map (fun i => Z.testbit encoded (Z.of_nat (i + 1))) (seq 0 W))
                  (Z.testbit encoded 0)) ∧
   addRow_encoded_int W s (encoded mod 2 ^ Z.of_nat (W + 1)) = addRow_encoded_int W s encoded) ∧
  (W = 31%nat → 0 ≤ encoded < 2 ^ 64 →
   addRow_encoded_int W s encoded =
     Some (addRow W s (map (fun i => if (i <? 30)%nat then Z.testbit encoded (Z.of_nat (i + 1))
                                     else 2 ^ 31 <=? encoded) (seq 0 W))
                  (Z.testbit encoded 0))) ∧
  ((32 ≤ W)%nat → addRow_encoded_int W s encoded = None).
Proof.
  assert (Hlow : ∀ e, (W ≤ 30)%nat →
            addRow_encoded_int W s e =
              Some (addRow W s (map (fun i => Z.testbit e (Z.of_nat (i + 1))) (seq 0 W))
                           (Z.testbit e 0))).
  { intros e HW. unfold addRow_encoded_int.
    rewrite (mapM_Some_map _ (fun i => Z.testbit e (Z.of_nat (i + 1)))).
    - rewrite land_1_testbit, negb_involutive. reflexivity.
    - intros i Hi. apply in_seq in Hi. rewrite int_shl_one by lia.
      rewrite land_bit_testbit by lia. rewrite negb_involutive. reflexivity. }
  split; [|split].
  - intros HW. split; [apply Hlow, HW|]. rewrite !Hlow by assumption. f_equal. f_equal.
    + apply map_ext_in. intros i Hi. apply in_seq in Hi. apply Z.mod_pow2_bits_low. lia.
    + apply Z.mod_pow2_bits_low. lia.
  - intros -> He. unfold addRow_encoded_int.
    rewrite (mapM_Some_map _ (fun i => if (i <? 30)%nat then Z.testbit encoded (Z.of_nat (i + 1))
                                       else 2 ^ 31 <=? encoded)).
    + rewrite land_1_testbit, negb_involutive. reflexivity.
    + intros i Hi. apply in_seq in Hi. destruct (Nat.ltb_spec i 30) as [Hlt|Hge].
      * rewrite int_shl_one by lia. rewrite land_bit_testbit by lia.
        rewrite negb_involutive. reflexivity.
      * replace i with 30%nat by lia.
        change (30 + 1)%nat with 31%nat. rewrite int_shl_one_31.
        rewrite land_int_min by assumption. rewrite negb_involutive. reflexivity.
  - intros HW. unfold addRow_encoded_int.
    rewrite (mapM_None_at _ _ 31%nat); [reflexivity|apply in_seq; lia|reflexivity].
Qed.

Lemma addRow_encoded_int_reads_witness :
  ((3 ≤ 30)%nat →
   addRow_encoded_int 3 new_solver 22 =
     Some (addRow 3 new_solver (map (fun i => Z.testbit 22 (Z.of_nat (i + 1))) (seq 0 3))
                  (Z.testbit 22 0)) ∧
   addRow_encoded_int 3 new_solver (22 mod 2 ^ Z.of_nat (3 + 1)) = addRow_encoded_int 3 new_solver 22) ∧
  (3%nat = 31%nat → 0 ≤ 22 < 2 ^ 64 →
   addRow_encoded_int 3 new_solver 22 =
     Some (addRow 3 new_solver (map (fun i => if (i <? 30)%nat then Z.testbit 22 (Z.of_nat (i + 1))
                                     else 2 ^ 31 <=? 22) (seq 0 3))
                  (Z.testbit 22 0))) ∧
  ((32 ≤ 3)%nat → addRow_encoded_int 3 new_solver 22 = None).
Proof. exact (addRow_encoded_int_reads 3 new_solver 22). Defined.

Lemma xsum_shift n f : xsum (S n) f = xorb (f O) (xsum n (fun i => f (S i))).
Proof.
  induction n as [|n IH]; [cbn; destruct (f O); reflexivity|].
  change (xsum (S (S n)) f) with (xorb (xsum (S n) f) (f (S n))). rewrite IH. cbn [xsum].
  destruct (f O), (xsum n _), (f (S n)); reflexivity.
Qed.

(** The product of a sample with an encoded vector, by the decoded equation. *)
Lemma bits_dot_decode W y x :
  (W < 63)%nat → length x = W →
  bits_dot (W + 1) y (encode_solution x) = xorb (decode_target y) (dot W (decode_row W y) x).
Proof.
  intros HW Hlen. unfold bits_dot. replace (W + 1)%nat with (S W) by lia.
  rewrite xsum_shift. f_equal.
  - rewrite (encode_solution_bits x 0), andb_true_r, decode_target_bit. reflexivity.
  - unfold dot. apply xsum_ext. intros i Hi.
    rewrite decode_row_lookup by assumption. replace (i + 1)%nat with (S i) by lia.
    rewrite (encode_solution_bits x (S i)).
    rewrite !bool_decide_eq_true_2 by lia. reflexivity.
Qed.

Lemma encode_solution_range x :
  (length x < 63)%nat → 0 < encode_solution x < 2 ^ Z.of_nat (length x + 1).
Proof.
  intros HW.
  assert (E : encode_solution x mod 2 ^ Z.of_nat (length x + 1) = encode_solution x).
  { apply Z.bits_inj'. intros n Hn.
    destruct (Z.lt_ge_cases n (Z.of_nat (length x + 1))).
    - apply Z.mod_pow2_bits_low. lia.
    - rewrite Z.mod_pow2_bits_high by lia.
      rewrite <- (Z2Nat.id n Hn), encode_solution_bits.
      destruct (Z.to_nat n) as [|i] eqn:En; [lia|].
      rewrite bool_decide_eq_false_2 by lia. reflexivity. }
  assert (H0 : Z.testbit (encode_solution x) 0 = true) by apply (encode_solution_bits x 0).
  pose proof (Z.mod_pos_bound (encode_solution x) (2 ^ Z.of_nat (length x + 1))
                ltac:(apply Z.pow_pos_nonneg; lia)) as Hb.
  rewrite E in Hb. split; [|lia].
  destruct (Z.eq_dec (encode_solution x) 0) as [Ez|]; [|lia].
  rewrite Ez in H0. discriminate.
Qed.

(** Decoding undoes the encoding of a solution, and encoding undoes the
    decoding of an odd string of [W + 1] bits. *)
Lemma decode_encode W x :
  (W < 63)%nat → length x = W →
  decode_row W (encode_solution x) = x ∧ decode_target (encode_solution x) = true.
Proof.
  intros HW Hlen. split.
  - apply (list_eq_lookup_total _ _ W); [apply decode_row_length|assumption|].
    intros i Hi. rewrite decode_row_lookup by assumption.
    replace (i + 1)%nat with (S i) by lia. rewrite (encode_solution_bits x (S i)).
    rewrite !bool_decide_eq_true_2 by lia. reflexivity.
  - rewrite decode_target_bit. apply (encode_solution_bits x 0).
Qed.

Lemma encode_decode W s :
  (W < 63)%nat → 0 ≤ s < 2 ^ Z.of_nat (W + 1) → Z.testbit s 0 = true →
  encode_solution (decode_row W s) = s.
Proof.
  intros HW Hs H0. apply Z.bits_inj'. intros n Hn.
  rewrite <- (Z2Nat.id n Hn), encode_solution_bits, decode_row_length.
  destruct (Z.to_nat n) as [|i] eqn:En.
  - rewrite <- H0. f_equal.
  - destruct (decide (i < W)%nat) as [Hi|Hi].
    + rewrite !bool_decide_eq_true_2 by lia. rewrite decode_row_lookup by assumption.
      rewrite !andb_true_l. f_equal. lia.
    + rewrite bool_decide_eq_false_2 by assumption. symmetry.
      apply (fits_testbit_high (W + 1)); [exact Hs|lia].
Qed.

(** ** solveEncoded after any sequence of samples *)

Lemma decode_equations_width W samples :
  ∀ e, In e (map (decode_equation W) samples) → length (fst e) = W.
Proof.
  intros e He. apply in_map_iff in He. destruct He as (j & <- & _). apply decode_row_length.
Qed.

Lemma feed_solver_take W samples k :
  feed_solver W new_solver (take k samples) =
  addRows W new_solver (take k (map (decode_equation W) samples)).
Proof. rewrite feed_solver_addRows. f_equal. symmetry. apply firstn_map. Qed.

Lemma sample_outcome W samples k j :
  samples !! k = Some j →
  outcome W (map (decode_equation W) samples) k =
    fst (addRow_encoded W (feed_solver W new_solver (take k samples)) j).
Proof.
  intros Hk. unfold outcome.
  change (map (decode_equation W) samples) with (decode_equation W <$> samples).
  rewrite list_lookup_fmap, Hk. cbn [fmap option_fmap option_map].
  rewrite feed_solver_take. reflexivity.
Qed.

(** X18. Once the rank is [W], the string that [solveEncoded] returns is
    a nonzero string of [W + 1] bits that has an even number of bits in
    common with every sample that [addRow] took without an exception, and an
    odd number with every sample it rejected. *)
Theorem solveEncoded_orthogonal (W : nat) (samples : list Z) (junk : nat → bool) :
  (W ≤ 30)%nat →
  getIndependent (feed_solver W new_solver samples) = W →
  ∃ enc s', solveEncoded W junk (feed_solver W new_solver samples) = (Ok enc, s') ∧
            0 < enc < 2 ^ Z.of_nat (W + 1) ∧
            ∀ k j, samples !! k = Some j →
                   bits_dot (W + 1) j enc =
                     negb (is_ok (fst (addRow_encoded W (feed_solver W new_solver (take k samples)) j))).
Proof.
  intros HW Hrank. rewrite feed_solver_addRows in *. unfold getIndependent in Hrank.
  set (eqs := map (decode_equation W) samples) in *.
  pose proof (addRows_gauss_wf W eqs (decode_equations_width W samples)) as Hwf.
  rewrite Hrank in Hwf.
  destruct (addRows_inv W new_solver eqs (new_solver_inv W)) as [_ _ Hind].
  rewrite Hrank in Hind.
  destruct (solve_correct W junk _ Hwf Hrank Hind) as (x & Hx & Hl & Hsat).
  rewrite solveEncoded_unfold, Hx. eexists. eexists. split; [reflexivity|].
  split; [rewrite <- Hl; apply encode_solution_range; lia|].
  intros k j Hk. rewrite bits_dot_decode by lia.
  assert (He : eqs !! k = Some (decode_equation W j)).
  { unfold eqs. change (map (decode_equation W) samples) with (decode_equation W <$> samples).
    rewrite list_lookup_fmap, Hk. reflexivity. }
  pose proof (addRows_outcome_sat W eqs k _ x He) as Hd.
  rewrite Hrank in Hd. specialize (Hd Hsat).
  unfold eqs in Hd. rewrite (sample_outcome W samples k j Hk) in Hd.
  cbn [fst snd decode_equation] in Hd. rewrite Hd.
  destruct (is_ok _), (decode_target j); reflexivity.
Qed.

Lemma solveEncoded_orthogonal_witness :
  ∃ enc s', solveEncoded 3 (fun _ => false) (feed_solver 3 new_solver [6; 1; 5; 6; 9]) = (Ok enc, s') ∧
            0 < enc < 2 ^ Z.of_nat (3 + 1) ∧
            ∀ k j, [6; 1; 5; 6; 9] !! k = Some j →
                   bits_dot (3 + 1) j enc =
                     negb (is_ok (fst (addRow_encoded 3
                                         (feed_solver 3 new_solver (take k [6; 1; 5; 6; 9])) j))).
Proof.
  apply (solveEncoded_orthogonal 3 [6; 1; 5; 6; 9] (fun _ => false)).
  - lia.
  - reflexivity.
Defined.

(** It is the only odd string of [W + 1] bits with that property. *)
Lemma solveEncoded_determined W samples junk s :
  (W ≤ 30)%nat →
  independent_rows (feed_solver W new_solver samples) = W →
  0 ≤ s < 2 ^ Z.of_nat (W + 1) → Z.testbit s 0 = true →
  (∀ k j, samples !! k = Some j →
          is_ok (fst (addRow_encoded W (feed_solver W new_solver (take k samples)) j)) = true →
          bits_dot (W + 1) j s = false) →
  fst (solveEncoded W junk (feed_solver W new_solver samples)) = Ok s.
Proof.
  intros HW Hrank Hs H0 Hort. rewrite feed_solver_addRows in *.
  set (eqs := map (decode_equation W) samples) in *.
  pose proof (addRows_gauss_wf W eqs (decode_equations_width W samples)) as Hwf.
  rewrite Hrank in Hwf.
  destruct (addRows_inv W new_solver eqs (new_solver_inv W)) as [_ _ Hind].
  rewrite Hrank in Hind.
  assert (Hy : fst (solve W junk (addRows W new_solver eqs)) = Ok (decode_row W s)).
  { apply solve_unique; try assumption; [apply decode_row_length|].
    intros i Hi. rewrite <- Hrank in Hi.
    destruct (addRows_prefix_from W eqs i Hi) as (k & e & Hk & Hok & -> & ->).
    unfold eqs in Hk. change (map (decode_equation W) samples) with (decode_equation W <$> samples) in Hk.
    rewrite list_lookup_fmap in Hk.
    destruct (samples !! k) as [j|] eqn:Ej; [|discriminate]. injection Hk as <-.
    unfold eqs in Hok. rewrite (sample_outcome W samples k j Ej) in Hok.
    specialize (Hort k j Ej Hok).
    rewrite <- (encode_decode W s) in Hort by (assumption || lia).
    rewrite bits_dot_decode in Hort by (try apply decode_row_length; lia).
    cbn [fst snd decode_equation].
    destruct (decode_target j), (dot W (decode_row W j) (decode_row W s)); cbn in Hort;
      congruence. }
  rewrite solveEncoded_unfold. destruct (solve W junk _) as [[x|e] s'']; cbn in Hy; [|discriminate].
  injection Hy as ->. cbn. f_equal. apply encode_decode; (assumption || lia).
Qed.

(** X19. Once the rank is [W], an odd string of [W + 1] bits that has an
    even number of bits in common with every sample taken without an
    exception is the string that [solveEncoded] returns. *)
Theorem solveEncoded_only_string (W : nat) (samples : list Z) (junk : nat → bool) (s : Z) :
  (W ≤ 30)%nat →
  getIndependent (feed_solver W new_solver samples) = W →
  0 ≤ s < 2 ^ Z.of_nat (W + 1) → Z.odd s = true →
  (∀ k j, samples !! k = Some j →
          fst (addRow_encoded W (feed_solver W new_solver (take k samples)) j) = Ok () →
          bits_dot (W + 1) j s = false) →
  fst (solveEncoded W junk (feed_solver W new_solver samples)) = Ok s.
Proof.
  intros HW Hrank Hs Hodd Hort.
  assert (H0 : Z.testbit s 0 = true) by (rewrite Z.bit0_odd; exact Hodd).
  apply (solveEncoded_determined W samples junk s HW Hrank Hs H0).
  intros k j Hk Hok. apply (Hort k j Hk).
  destruct (fst (addRow_encoded W _ j)) as [[]|e]; [reflexivity|discriminate].
Qed.

Lemma solveEncoded_only_string_witness :
  fst (solveEncoded 3 (fun _ => false) (feed_solver 3 new_solver [6; 1; 5; 6; 9])) = Ok 15.
Proof.
  apply (solveEncoded_only_string 3 [6; 1; 5; 6; 9] (fun _ => false) 15).
  - lia.
  - reflexivity.
  - vm_compute. split; congruence.
  - reflexivity.
  - intros k j Hk Hok.
    destruct k as [|[|[|[|[|k]]]]]; cbn in Hk; try discriminate Hk;
      injection Hk as <-; try reflexivity; vm_compute in Hok; discriminate Hok.
Defined.

Local Close Scope Z_scope.

(** ** Consistent equations are taken *)

Lemma addRow_sat_extend W s r t x :
  solver_inv W s →
  sat W (independent_rows s) (contents s) (targets s) x → dot W r x = t →
  sat W (independent_rows (snd (addRow W s r t)))
        (contents (snd (addRow W s r t))) (targets (snd (addRow W s r t))) x.
Proof.
  intros Hinv Hsat Hdot i Hi.
  pose proof (addRow_rank W s r t) as Hrk.
  destruct (decide (i < independent_rows s)) as [Hold|Hnew].
  - destruct (addRow_keeps_prefix W s r t Hinv i Hold) as [-> ->]. apply Hsat, Hold.
  - assert (i = independent_rows s) by lia. subst i.
    destruct (addRow_new_pivot W s r t Hinv) as (-> & -> & _); [lia|exact Hdot].
Qed.

Lemma addRow_consistent_ok W s r t x :
  solver_inv W s →
  sat W (independent_rows s) (contents s) (targets s) x → dot W r x = t →
  fst (addRow W s r t) = Ok ().
Proof.
  intros Hinv Hsat Hdot.
  pose proof (addRow_outcome_sat W s r t Hinv x (addRow_sat_extend W s r t x Hinv Hsat Hdot)) as H.
  destruct (fst (addRow W s r t)) as [[]|e]; [reflexivity|].
  cbn [is_ok] in H. rewrite Hdot in H. destruct t; discriminate.
Qed.

Local Open Scope Z_scope.

(** ** run_feistel_detect on a 3-round network *)

Lemma shifted_one_small n : (n < 64)%nat → wrap (Z.shiftl 1 (Z.of_nat n)) = 2 ^ Z.of_nat n.
Proof.
  intros Hn. rewrite Z.shiftl_1_l. apply wrap_small.
  split; [apply Z.pow_nonneg; lia|]. apply Z.pow_lt_mono_r; lia.
Qed.

Lemma rand_mod_fits n r : (n < 64)%nat → fits n (wrap r mod wrap (Z.shiftl 1 (Z.of_nat n))).
Proof.
  intros Hn. rewrite shifted_one_small by assumption.
  apply Z.mod_pos_bound, pow2_half_pos.
Qed.

Lemma detect_inv_new W s : detect_inv W s new_solver.
Proof.
  split; [apply new_solver_inv|constructor|]. intros i Hi. cbn in Hi. lia.
Qed.

Lemma orthogonal_dot W s j :
  (W < 63)%nat → 0 ≤ s < 2 ^ Z.of_nat (W + 1) → Z.testbit s 0 = true →
  bits_dot (W + 1) j s = false → dot W (decode_row W j) (decode_row W s) = decode_target j.
Proof.
  intros HW Hs H0 Hort. rewrite <- (encode_decode W s) in Hort by assumption.
  rewrite bits_dot_decode in Hort by (try apply decode_row_length; lia).
  destruct (decode_target j), (dot W _ _); cbn in Hort; congruence.
Qed.

Lemma detect_inv_step W s solver j :
  (W < 63)%nat → 0 ≤ s < 2 ^ Z.of_nat (W + 1) → Z.testbit s 0 = true →
  detect_inv W s solver → bits_dot (W + 1) j s = false →
  fst (addRow_encoded W solver j) = Ok () ∧ detect_inv W s (snd (addRow_encoded W solver j)).
Proof.
  intros HW Hs H0 [Hinv Hwd Hsat] Hort. rewrite addRow_encoded_decode.
  pose proof (orthogonal_dot W s j HW Hs H0 Hort) as Hdot.
  split; [apply (addRow_consistent_ok W solver _ _ _ Hinv Hsat Hdot)|].
  split.
  - apply addRow_inv, Hinv.
  - apply addRow_rows_width; [apply Hinv|assumption|apply decode_row_length].
  - apply addRow_sat_extend; assumption.
Qed.

Lemma detect_inv_solve W s solver junk :
  (W < 63)%nat → 0 ≤ s < 2 ^ Z.of_nat (W + 1) → Z.testbit s 0 = true →
  detect_inv W s solver → independent_rows solver = W →
  fst (solveEncoded W junk solver) = Ok s.
Proof.
  intros HW Hs H0 [[[Ht Hr] _ Hind] Hwd Hsat] Hrank.
  assert (Hy : fst (solve W junk solver) = Ok (decode_row W s)).
  { rewrite Hrank in *. apply solve_unique; try assumption; [|apply decode_row_length].
    split; [lia|]. split; [lia|].
    intros r Hr'. apply (Forall_lookup_total_1 _ _ _ Hwd). lia. }
  rewrite solveEncoded_unfold.
  destruct (solve W junk solver) as [[x|e] s'']; cbn in Hy; [|discriminate].
  injection Hy as ->. cbn. f_equal. apply encode_decode; assumption.
Qed.

Section DetectFeistel.
Variable Bits : nat.
Variable f : Z → Z → Z.
Variables k0 k1 k2 : Z.
Variables rand_alpha rand_beta rand_u : Z.
Variable junk : nat → bool.
Hypothesis HBits : (Bits ≤ 30)%nat.
Hypothesis Hf : ∀ r k, In k [k0; k1; k2] → fits Bits r → fits Bits (f r k).

Let oracle := make_feistel_encrypt Bits f [k0; k1; k2].
Let s := hidden_string f k0 (ALPHA Bits rand_alpha) (BETA Bits rand_beta).
Let loop := detect_loop Bits oracle rand_alpha rand_beta rand_u junk.

Lemma hidden_range : 0 ≤ s < 2 ^ Z.of_nat (Bits + 1).
Proof.
  assert (Ha : fits Bits (ALPHA Bits rand_alpha)) by (apply rand_mod_fits; lia).
  assert (Hb : fits Bits (BETA Bits rand_beta)) by (apply rand_mod_fits; lia).
  pose proof (hidden_string_range Bits f k0 _ _
                (Hf _ k0 ltac:(simpl; auto) Ha) (Hf _ k0 ltac:(simpl; auto) Hb)) as H.
  unfold s. lia.
Qed.

Lemma probe_period u :
  0 ≤ u < 2 ^ Z.of_nat (Bits + 1) →
  (probe Bits oracle rand_alpha rand_beta u =? probe Bits oracle rand_alpha rand_beta (Z.lxor u s))
  = true.
Proof.
  intros Hu. apply Z.eqb_eq. unfold probe, oracle, s. symmetry.
  apply run_f_hidden_period; try assumption; try lia; apply rand_mod_fits; lia.
Qed.

Lemma loop_feistel samples : ∀ i solver,
  0 ≤ i → detect_inv Bits s solver →
  (∀ j, In j samples → bits_dot (Bits + 1) j s = false) →
  (∀ v, loop samples i solver = Some v → v ≠ RandomPermutation) ∧
  (wrap (2 * Z.of_nat Bits) ≤ i + Z.of_nat (length samples) → ∃ v, loop samples i solver = Some v).
Proof.
  pose proof hidden_range as Hs.
  assert (H0 : Z.testbit s 0 = true) by apply hidden_string_bit0.
  induction samples as [|j samples IH]; intros i solver Hi Hinv Hort.
  - destruct (Z.lt_ge_cases i (wrap (2 * Z.of_nat Bits))) as [Hlt|Hge].
    + unfold loop. rewrite loop_starved by assumption. split; [discriminate|].
      cbn [length]. lia.
    + unfold loop. rewrite loop_done by assumption.
      split; [intros v [= <-]; discriminate|eauto].
  - destruct (Z.lt_ge_cases i (wrap (2 * Z.of_nat Bits))) as [Hlt|Hge].
    2: { unfold loop. rewrite loop_done by assumption.
         split; [intros v [= <-]; discriminate|eauto]. }
    unfold loop. rewrite loop_step by lia. fold loop.
    destruct (detect_inv_step Bits s solver j ltac:(lia) Hs H0 Hinv) as [Hok Hinv'];
      [apply Hort; left; reflexivity|].
    destruct (addRow_encoded Bits solver j) as [r solver'] eqn:E. cbn [fst snd] in *. subst r.
    destruct (Nat.eqb_spec (getIndependent solver') Bits) as [Hrank|Hrank].
    + pose proof (detect_inv_solve Bits s solver' junk ltac:(lia) Hs H0 Hinv' Hrank) as Hsol.
      destruct (solveEncoded Bits junk solver') as [r s''] eqn:E2. cbn [fst] in Hsol. subst r.
      cbn zeta. rewrite probe_period by (apply rand_mod_fits; lia).
      split; [intros v [= <-]; discriminate|eauto].
    + destruct (IH (i + 1) solver' ltac:(lia) Hinv') as [Ha Hb].
      { intros j' Hj'. apply Hort. right. exact Hj'. }
      split; [exact Ha|]. intros Hlen. apply Hb. cbn [length] in Hlen. lia.
Qed.
End DetectFeistel.

(** X20. On a 3-round network whose round function sends half-blocks to
    half-blocks, with samples that have an even number of bits in common
    with the hidden string, no sample is rejected, [2 * Bits] samples are
    enough for a verdict, and the verdict is never "Random permutation". *)
Theorem detect_feistel_sound (Bits : nat) (f : Z → Z → Z) (k0 k1 k2 : Z)
    (rand_alpha rand_beta rand_u : Z) (junk : nat → bool) (sampler : nat → Z) :
  (Bits ≤ 30)%nat →
  (∀ r k, In k [k0; k1; k2] → 0 ≤ r < 2 ^ Z.of_nat Bits → 0 ≤ f r k < 2 ^ Z.of_nat Bits) →
  (∀ k, bits_dot (Bits + 1) (sampler k)
                 (hidden_string f k0 (ALPHA Bits rand_alpha) (BETA Bits rand_beta)) = false) →
  (∃ v, run_feistel_detect Bits (make_feistel_encrypt Bits f [k0; k1; k2])
          rand_alpha rand_beta rand_u junk (2 * Bits) sampler = Some v) ∧
  (∀ fuel, run_feistel_detect Bits (make_feistel_encrypt Bits f [k0; k1; k2])
             rand_alpha rand_beta rand_u junk fuel sampler ≠ Some RandomPermutation) ∧
  (∀ fuel, accepted Bits new_solver (draws sampler fuel) = fuel).
Proof.
  intros HB Hf Hort.
  set (s := hidden_string f k0 (ALPHA Bits rand_alpha) (BETA Bits rand_beta)) in *.
  assert (Hall : ∀ fuel j, In j (map sampler (seq 0 fuel)) → bits_dot (Bits + 1) j s = false).
  { intros fuel j Hj. apply in_map_iff in Hj. destruct Hj as (k & <- & _). apply Hort. }
  split; [|split].
  - unfold run_feistel_detect.
    destruct (loop_feistel Bits f k0 k1 k2 rand_alpha rand_beta rand_u junk HB Hf
                (map sampler (seq 0 (2 * Bits))) 0 new_solver ltac:(lia)
                (detect_inv_new Bits s) (Hall _)) as [_ Hterm].
    apply Hterm. rewrite length_map, length_seq.
    pose proof (wrap_nonneg_le (2 * Z.of_nat Bits) ltac:(lia)). lia.
  - intros fuel Hv. unfold run_feistel_detect in Hv.
    destruct (loop_feistel Bits f k0 k1 k2 rand_alpha rand_beta rand_u junk HB Hf
                (map sampler (seq 0 fuel)) 0 new_solver ltac:(lia)
                (detect_inv_new Bits s) (Hall _)) as [Hnot _].
    exact (Hnot _ Hv eq_refl).
  - intros fuel. unfold draws.
    assert (Hs : 0 ≤ s < 2 ^ Z.of_nat (Bits + 1)).
    { apply (hidden_range Bits f k0 k1 k2 rand_alpha rand_beta HB Hf). }
    assert (H0 : Z.testbit s 0 = true) by apply hidden_string_bit0.
    assert (H : ∀ samples solver, detect_inv Bits s solver →
                (∀ j, In j samples → bits_dot (Bits + 1) j s = false) →
                accepted Bits solver samples = length samples).
    { induction samples as [|j samples IH]; intros solver Hinv Hs'; [reflexivity|].
      cbn [accepted length].
      destruct (detect_inv_step Bits s solver j ltac:(lia) Hs H0 Hinv) as [Hok Hinv'];
        [apply Hs'; left; reflexivity|].
      destruct (addRow_encoded Bits solver j) as [r solver']. cbn [fst snd] in *. subst r.
      f_equal. apply IH; [assumption|]. intros j' Hj'. apply Hs'. right. exact Hj'. }
    rewrite (H _ new_solver (detect_inv_new Bits s) (Hall fuel)).
    rewrite length_map, length_seq. reflexivity.
Qed.

Lemma detect_feistel_sound_witness :
  (∃ v, run_feistel_detect 4 (make_feistel_encrypt 4 test_round_function [1; 2; 3])
          3 5 0 (fun _ => false) (2 * 4) (fun _ => 0) = Some v) ∧
  (∀ fuel, run_feistel_detect 4 (make_feistel_encrypt 4 test_round_function [1; 2; 3])
             3 5 0 (fun _ => false) fuel (fun _ => 0) ≠ Some RandomPermutation) ∧
  (∀ fuel, accepted 4 new_solver (draws (fun _ => 0) fuel) = fuel).
Proof.
  apply (detect_feistel_sound 4 test_round_function 1 2 3 3 5 0 (fun _ => false) (fun _ => 0)).
  - lia.
  - intros r k Hk _. apply test_round_function_fits, Hk.
  - intros k. reflexivity.
Defined.

(** ** The oracle is called on blocks only *)

Lemma solveEncoded_range W junk s enc s' :
  (W < 63)%nat → independent_rows s = W →
  solveEncoded W junk s = (Ok enc, s') → 0 < enc < 2 ^ Z.of_nat (W + 1).
Proof.
  intros HW Hn E. rewrite solveEncoded_unfold, solve_unfold in E by assumption.
  injection E as <- _.
  destruct (backwardSubstitute_spec W (gaussianEliminate W s) junk) as [Hlen _].
  { rewrite gaussianEliminate_rank. lia. }
  pose proof (encode_solution_range (backwardSubstitute W junk (gaussianEliminate W s))
                ltac:(lia)) as H.
  rewrite Hlen in H. exact H.
Qed.

(** X21. [run_feistel_detect] calls its oracle on blocks of [2 * Bits]
    bits only: two oracles that agree on the blocks get the same verdict. *)
Theorem detect_queries_blocks (Bits : nat) (callback callback' : Z → Z)
    (rand_alpha rand_beta rand_u : Z) (junk : nat → bool) (sampler : nat → Z) (fuel : nat) :
  (Bits ≤ 30)%nat →
  (∀ x, 0 ≤ x < 2 ^ (2 * Z.of_nat Bits) → callback x = callback' x) →
  run_feistel_detect Bits callback rand_alpha rand_beta rand_u junk fuel sampler =
  run_feistel_detect Bits callback' rand_alpha rand_beta rand_u junk fuel sampler.
Proof.
  intros HB Hext. unfold run_feistel_detect.
  generalize (map sampler (seq 0 fuel)) as samples. generalize 0 as i.
  generalize new_solver as solver.
  intros solver i samples. revert i solver.
  induction samples as [|j samples IH]; intros i solver; [reflexivity|].
  cbn [detect_loop]. destruct (i <? wrap (2 * Z.of_nat Bits)); [|reflexivity].
  destruct (addRow_encoded Bits solver j) as [[[]|e] solver']; [|apply IH].
  destruct (Nat.eqb_spec (getIndependent solver') Bits) as [Hrank|Hrank]; [|apply IH].
  destruct (solveEncoded Bits junk solver') as [[enc|e] s''] eqn:E; [|apply IH].
  pose proof (solveEncoded_range Bits junk solver' enc s'' ltac:(lia) Hrank E) as Henc.
  assert (Hu : fits (Bits + 1) (wrap rand_u mod wrap (Z.shiftl 1 (Z.of_nat (Bits + 1)))))
    by (apply rand_mod_fits; lia).
  assert (Hus : fits (Bits + 1)
                  (Z.lxor (wrap rand_u mod wrap (Z.shiftl 1 (Z.of_nat (Bits + 1)))) enc))
    by (apply fits_lxor; [exact Hu|unfold fits; lia]).
  cbn zeta. unfold probe, ALPHA, BETA.
  rewrite (run_f_ext Bits callback callback' _ _ _ ltac:(lia)
             (rand_mod_fits Bits rand_alpha ltac:(lia))
             (rand_mod_fits Bits rand_beta ltac:(lia)) Hu Hext).
  rewrite (run_f_ext Bits callback callback' _ _ _ ltac:(lia)
             (rand_mod_fits Bits rand_alpha ltac:(lia))
             (rand_mod_fits Bits rand_beta ltac:(lia)) Hus Hext).
  reflexivity.
Qed.

Lemma detect_queries_blocks_witness :
  run_feistel_detect 1 (fun x => x mod 4) 0 1 0 (fun _ => false) 2 (fun _ => 2) =
  run_feistel_detect 1 (fun x => x) 0 1 0 (fun _ => false) 2 (fun _ => 2).
Proof.
  apply (detect_queries_blocks 1 (fun x => x mod 4) (fun x => x) 0 1 0 (fun _ => false)
           (fun _ => 2) 2).
  - lia.
  - intros x Hx. apply Z.mod_small. exact Hx.
Defined.

Local Close Scope Z_scope.

(** ** toffoli.hpp *)

Lemma bit_test v i :
  i < 64 →
  (Z.land v (wrap (Z.shiftl 1 (Z.of_nat i))) =? 0)%Z = negb (Z.testbit v (Z.of_nat i)).
Proof.
  intros Hi. rewrite shifted_one_small, <- Z.shiftl_1_l by assumption.
  apply land_bit_testbit. lia.
Qed.

Lemma set_bits_of_S k mask :
  set_bits_of (S k) mask =
    set_bits_of k mask ++ (if Z.testbit mask (Z.of_nat k) then [k] else []).
Proof.
  unfold set_bits_of. rewrite seq_S, filter_app. cbn [Nat.add]. f_equal.
  destruct (Z.testbit mask (Z.of_nat k)) eqn:E.
  - rewrite filter_cons_True by exact E. reflexivity.
  - rewrite filter_cons_False by (rewrite E; discriminate). reflexivity.
Qed.

Lemma set_bits_of_length n mask : length (set_bits_of n mask) ≤ n.
Proof.
  unfold set_bits_of. etransitivity; [apply length_filter|]. rewrite length_seq. lia.
Qed.

Lemma set_bits_of_mono k n mask :
  k ≤ n → length (set_bits_of k mask) ≤ length (set_bits_of n mask).
Proof.
  induction 1 as [|n _ IH]; [lia|]. rewrite set_bits_of_S, length_app. lia.
Qed.

Lemma num_bits_set_length N mask :
  N ≤ 64 → num_bits_set N mask = length (set_bits_of N mask).
Proof.
  intros HN. unfold num_bits_set.
  apply (for_range_inv (fun k cnt => cnt = length (set_bits_of k mask))); [lia|reflexivity|].
  intros i cnt Hi ->. rewrite bit_test by lia. rewrite set_bits_of_S, length_app.
  destruct (Z.testbit mask (Z.of_nat i)); cbn; lia.
Qed.

Lemma map_lookup_total_seq (l : list Z) : map (fun k => l !!! k) (seq 0 (length l)) = l.
Proof.
  induction l as [|a l IH]; [reflexivity|].
  cbn [length seq map]. f_equal. rewrite <- seq_shift, map_map. exact IH.
Qed.

(** The loop of [create_masked_toffoli_internal] fills [content] with the
    set positions, in increasing order, as long as the array is long enough. *)
Lemma content_loop N Set_ Mask offset :
  N ≤ 64 → length (set_bits_of N Mask) ≤ Set_ →
  for_range 0 N
    (fun j (st : list Z * nat) =>
       let '(content, set_bits) := st in
       if (Z.land Mask (wrap (Z.shiftl 1 (Z.of_nat j))) =? 0)%Z then (content, set_bits)
       else (<[set_bits := wrap (Z.of_nat j + offset)]> content, S set_bits))
    (replicate Set_ 0%Z, 0) =
  (map (fun j => wrap (Z.of_nat j + offset)) (set_bits_of N Mask)
     ++ replicate (Set_ - length (set_bits_of N Mask)) 0%Z,
   length (set_bits_of N Mask)).
Proof.
  intros HN. induction N as [|k IH]; intros Hlen.
  - cbn. rewrite Nat.sub_0_r. reflexivity.
  - rewrite for_range_S by lia. rewrite IH by (try lia; rewrite set_bits_of_S, length_app in Hlen; lia).
    rewrite bit_test by lia. rewrite set_bits_of_S in *. rewrite length_app in *.
    destruct (Z.testbit Mask (Z.of_nat k)); cbn [negb length] in *.
    + rewrite insert_app_r_alt by (rewrite length_map; lia).
      rewrite length_map, Nat.sub_diag.
      destruct (Set_ - length (set_bits_of k Mask)) as [|d] eqn:Ed; [lia|].
      cbn [replicate]. rewrite map_app, <- app_assoc. cbn.
      replace (Set_ - (length (set_bits_of k Mask) + 1)) with d by lia.
      f_equal. lia.
    + rewrite app_nil_r, Nat.add_0_r. reflexivity.
Qed.

Lemma create_masked_toffoli_gate N Mask reg target_bit offset :
  N ≤ 64 →
  create_masked_toffoli N Mask reg target_bit offset =
    if (Mask =? 0)%Z then reg
    else reg ++ [quantum_unbounded_toffoli (length (set_bits_of N Mask))
                   (map (fun j => wrap (Z.of_nat j + offset)) (set_bits_of N Mask)) target_bit].
Proof.
  intros HN. unfold create_masked_toffoli. destruct (Mask =? 0)%Z; [reflexivity|].
  unfold create_masked_toffoli_base, create_masked_toffoli_internal.
  rewrite num_bits_set_length by assumption.
  rewrite content_loop by lia. rewrite Nat.sub_diag. cbn [replicate]. rewrite app_nil_r.
  unfold create_nbit_toffoli. do 3 f_equal.
  rewrite <- (length_map (fun j => wrap (Z.of_nat j + offset))) at 1.
  apply map_lookup_total_seq.
Qed.

(** X22. [create_masked_toffoli<N, Mask>] makes one call of the library,
    with the set positions of [Mask] as controls, each moved by [offset], in
    increasing order and as many as [num_bits_set<N>(Mask)] counts; for the
    mask 0 it makes no call. *)
Theorem create_masked_toffoli_controls (N : nat) (Mask : Z) (reg : quantum_reg)
    (target_bit offset : Z) :
  N ≤ 64 →
  num_bits_set N Mask = length (set_bits_of N Mask) ∧
  num_bits_set N Mask ≤ N ∧
  create_masked_toffoli N Mask reg target_bit offset =
    if (Mask =? 0)%Z then reg
    else reg ++ [quantum_unbounded_toffoli (num_bits_set N Mask)
                   (map (fun j => wrap (Z.of_nat j + offset)) (set_bits_of N Mask)) target_bit].
Proof.
  intros HN. rewrite create_masked_toffoli_gate by assumption.
  rewrite num_bits_set_length by assumption.
  split; [reflexivity|]. split; [apply set_bits_of_length|reflexivity].
Qed.

Lemma create_masked_toffoli_controls_witness :
  num_bits_set 4 5 = length (set_bits_of 4 5) ∧
  num_bits_set 4 5 ≤ 4 ∧
  create_masked_toffoli 4 5 [] 7 2 =
    if (5 =? 0)%Z then []
    else [] ++ [quantum_unbounded_toffoli (num_bits_set 4 5)
                  (map (fun j => wrap (Z.of_nat j + 2)) (set_bits_of 4 5)) 7].
Proof. apply (create_masked_toffoli_controls 4 5 [] 7 2). lia. Defined.

(** The table of [create_masked_toffoli_runtime<N>] has an entry for every
    mask of [N] bits and for no other. *)
Lemma toffoli_callbacks_length N :
  N < 64 → length (toffoli_callbacks N) = 2 ^ N.
Proof.
  intros HN. unfold toffoli_callbacks. rewrite length_map, length_seq.
  rewrite shifted_one_small by assumption.
  rewrite <- (Nat2Z.id (2 ^ N)). f_equal. rewrite Nat2Z.inj_pow. reflexivity.
Qed.

Lemma create_masked_toffoli_runtime_in_table N mask reg target_bit offset :
  N < 64 → (0 ≤ mask < 2 ^ Z.of_nat N)%Z →
  create_masked_toffoli_runtime N mask reg target_bit offset =
    Some (create_masked_toffoli N mask reg target_bit offset).
Proof.
  intros HN Hm. unfold create_masked_toffoli_runtime.
  pose proof (toffoli_callbacks_length N HN) as Hlen.
  assert (Hpow : Z.of_nat (2 ^ N) = (2 ^ Z.of_nat N)%Z) by (rewrite Nat2Z.inj_pow; reflexivity).
  unfold toffoli_callbacks in *. rewrite length_map, length_seq in Hlen.
  change (map ?f ?l) with (f <$> l). rewrite list_lookup_fmap.
  rewrite lookup_seq_lt by lia. cbn. rewrite Z2Nat.id by lia. reflexivity.
Qed.

(** X23. [create_masked_toffoli_runtime<N>] calls
    [create_masked_toffoli<N, mask>] for a mask below [2^N]; its table has no
    entry for a larger mask. *)
Theorem create_masked_toffoli_runtime_table (N : nat) (mask : Z) (reg : quantum_reg)
    (target_bit offset : Z) :
  N < 64 → (0 ≤ mask)%Z →
  create_masked_toffoli_runtime N mask reg target_bit offset =
    if (mask <? 2 ^ Z.of_nat N)%Z
    then Some (create_masked_toffoli N mask reg target_bit offset)
    else None.
Proof.
  intros HN Hm.
  destruct (Z.ltb_spec mask (2 ^ Z.of_nat N)) as [Hlt|Hge].
  - apply create_masked_toffoli_runtime_in_table; [assumption|lia].
  - unfold create_masked_toffoli_runtime.
    pose proof (toffoli_callbacks_length N HN) as Hlen.
    assert (Hpow : Z.of_nat (2 ^ N) = (2 ^ Z.of_nat N)%Z)
      by (rewrite Nat2Z.inj_pow; reflexivity).
    rewrite lookup_ge_None_2; [reflexivity|]. lia.
Qed.

Lemma create_masked_toffoli_runtime_table_witness :
  create_masked_toffoli_runtime 3 8 [] 5 0 =
    if (8 <? 2 ^ Z.of_nat 3)%Z then Some (create_masked_toffoli 3 8 [] 5 0) else None.
Proof. apply (create_masked_toffoli_runtime_table 3 8 [] 5 0); lia. Defined.

(** ** main.cpp: create_toggle_if_match *)

Lemma run_on_basis_app a b st :
  run_on_basis (a ++ b) st =
    match run_on_basis a st with Some st' => run_on_basis b st' | None => None end.
Proof.
  revert st. induction a as [|g a IH]; intros st; [reflexivity|].
  cbn. destruct (gate_on_basis g st); [apply IH|reflexivity].
Qed.

Lemma flip_zero_bits_S N value x offset :
  N < 64 →
  flip_zero_bits (S N) value x offset =
    flip_zero_bits N value x offset ++
      (if Z.testbit value (Z.of_nat N) then []
       else [quantum_sigma_x (wrap (offset + Z.of_nat N))]).
Proof.
  intros HN. unfold flip_zero_bits. rewrite for_range_S by lia. rewrite bit_test by lia.
  destruct (Z.testbit value (Z.of_nat N)); cbn; [rewrite app_nil_r|]; reflexivity.
Qed.

Lemma flip_zero_bits_app N value x offset :
  N ≤ 64 → flip_zero_bits N value x offset = x ++ flip_zero_bits N value [] offset.
Proof.
  intros HN. induction N as [|k IH]; [cbn; rewrite app_nil_r; reflexivity|].
  rewrite !flip_zero_bits_S by lia. rewrite IH by lia. symmetry. apply app_assoc.
Qed.

Lemma set_bits_of_ones N : set_bits_of N (Z.ones (Z.of_nat N)) = seq 0 N.
Proof.
  assert (H : ∀ k, k ≤ N → set_bits_of k (Z.ones (Z.of_nat N)) = seq 0 k).
  { induction k as [|k IH]; intros Hk; [reflexivity|].
    rewrite set_bits_of_S, IH, Z.ones_spec_low, seq_S by lia. reflexivity. }
  apply H. lia.
Qed.

(** The calls that [create_toggle_if_match] makes. *)
Lemma create_toggle_if_match_gates N value x target offset :
  N < 64 →
  create_toggle_if_match N value x target offset =
    Some (if decide (N = 0) then x else x ++ toggle_gates N value target offset).
Proof.
  intros HN. unfold create_toggle_if_match.
  rewrite bitmask_ones by assumption.
  rewrite create_masked_toffoli_runtime_in_table by (try lia; rewrite Z.ones_equiv;
    pose proof (Z.pow_pos_nonneg 2 (Z.of_nat N)); lia).
  rewrite create_masked_toffoli_gate by lia. f_equal.
  destruct (decide (N = 0)) as [->|Hne]; [reflexivity|].
  destruct (Z.eqb_spec (Z.ones (Z.of_nat N)) 0) as [E|_].
  { rewrite Z.ones_equiv in E.
    assert (2 ^ 1 ≤ 2 ^ Z.of_nat N)%Z by (apply Z.pow_le_mono_r; lia). lia. }
  rewrite set_bits_of_ones, length_seq.
  rewrite (flip_zero_bits_app N value (_ ++ _)) by lia.
  rewrite (flip_zero_bits_app N value x) by lia.
  unfold toggle_gates. rewrite <- !app_assoc. reflexivity.
Qed.

Local Open Scope Z_scope.

Lemma lxor_pow2_testbit st t p :
  0 ≤ t → 0 ≤ p → Z.testbit (Z.lxor st (2 ^ t)) p = xorb (Z.testbit st p) (t =? p).
Proof. intros Ht Hp. rewrite Z.lxor_spec, Z.pow2_bits_eqb by assumption. reflexivity. Qed.

Lemma flipped_S N value offset p :
  0 ≤ offset → 0 ≤ p →
  flipped (S N) value offset p =
    xorb (flipped N value offset p)
         ((offset + Z.of_nat N =? p) && negb (Z.testbit value (Z.of_nat N))).
Proof.
  intros Ho Hp. unfold flipped.
  destruct (Z.eqb_spec (offset + Z.of_nat N) p) as [<-|Hne].
  - replace (offset + Z.of_nat N - offset) with (Z.of_nat N) by lia.
    destruct (Z.leb_spec offset (offset + Z.of_nat N)); [|lia].
    destruct (Z.ltb_spec (offset + Z.of_nat N) (offset + Z.of_nat (S N))); [|lia].
    destruct (Z.ltb_spec (offset + Z.of_nat N) (offset + Z.of_nat N)); [lia|].
    cbn. destruct (Z.testbit value (Z.of_nat N)); reflexivity.
  - rewrite andb_false_l, xorb_false_r. f_equal. f_equal.
    destruct (Z.ltb_spec p (offset + Z.of_nat (S N))), (Z.ltb_spec p (offset + Z.of_nat N));
      try reflexivity; lia.
Qed.

(** The first loop negates the qubits at which [value] has a 0. *)
Lemma flip_zero_bits_basis N value offset st :
  (N ≤ 64)%nat → 0 ≤ offset → offset + Z.of_nat N ≤ 2 ^ 64 →
  ∃ st', run_on_basis (flip_zero_bits N value [] offset) st = Some st' ∧
         ∀ p, 0 ≤ p → Z.testbit st' p = xorb (Z.testbit st p) (flipped N value offset p).
Proof.
  intros HN Ho Hoff. induction N as [|k IH].
  - exists st. split; [reflexivity|]. intros p Hp. unfold flipped.
    destruct (Z.leb_spec offset p), (Z.ltb_spec p (offset + Z.of_nat 0)); try lia;
      cbn; rewrite xorb_false_r; reflexivity.
  - destruct IH as (st1 & Hrun & Hbits); [lia|lia|].
    rewrite flip_zero_bits_S by lia. rewrite run_on_basis_app, Hrun.
    destruct (Z.testbit value (Z.of_nat k)) eqn:Ev.
    + exists st1. split; [reflexivity|]. intros p Hp.
      rewrite Hbits, flipped_S, Ev by assumption. cbn. rewrite andb_false_r, xorb_false_r.
      reflexivity.
    + eexists. split; [reflexivity|]. intros p Hp.
      rewrite wrap_small by lia.
      rewrite lxor_pow2_testbit, Hbits, flipped_S, Ev by lia. cbn. rewrite andb_true_r.
      apply xorb_assoc.
Qed.

Lemma forallb_take_all {A} (p : A → bool) n l : length l = n → forallb p (take n l) = forallb p l.
Proof. intros <-. rewrite firstn_all. reflexivity. Qed.

Lemma forallb_map_seq (p : Z → bool) (g : nat → Z) n :
  forallb p (map g (seq 0 n)) = forallb (fun j => p (g j)) (seq 0 n).
Proof. induction (seq 0 n) as [|a l IH]; [reflexivity|]. cbn. rewrite IH. reflexivity. Qed.

Lemma forallb_ext_seq (p q : nat → bool) n :
  (∀ j, (j < n)%nat → p j = q j) → forallb p (seq 0 n) = forallb q (seq 0 n).
Proof.
  intros H. induction n as [|k IH]; [reflexivity|].
  rewrite seq_S, !forallb_app. cbn. rewrite IH by (intros; apply H; lia).
  rewrite H by lia. reflexivity.
Qed.

(** On a basis state the gates of [create_toggle_if_match] negate the
    target when the qubits from [offset] on spell [value], and change
    nothing else. *)
Lemma toggle_gates_basis N value target offset st :
  (N ≤ 64)%nat → 0 ≤ offset → offset + Z.of_nat N ≤ 2 ^ 64 → 0 ≤ target →
  run_on_basis (toggle_gates N value target offset) st =
    Some (if matches N st value offset then Z.lxor st (2 ^ target) else st).
Proof.
  intros HN Ho Hoff Ht. unfold toggle_gates.
  destruct (flip_zero_bits_basis N value offset st HN Ho Hoff) as (st1 & Hrun1 & Hb1).
  rewrite run_on_basis_app, Hrun1. cbn [app run_on_basis gate_on_basis].
  rewrite forallb_take_all by (rewrite length_map, length_seq; reflexivity).
  rewrite forallb_map_seq.
  assert (Em : forallb (fun j => Z.testbit st1 (wrap (Z.of_nat j + offset))) (seq 0 N)
               = matches N st value offset).
  { unfold matches. apply forallb_ext_seq. intros j Hj.
    rewrite wrap_small by lia. rewrite Z.add_comm, Hb1 by lia. unfold flipped.
    destruct (Z.leb_spec offset (offset + Z.of_nat j)); [|lia].
    destruct (Z.ltb_spec (offset + Z.of_nat j) (offset + Z.of_nat N)); [|lia].
    replace (offset + Z.of_nat j - offset) with (Z.of_nat j) by lia. cbn.
    destruct (Z.testbit st (offset + Z.of_nat j)), (Z.testbit value (Z.of_nat j)); reflexivity. }
  rewrite Em.
  set (st2 := if matches N st value offset then Z.lxor st1 (2 ^ target) else st1).
  destruct (flip_zero_bits_basis N value offset st2 HN Ho Hoff) as (st3 & Hrun3 & Hb3).
  rewrite Hrun3. f_equal. apply Z.bits_inj'. intros p Hp. rewrite Hb3 by assumption.
  unfold st2. destruct (matches N st value offset).
  - rewrite !lxor_pow2_testbit, Hb1 by assumption.
    destruct (Z.testbit st p), (flipped N value offset p), (target =? p); reflexivity.
  - rewrite Hb1 by assumption.
    destruct (Z.testbit st p), (flipped N value offset p); reflexivity.
Qed.

(** X24. On a basis state the gates of [create_toggle_if_match<N>] negate
    the target qubit when the qubits [offset, offset + N) hold the low [N]
    bits of [value], and leave the state as it is otherwise. *)
Theorem create_toggle_if_match_basis (N : nat) (value target offset st : Z) :
  (1 ≤ N < 64)%nat → 0 ≤ offset → offset + Z.of_nat N ≤ 64 → 0 ≤ target →
  ∃ gates, create_toggle_if_match N value [] target offset = Some gates ∧
           run_on_basis gates st =
             Some (if matches N st value offset then Z.lxor st (2 ^ target) else st).
Proof.
  intros HN Ho Hoff Ht. rewrite create_toggle_if_match_gates by lia.
  destruct (decide (N = 0)%nat); [lia|]. eexists. split; [reflexivity|].
  cbn [app]. apply toggle_gates_basis; lia.
Qed.

Lemma create_toggle_if_match_basis_witness :
  ∃ gates, create_toggle_if_match 3 5 [] 6 2 = Some gates ∧
           run_on_basis gates 20 =
             Some (if matches 3 20 5 2 then Z.lxor 20 (2 ^ 6) else 20).
Proof. apply (create_toggle_if_match_basis 3 5 6 2 20); lia. Defined.

(** ** main.cpp: bitflip_oracle *)

Lemma testbit_join N x y p :
  fits N x → 0 ≤ p →
  Z.testbit (x + y * 2 ^ Z.of_nat N) p =
    if p <? Z.of_nat N then Z.testbit x p else Z.testbit y (p - Z.of_nat N).
Proof.
  intros Hx Hp.
  rewrite <- Z.shiftl_mul_pow2 by lia.
  rewrite Z.add_nocarry_lxor by (apply halves_disjoint; assumption).
  rewrite Z.lxor_lor by (apply halves_disjoint; assumption).
  rewrite Z.lor_spec.
  destruct (Z.ltb_spec p (Z.of_nat N)).
  - rewrite Z.shiftl_spec_low by lia. apply orb_false_r.
  - rewrite (fits_testbit_high N x p) by (assumption || lia).
    rewrite Z.shiftl_spec by lia. reflexivity.
Qed.

Lemma fits_bits_eq N a b :
  fits N a → fits N b →
  (∀ p, 0 ≤ p < Z.of_nat N → Z.testbit a p = Z.testbit b p) → a = b.
Proof.
  intros Ha Hb H. apply Z.bits_inj'. intros p Hp.
  destruct (Z.lt_ge_cases p (Z.of_nat N)); [apply H; lia|].
  rewrite !(fits_testbit_high N) by (assumption || lia). reflexivity.
Qed.

(** The qubits below [N] spell [i] exactly when the first register holds [i]. *)
Lemma matches_low N S x i :
  fits N x → fits N i →
  (∀ p, 0 ≤ p < Z.of_nat N → Z.testbit S p = Z.testbit x p) →
  matches N S i 0 = (x =? i).
Proof.
  intros Hx Hi Hlow. unfold matches.
  destruct (Z.eqb_spec x i) as [->|Hne].
  - apply forallb_forall. intros j Hj. apply in_seq in Hj.
    rewrite Z.add_0_l, Hlow by lia. apply eqb_reflx.
  - destruct (forallb _ _) eqn:E; [|reflexivity]. exfalso. apply Hne.
    apply (fits_bits_eq N); try assumption. intros p Hp.
    rewrite forallb_forall in E. specialize (E (Z.to_nat p)).
    rewrite Z.add_0_l, Z2Nat.id, Hlow in E by lia.
    apply eqb_prop, E, in_seq. lia.
Qed.

Section Oracle.
Variables N M : nat.
Variable function : Z → Z.
Variables x st0 : Z.
Hypothesis HN : (1 ≤ N < 64)%nat.
Hypothesis HNM : (N + M ≤ 64)%nat.
Hypothesis Hx : fits N x.

(** The qubits that the passes for the input [i] negate, up to output bit [j]. *)
Let inner (i : Z) (j : nat) (p : Z) : bool :=
  (x =? i) && (Z.of_nat N <=? p) && (p <? Z.of_nat N + Z.of_nat j)
  && Z.testbit (wrap (function i)) (p - Z.of_nat N).

(** The qubits negated once the inputs below [k] are done. *)
Let outer (k : nat) (p : Z) : bool :=
  (x <? Z.of_nat k) && (Z.of_nat N <=? p) && (p <? Z.of_nat N + Z.of_nat M)
  && Z.testbit (wrap (function x)) (p - Z.of_nat N).

Lemma inner_S i j p :
  0 ≤ p →
  inner i (S j) p =
    xorb (inner i j p)
         ((x =? i) && (Z.of_nat j + Z.of_nat N =? p) && Z.testbit (wrap (function i)) (Z.of_nat j)).
Proof.
  intros Hp. unfold inner.
  destruct (Z.eqb_spec (Z.of_nat j + Z.of_nat N) p) as [<-|Hne].
  - replace (Z.of_nat j + Z.of_nat N - Z.of_nat N) with (Z.of_nat j) by lia.
    destruct (Z.leb_spec (Z.of_nat N) (Z.of_nat j + Z.of_nat N)); [|lia].
    destruct (Z.ltb_spec (Z.of_nat j + Z.of_nat N) (Z.of_nat N + Z.of_nat (S j))); [|lia].
    destruct (Z.ltb_spec (Z.of_nat j + Z.of_nat N) (Z.of_nat N + Z.of_nat j)); [lia|].
    destruct (x =? i), (Z.testbit (wrap (function i)) (Z.of_nat j)); reflexivity.
  - rewrite andb_false_r, andb_false_l, xorb_false_r. f_equal. f_equal.
    destruct (Z.ltb_spec p (Z.of_nat N + Z.of_nat (S j))),
             (Z.ltb_spec p (Z.of_nat N + Z.of_nat j)); try reflexivity; lia.
Qed.

Lemma inner_low i j p : 0 ≤ p < Z.of_nat N → inner i j p = false.
Proof.
  intros Hp. unfold inner. destruct (Z.leb_spec (Z.of_nat N) p); [lia|].
  rewrite andb_false_r. reflexivity.
Qed.

Lemma outer_low k p : 0 ≤ p < Z.of_nat N → outer k p = false.
Proof.
  intros Hp. unfold outer. destruct (Z.leb_spec (Z.of_nat N) p); [lia|].
  rewrite andb_false_r. reflexivity.
Qed.

Lemma outer_S k p : outer (S k) p = xorb (outer k p) (inner (Z.of_nat k) M p).
Proof.
  unfold outer, inner.
  destruct (Z.eqb_spec x (Z.of_nat k)) as [->|Hne].
  - destruct (Z.ltb_spec (Z.of_nat k) (Z.of_nat (S k))); [|lia].
    destruct (Z.ltb_spec (Z.of_nat k) (Z.of_nat k)); [lia|]. reflexivity.
  - cbn [andb]. rewrite xorb_false_r. do 3 f_equal.
    destruct (Z.ltb_spec x (Z.of_nat (S k))), (Z.ltb_spec x (Z.of_nat k)); try reflexivity; lia.
Qed.

(** The passes of the inner loop for the input [i]. *)
Lemma inner_loop i reg S_in :
  fits N i →
  run_on_basis reg st0 = Some S_in →
  (∀ p, 0 ≤ p < Z.of_nat N → Z.testbit S_in p = Z.testbit x p) →
  ∃ reg' S',
    for_range 0 M
      (fun j x_y =>
         if Z.land (wrap (function i)) (wrap (Z.shiftl 1 (Z.of_nat j))) =? 0 then x_y
         else match x_y with
              | Some x_y => create_toggle_if_match N i x_y (wrap (Z.of_nat j + Z.of_nat N)) 0
              | None => None
              end)
      (Some reg) = Some reg' ∧
    run_on_basis reg' st0 = Some S' ∧
    ∀ p, 0 ≤ p → Z.testbit S' p = xorb (Z.testbit S_in p) (inner i M p).
Proof.
  intros Hi Hrun Hlow.
  pose (P := fun (j : nat) (x_y : option quantum_reg) =>
               ∃ reg' S', x_y = Some reg' ∧ run_on_basis reg' st0 = Some S' ∧
                          ∀ p, 0 ≤ p → Z.testbit S' p = xorb (Z.testbit S_in p) (inner i j p)).
  apply (for_range_inv P); unfold P; clear P; [lia| |].
  - exists reg, S_in. split; [reflexivity|]. split; [assumption|].
    intros p Hp. unfold inner.
    destruct (Z.ltb_spec p (Z.of_nat N + Z.of_nat 0)), (Z.leb_spec (Z.of_nat N) p); try lia;
      rewrite ?andb_false_r; cbn; rewrite xorb_false_r; reflexivity.
  - intros j x_y Hj (reg' & S' & -> & Hrun' & Hbits).
    rewrite bit_test by lia.
    destruct (Z.testbit (wrap (function i)) (Z.of_nat j)) eqn:Ebit; cbn [negb].
    + rewrite create_toggle_if_match_gates by lia.
      destruct (decide (N = 0)%nat); [lia|]. eexists. eexists. split; [reflexivity|].
      rewrite run_on_basis_app, Hrun'.
      rewrite wrap_small by lia.
      rewrite toggle_gates_basis by lia.
      split; [reflexivity|]. intros p Hp.
      rewrite (matches_low N S' x i Hx Hi).
      2: { intros q Hq. rewrite Hbits, inner_low, xorb_false_r by lia. apply Hlow, Hq. }
      rewrite inner_S, Ebit by assumption.
      destruct (x =? i).
      * rewrite lxor_pow2_testbit, Hbits by lia.
        destruct (Z.testbit S_in p), (inner i j p), (_ =? p); reflexivity.
      * rewrite Hbits by assumption.
        destruct (Z.testbit S_in p), (inner i j p); reflexivity.
    + exists reg', S'. split; [reflexivity|]. split; [assumption|]. intros p Hp.
      rewrite Hbits, inner_S, Ebit by assumption.
      rewrite andb_false_r, xorb_false_r. reflexivity.
Qed.

Lemma bitflip_oracle_bits :
  (∀ p, 0 ≤ p < Z.of_nat N → Z.testbit st0 p = Z.testbit x p) →
  ∃ gates S',
    bitflip_oracle N M [] function = Some gates ∧
    run_on_basis gates st0 = Some S' ∧
    ∀ p, 0 ≤ p →
         Z.testbit S' p =
           xorb (Z.testbit st0 p)
                ((Z.of_nat N <=? p) && (p <? Z.of_nat N + Z.of_nat M)
                 && Z.testbit (wrap (function x)) (p - Z.of_nat N)).
Proof.
  intros Hlow. unfold bitflip_oracle.
  rewrite shifted_one_small by lia.
  pose (P := fun (k : nat) (x_y : option quantum_reg) =>
               ∃ reg S, x_y = Some reg ∧ run_on_basis reg st0 = Some S ∧
                        ∀ p, 0 ≤ p → Z.testbit S p = xorb (Z.testbit st0 p) (outer k p)).
  assert (H : P (Z.to_nat (2 ^ Z.of_nat N))
                (for_range 0 (Z.to_nat (2 ^ Z.of_nat N))
                   (fun i x_y =>
                      let result := wrap (function (Z.of_nat i)) in
                      for_range 0 M
                        (fun j x_y =>
                           if Z.land result (wrap (Z.shiftl 1 (Z.of_nat j))) =? 0 then x_y
                           else match x_y with
                                | Some x_y =>
                                    create_toggle_if_match N (Z.of_nat i) x_y
                                      (wrap (Z.of_nat j + Z.of_nat N)) 0
                                | None => None
                                end) x_y)
                   (Some []))).
  { apply (for_range_inv P); unfold P; clear P; [lia| |].
    - exists [], st0. split; [reflexivity|]. split; [reflexivity|]. intros p Hp.
      unfold outer. destruct (Z.ltb_spec x (Z.of_nat 0)); [unfold fits in Hx; lia|].
      cbn. rewrite xorb_false_r. reflexivity.
    - intros k x_y Hk (reg & S & -> & Hrun & Hbits). cbn zeta.
      destruct (inner_loop (Z.of_nat k) reg S) as (reg' & S' & -> & Hrun' & Hbits').
      + unfold fits. pose proof (Z.pow_pos_nonneg 2 (Z.of_nat N)). lia.
      + exact Hrun.
      + intros p Hp. rewrite Hbits, outer_low, xorb_false_r by lia. apply Hlow, Hp.
      + exists reg', S'. split; [reflexivity|]. split; [assumption|]. intros p Hp.
        rewrite Hbits', Hbits, outer_S by assumption. apply xorb_assoc. }
  destruct H as (reg & S & E & Hrun & Hbits).
  exists reg, S. split; [exact E|]. split; [assumption|]. intros p Hp.
  rewrite Hbits by assumption. unfold outer.
  destruct (Z.ltb_spec x (Z.of_nat (Z.to_nat (2 ^ Z.of_nat N)))) as [_|Hge]; [reflexivity|].
  rewrite Z2Nat.id in Hge by (apply Z.pow_nonneg; lia). unfold fits in Hx. lia.
Qed.
End Oracle.

(** X25. The oracle that [bitflip_oracle<N, M>] builds sends the basis
    state with [x] in the first [N] qubits and [y] in the [M] qubits above
    them to the basis state with [x] and [y xor f(x)], where [f(x)] is read
    on its low [M] bits: the contract that [run_simon] asks of its callback. *)
Theorem bitflip_oracle_basis (N M : nat) (function : Z → Z) (x y : Z) :
  (1 ≤ N < 64)%nat → (N + M ≤ 64)%nat →
  0 ≤ x < 2 ^ Z.of_nat N → 0 ≤ y < 2 ^ Z.of_nat M →
  ∃ gates,
    bind_to_bitflip_oracle N M function [] = Some gates ∧
    run_on_basis gates (x + y * 2 ^ Z.of_nat N) =
      Some (x + Z.lxor y (wrap (function x) mod 2 ^ Z.of_nat M) * 2 ^ Z.of_nat N).
Proof.
  intros HN HNM Hx Hy. unfold bind_to_bitflip_oracle.
  destruct (bitflip_oracle_bits N M function x (x + y * 2 ^ Z.of_nat N) HN HNM Hx)
    as (gates & S' & Hg & Hrun & Hbits).
  { intros p Hp. rewrite testbit_join by (assumption || lia).
    destruct (Z.ltb_spec p (Z.of_nat N)); [reflexivity|lia]. }
  exists gates. split; [exact Hg|]. rewrite Hrun. f_equal.
  apply Z.bits_inj'. intros p Hp. rewrite Hbits by assumption.
  rewrite !testbit_join by (assumption || lia).
  destruct (Z.ltb_spec p (Z.of_nat N)) as [Hlt|Hge].
  - destruct (Z.leb_spec (Z.of_nat N) p); [lia|]. cbn. apply xorb_false_r.
  - destruct (Z.leb_spec (Z.of_nat N) p); [|lia]. cbn [andb].
    rewrite Z.lxor_spec. f_equal.
    destruct (Z.ltb_spec p (Z.of_nat N + Z.of_nat M)).
    + rewrite Z.mod_pow2_bits_low by lia. reflexivity.
    + rewrite Z.mod_pow2_bits_high by lia. reflexivity.
Qed.

Lemma bitflip_oracle_basis_witness :
  ∃ gates,
    bind_to_bitflip_oracle 3 3 test_simon_function [] = Some gates ∧
    run_on_basis gates (6 + 3 * 2 ^ Z.of_nat 3) =
      Some (6 + Z.lxor 3 (wrap (test_simon_function 6) mod 2 ^ Z.of_nat 3) * 2 ^ Z.of_nat 3).
Proof.
  apply (bitflip_oracle_basis 3 3 test_simon_function 6 3); lia.
Defined.

Local Close Scope Z_scope.

(** ** simon.hpp and test_simon *)

Lemma hadamard_loop N reg :
  for_range 0 N (fun i reg => reg ++ [quantum_hadamard (Z.of_nat i)]) reg =
  reg ++ map (fun i => quantum_hadamard (Z.of_nat i)) (seq 0 N).
Proof.
  induction N as [|k IH]; [cbn; rewrite app_nil_r; reflexivity|].
  rewrite for_range_S, IH, seq_S, map_app, <- app_assoc by lia. reflexivity.
Qed.

Local Open Scope Z_scope.

(** X26. [run_simon] puts a Hadamard gate on each of the first [N] qubits
    before and after the oracle, and splits the measured value at bit [N]:
    the first component is below [2^N] and the two put together are the
    measured value. *)
Theorem run_simon_measurement (N M : nat) (uf_callback : quantum_reg → option quantum_reg)
    (measured : Z) (oracle : quantum_reg) :
  (N < 64)%nat → 0 ≤ measured < 2 ^ 64 →
  uf_callback (map (fun i => quantum_hadamard (Z.of_nat i)) (seq 0 N)) = Some oracle →
  ∃ x y,
    run_simon N M uf_callback measured =
      Some (oracle ++ map (fun i => quantum_hadamard (Z.of_nat i)) (seq 0 N), (x, y)) ∧
    0 ≤ x < 2 ^ Z.of_nat N ∧ 0 ≤ y ∧ x + y * 2 ^ Z.of_nat N = measured ∧
    (measured < 2 ^ Z.of_nat (N + M) → y < 2 ^ Z.of_nat M).
Proof.
  intros HN Hm Huf. unfold run_simon. rewrite hadamard_loop. cbn [app]. rewrite Huf.
  rewrite hadamard_loop, bitmask_ones, wrap_small, Z.land_ones, Z.shiftr_div_pow2 by lia.
  pose proof (Z.pow_pos_nonneg 2 (Z.of_nat N) ltac:(lia) ltac:(lia)) as Hp.
  eexists. eexists. split; [reflexivity|].
  split; [apply Z.mod_pos_bound; lia|].
  split; [apply Z.div_pos; lia|].
  split; [rewrite Z.add_comm, Z.mul_comm; symmetry; apply Z.div_mod; lia|].
  intros Hlt. apply Z.div_lt_upper_bound; [lia|].
  rewrite <- Z.pow_add_r by lia. rewrite <- Nat2Z.inj_add. exact Hlt.
Qed.

Lemma run_simon_measurement_witness :
  ∃ x y,
    run_simon 1 1 (bind_to_bitflip_oracle 1 1 (fun x => x)) 3 =
      Some ([quantum_hadamard 0; quantum_unbounded_toffoli 1 [0] 1]
              ++ map (fun i => quantum_hadamard (Z.of_nat i)) (seq 0 1), (x, y)) ∧
    0 ≤ x < 2 ^ Z.of_nat 1 ∧ 0 ≤ y ∧ x + y * 2 ^ Z.of_nat 1 = 3 ∧
    (3 < 2 ^ Z.of_nat (1 + 1) → y < 2 ^ Z.of_nat 1).
Proof.
  apply (run_simon_measurement 1 1 (bind_to_bitflip_oracle 1 1 (fun x => x)) 3
           [quantum_hadamard 0; quantum_unbounded_toffoli 1 [0] 1]).
  - lia.
  - lia.
  - reflexivity.
Defined.

(** X29. The function of [test_simon] is "a valid 2-to-1 function with
    secret string s": on 3 bits it takes the same value at [x] and [y]
    exactly when [y] is [x] or [x xor 6]; and the check of the test fails a
    measurement exactly when it has an odd number of bits in common with 6. *)
Theorem test_simon_promise (x y : Z) :
  0 ≤ x < 8 → 0 ≤ y < 8 →
  (test_simon_function x = test_simon_function y ↔ y = x ∨ y = Z.lxor x 6) ∧
  test_simon_check x = bits_dot 3 x 6.
Proof.
  intros Hx Hy.
  assert (Ex : x = 0 ∨ x = 1 ∨ x = 2 ∨ x = 3 ∨ x = 4 ∨ x = 5 ∨ x = 6 ∨ x = 7) by lia.
  assert (Ey : y = 0 ∨ y = 1 ∨ y = 2 ∨ y = 3 ∨ y = 4 ∨ y = 5 ∨ y = 6 ∨ y = 7) by lia.
  split.
  - destruct Ex as [->|[->|[->|[->|[->|[->|[->| ->]]]]]]];
      destruct Ey as [->|[->|[->|[->|[->|[->|[->| ->]]]]]]];
      vm_compute; (split; [intros E; first [left; reflexivity|right; reflexivity|discriminate E]
                          |intros [E|E]; first [reflexivity|discriminate E]]).
  - destruct Ex as [->|[->|[->|[->|[->|[->|[->| ->]]]]]]]; reflexivity.
Qed.

Lemma test_simon_promise_witness :
  (test_simon_function 3 = test_simon_function 5 ↔ 5 = 3 ∨ 5 = Z.lxor 3 6) ∧
  test_simon_check 3 = bits_dot 3 3 6.
Proof. apply (test_simon_promise 3 5); lia. Defined.

Local Close Scope Z_scope.

(** ** main.cpp: generate_permuation_map *)

Lemma identity_loop junk max :
  for_range 0 max (fun i m => <[i := Z.of_nat i]> m) (map junk (seq 0 max)) =
  map Z.of_nat (seq 0 max).
Proof.
  assert (H : ∀ k, k ≤ max →
            for_range 0 k (fun i m => <[i := Z.of_nat i]> m) (map junk (seq 0 max)) =
            map Z.of_nat (seq 0 k) ++ map junk (seq k (max - k))).
  { induction k as [|k IH]; intros Hk.
    - cbn. rewrite Nat.sub_0_r. reflexivity.
    - rewrite for_range_S, IH by lia.
      rewrite insert_app_r_alt by (rewrite length_map, length_seq; lia).
      rewrite length_map, length_seq, Nat.sub_diag.
      rewrite seq_S, map_app, <- app_assoc. cbn [Nat.add map app].
      destruct (max - k) as [|d] eqn:Ed; [lia|]. cbn [seq map].
      replace (max - S k) with d by lia. reflexivity. }
  rewrite H, Nat.sub_diag by lia. cbn. apply app_nil_r.
Qed.

Lemma swap_at_transp (m : list Z) i j k :
  i < length m → j < length m → swap_at m i j !!! k = m !!! transp j i k.
Proof.
  intros Hi Hj. rewrite swap_at_lookup by assumption. unfold transp.
  repeat case_decide; subst; reflexivity || lia.
Qed.

Lemma NoDup_lookup_total (m : list Z) :
  NoDup m ↔ ∀ i j, i < length m → j < length m → m !!! i = m !!! j → i = j.
Proof.
  rewrite NoDup_alt. split.
  - intros H i j Hi Hj E. apply (H i j (m !!! i)).
    + apply list_lookup_lookup_total_lt, Hi.
    + rewrite E. apply list_lookup_lookup_total_lt, Hj.
  - intros H i j x Hi Hj.
    pose proof (lookup_lt_Some _ _ _ Hi). pose proof (lookup_lt_Some _ _ _ Hj).
    apply H; try assumption.
    rewrite (list_lookup_total_correct _ _ _ Hi), (list_lookup_total_correct _ _ _ Hj).
    reflexivity.
Qed.

Lemma swap_at_NoDup (m : list Z) i j :
  i < length m → j < length m → NoDup m → NoDup (swap_at m i j).
Proof.
  intros Hi Hj Hnd. apply NoDup_lookup_total. intros a b Ha Hb E.
  rewrite swap_at_length in Ha, Hb. rewrite !swap_at_transp in E by assumption.
  apply (proj1 (NoDup_lookup_total m) Hnd) in E; try (apply transp_lt; assumption).
  rewrite <- (transp_invol j i a), E. apply transp_invol.
Qed.

Lemma swap_at_Forall (P : Z → Prop) (m : list Z) i j :
  i < length m → j < length m → Forall P m → Forall P (swap_at m i j).
Proof.
  intros Hi Hj H. unfold swap_at.
  apply Forall_insert; [apply Forall_insert|]; try assumption;
    apply (Forall_lookup_total_1 _ _ _ H); assumption.
Qed.

Lemma permutation_table_alt max m :
  permutation_table max m ↔
  length m = max ∧ NoDup m ∧ Forall (fun v => 0 ≤ v < Z.of_nat max)%Z m.
Proof.
  unfold permutation_table. split.
  - intros Hp. split; [|split].
    + rewrite Hp, length_map, length_seq. reflexivity.
    + rewrite Hp. apply NoDup_fmap_2; [apply Nat2Z.inj'|apply NoDup_seq].
    + rewrite Hp. apply Forall_forall. intros v Hv. apply list_elem_of_In, in_map_iff in Hv.
      destruct Hv as (k & <- & Hk). apply in_seq in Hk. lia.
  - intros (Hlen & Hnd & Hall).
    apply NoDup_Permutation_bis; [apply NoDup_ListNoDup, Hnd| |].
    + rewrite length_map, length_seq. lia.
    + intros v Hv. rewrite Forall_forall in Hall.
      specialize (Hall v (proj2 (list_elem_of_In _ _) Hv)).
      apply in_map_iff. exists (Z.to_nat v). split; [lia|]. apply in_seq. lia.
Qed.

Lemma generate_permuation_map_table junk rand max permutations :
  0 < max →
  ∃ m, generate_permuation_map junk rand max permutations = Some m ∧ permutation_table max m.
Proof.
  intros Hmax. unfold generate_permuation_map.
  destruct (Nat.eqb_spec max 0) as [|_]; [lia|]. cbn [andb].
  rewrite identity_loop. eexists. split; [reflexivity|].
  apply permutation_table_alt.
  apply (for_range_inv
           (fun _ m => length m = max ∧ NoDup m ∧ Forall (fun v => 0 ≤ v < Z.of_nat max)%Z m));
    [lia| |].
  - apply permutation_table_alt. unfold permutation_table. reflexivity.
  - intros i m _ (Hlen & Hnd & Hall). cbn zeta.
    assert (Hr : ∀ r, Z.to_nat (wrap r mod Z.of_nat max) < length m).
    { intros r. pose proof (Z.mod_pos_bound (wrap r) (Z.of_nat max) ltac:(lia)). lia. }
    split; [rewrite swap_at_length; assumption|].
    split; [apply swap_at_NoDup; auto|apply swap_at_Forall; auto].
Qed.

(** X27. The table of [generate_permuation_map] holds every number below
    [max] once, whatever the random numbers and the number of swaps are;
    with no swap it is the identity table, and with [max = 0] the first swap
    divides by zero. *)
Theorem generate_permuation_map_bijective (junk rand : nat → Z) (max permutations : nat) :
  (0 < max →
   ∃ m, generate_permuation_map junk rand max permutations = Some m ∧
        m ≡ₚ map Z.of_nat (seq 0 max) ∧ length m = max ∧
        ∀ v, (0 ≤ v < Z.of_nat max)%Z → ∃ i, i < max ∧ m !! i = Some v) ∧
  generate_permuation_map junk rand max 0 = Some (map Z.of_nat (seq 0 max)) ∧
  (0 < permutations → generate_permuation_map junk rand 0 permutations = None).
Proof.
  split; [|split].
  - intros Hmax.
    destruct (generate_permuation_map_table junk rand max permutations Hmax) as (m & Hm & Hp).
    exists m. split; [exact Hm|]. split; [exact Hp|].
    pose proof (proj1 (permutation_table_alt max m) Hp) as (Hlen & _ & _).
    split; [exact Hlen|]. intros v Hv.
    assert (Hin : v ∈ m).
    { rewrite Hp. apply list_elem_of_In, in_map_iff. exists (Z.to_nat v).
      split; [lia|]. apply in_seq. lia. }
    apply list_elem_of_lookup in Hin. destruct Hin as [i Hi]. exists i.
    split; [|exact Hi]. rewrite <- Hlen. exact (lookup_lt_Some _ _ _ Hi).
  - unfold generate_permuation_map. rewrite identity_loop.
    rewrite andb_false_r. reflexivity.
  - intros Hp. unfold generate_permuation_map.
    destruct (Nat.eqb_spec permutations 0); [lia|reflexivity].
Qed.

Lemma generate_permuation_map_bijective_witness :
  (0 < 4 →
   ∃ m, generate_permuation_map (fun _ => 7%Z) (fun k => Z.of_nat (5 * k + 3)) 4 3 = Some m ∧
        m ≡ₚ map Z.of_nat (seq 0 4) ∧ length m = 4 ∧
        ∀ v, (0 ≤ v < Z.of_nat 4)%Z → ∃ i, i < 4 ∧ m !! i = Some v) ∧
  generate_permuation_map (fun _ => 7%Z) (fun k => Z.of_nat (5 * k + 3)) 4 0 =
    Some (map Z.of_nat (seq 0 4)) ∧
  (0 < 3 → generate_permuation_map (fun _ => 7%Z) (fun k => Z.of_nat (5 * k + 3)) 0 3 = None).
Proof.
  apply (generate_permuation_map_bijective (fun _ => 7%Z) (fun k => Z.of_nat (5 * k + 3)) 4 3).
Defined.

Local Open Scope Z_scope.

(** ** run_feistel_tests *)

Lemma pow_nat_Z n : Z.of_nat (2 ^ n) = 2 ^ Z.of_nat n.
Proof. rewrite Nat2Z.inj_pow. reflexivity. Qed.

Lemma lxor_index Bits r k :
  fits Bits r → fits Bits k → (Z.to_nat (Z.lxor r k) < 2 ^ Bits)%nat.
Proof.
  intros Hr Hk. pose proof (fits_lxor Bits r k Hr Hk) as [H1 H2].
  rewrite <- pow_nat_Z in H2. lia.
Qed.

(** X28. The round function of [run_feistel_tests] reads its table inside
    the table, sends half-blocks to half-blocks and is one-to-one on them,
    for every table that [generate_permuation_map] can return and every key
    of [Bits] bits. *)
Theorem pearson_round_half_blocks (Bits : nat) (junk rand : nat → Z) (permutations : nat)
    (r k : Z) :
  0 ≤ r < 2 ^ Z.of_nat Bits → 0 ≤ k < 2 ^ Z.of_nat Bits →
  ∃ table,
    generate_permuation_map junk rand (2 ^ Bits) permutations = Some table ∧
    (Z.to_nat (Z.lxor r k) < length table)%nat ∧
    0 ≤ pearson_round table r k < 2 ^ Z.of_nat Bits ∧
    ∀ r', 0 ≤ r' < 2 ^ Z.of_nat Bits → pearson_round table r' k = pearson_round table r k → r' = r.
Proof.
  intros Hr Hk.
  assert (Hpos : (0 < 2 ^ Bits)%nat) by (apply Nat.neq_0_lt_0, Nat.pow_nonzero; lia).
  destruct (generate_permuation_map_table junk rand (2 ^ Bits) permutations Hpos)
    as (table & Ht & Hp).
  apply permutation_table_alt in Hp. destruct Hp as (Hlen & Hnd & Hall).
  exists table. split; [exact Ht|].
  pose proof (lxor_index Bits r k Hr Hk) as Hidx.
  split; [lia|]. split.
  - unfold pearson_round. rewrite <- pow_nat_Z.
    apply (Forall_lookup_total_1 _ _ _ Hall). lia.
  - intros r' Hr' E. unfold pearson_round in E.
    pose proof (lxor_index Bits r' k Hr' Hk) as Hidx'.
    apply (proj1 (NoDup_lookup_total table) Hnd) in E; try lia.
    apply Z2Nat.inj in E; try (apply (fits_lxor Bits); assumption).
    rewrite (Z.lxor_comm r'), (Z.lxor_comm r) in E. apply lxor_cancel_l in E. exact E.
Qed.

Lemma pearson_round_half_blocks_witness :
  ∃ table,
    generate_permuation_map (fun _ => 7) (fun k => Z.of_nat (5 * k + 3)) (2 ^ 2) 3 = Some table ∧
    (Z.to_nat (Z.lxor 2 3) < length table)%nat ∧
    0 ≤ pearson_round table 2 3 < 2 ^ Z.of_nat 2 ∧
    ∀ r', 0 ≤ r' < 2 ^ Z.of_nat 2 → pearson_round table r' 3 = pearson_round table 2 3 → r' = 2.
Proof.
  apply (pearson_round_half_blocks 2 (fun _ => 7) (fun k => Z.of_nat (5 * k + 3)) 3 2 3).
  - vm_compute. split; congruence.
  - vm_compute. split; congruence.
Defined.

Local Close Scope Z_scope.
